(** * avgv.c: scatter / local average / gather / weighted average

    A shallow embedding of
    [tutorials/mpi-scatter-gather-and-allgather/code/avgv.c] and the
    properties of its partitioner, its two averaging loops and its
    command-line check.

    Conventions of the embedding.
    - A C [int] is a [Z]; arithmetic wraps to 32 bits ([CInt.wrap]).
    - A C array is a [list]; a read or write outside of it has no defined
      result, which is [None] in the [option] monad.  [None] never stands for
      an error the program reports: the program reports errors on its trace
      of events only.
    - A C [float] is an IEEE 754 binary32 value ([Binary32.float32], the
      [spec_float] of the standard library at precision 24), each operation
      rounded to nearest-even, evaluated in single precision, without fused
      multiply-add.  The float loops are written over the interface
      [FloatArith], so that the same text can also be read over the
      rationals ([Qc]), that is, with every rounding removed.  What an
      operation rounds to is stated on the reals ([Nearest.rounds]).
    - Whether a call of [malloc] returns a block is up to the surroundings
      of the program ([malloc_succeeds]); each call is followed by its
      [assert], as in the source. *)

From Stdlib Require Import ZArith List Lia String Ascii.
From Stdlib Require Import QArith Qabs Qminmax Qcanon Field.
From Stdlib Require Import Reals Lra.
From Stdlib Require Import Floats.SpecFloat.
From stdpp Require Import base tactics option list numbers.

Local Open Scope Z_scope.

(** ** C [int] *)

Module CInt.

Definition INT_MAX : Z := 2147483647.
Definition INT_MIN : Z := -2147483648.

(** Two's complement wrap-around of a mathematical integer to 32 bits. *)
Definition wrap (z : Z) : Z := (z + 2147483648) mod 4294967296 - 2147483648.

Definition in_range (z : Z) : Prop := INT_MIN <= z <= INT_MAX.

Definition add (a b : Z) : Z := wrap (a + b).
Definition sub (a b : Z) : Z := wrap (a - b).

(** [a / b] of C: truncation towards zero; no result for a zero divisor
    or for [INT_MIN / -1]. *)
Definition div (a b : Z) : option Z :=
  if decide (b = 0) then None
  else if decide (a = INT_MIN /\ b = -1) then None
  else Some (Z.quot a b).

End CInt.

(** ** Arrays and counted loops *)

Section Arrays.
Context {A : Type}.

(** [a[i]] *)
Definition load (a : list A) (i : Z) : option A :=
  if decide (0 <= i) then a !! Z.to_nat i else None.

(** [a[i] = v] *)
Definition store (a : list A) (i : Z) (v : A) : option (list A) :=
  if decide (0 <= i < Z.of_nat (length a)) then Some (<[Z.to_nat i := v]> a)
  else None.

End Arrays.

Section Loops.
Context {St : Type}.

(** [count] more rounds of a loop whose counter stands at [i]. *)
Fixpoint for_from (i : Z) (count : nat) (body : Z -> St -> option St)
    (s : St) : option St :=
  match count with
  | O => Some s
  | S count' =>
      s' ← body i s; for_from (CInt.add i 1) count' body s'
  end.

(** [for (i = 0; i < bound; i++) body], for a body that writes neither [i]
    nor [bound]: [bound] rounds, none when [bound <= 0]. *)
Definition for_loop (bound : Z) (body : Z -> St -> option St) (s : St)
  : option St :=
  for_from 0 (Z.to_nat bound) body s.

End Loops.

(** ** The partitioner *)

Record split_state := SplitState {
  st_num_elements_by_process : list Z;
  st_displacements : list Z;
  st_element_position : Z
}.

Definition split_body (elements_to_split num_bins : Z) (i : Z)
    (st : split_state) : option split_state :=
  displacements ← store (st_displacements st) i (st_element_position st);
  q ← CInt.div elements_to_split num_bins;
  num_elements_by_process ← store (st_num_elements_by_process st) i q;
  q' ← CInt.div elements_to_split num_bins;
  Some (SplitState num_elements_by_process displacements
          (CInt.add (st_element_position st) q')).

(** [split_num_between_processes]: the two output arrays are the caller's,
    given here with the contents they have on entry; the result is the pair
    (num_elements_by_process, displacements) on return. *)
Definition split_num_between_processes (elements_to_split num_bins : Z)
    (num_elements_by_process displacements : list Z)
    : option (list Z * list Z) :=
  st ← for_loop (CInt.sub num_bins 1)
         (split_body elements_to_split num_bins)
         (SplitState num_elements_by_process displacements 0);
  let last := CInt.sub num_bins 1 in
  displacements' ← store (st_displacements st) last (st_element_position st);
  num_elements_by_process' ←
    store (st_num_elements_by_process st) last
      (CInt.sub elements_to_split (st_element_position st));
  Some (num_elements_by_process', displacements').

(** ** C [float] *)

Module Binary32.

Definition prec : Z := 24.
Definition emax : Z := 128.

Definition float32 : Type := spec_float.

Definition zero : float32 := S754_zero false.
Definition nan : float32 := S754_nan.
Definition add : float32 -> float32 -> float32 := SFadd prec emax.
Definition mul : float32 -> float32 -> float32 := SFmul prec emax.
Definition div : float32 -> float32 -> float32 := SFdiv prec emax.

(** Conversion of an [int] to [float], rounded to nearest-even. *)
Definition of_int (z : Z) : float32 := binary_normalize prec emax z 0 false.

(** [m * 2^e], rounded. *)
Definition of_scaled (m e : Z) : float32 := binary_normalize prec emax m e false.

Definition FLT_MAX : float32 := SFmax_float prec emax.

(** [x == y] of C. *)
Definition eqb : float32 -> float32 -> bool := SFeqb.

Definition is_nan (x : float32) : bool :=
  match x with S754_nan => true | _ => false end.

Definition is_finite (x : float32) : bool :=
  match x with S754_zero _ | S754_finite _ _ _ => true | _ => false end.

(** The rational a finite value stands for. *)
Definition to_Q (x : float32) : option Q :=
  match x with
  | S754_zero _ => Some 0%Q
  | S754_finite s m e =>
      Some (inject_Z (cond_Zopp s (Zpos m)) * Qpower (2 # 1) e)%Q
  | _ => None
  end.

(** [a] and [b] are finite and differ by at most [tol] times the larger
    of their magnitudes. *)
Definition rel_close (tol : Q) (a b : float32) : bool :=
  match to_Q a, to_Q b with
  | Some x, Some y =>
      Qle_bool (Qabs (x - y)) (tol * Qmax (Qabs x) (Qabs y))
  | _, _ => false
  end.

End Binary32.

(** ** Rounding to nearest, ties to even, as a relation on the reals *)

Module Nearest.

Definition emin : Z := SpecFloat.emin Binary32.prec Binary32.emax.
Definition fexp : Z -> Z := SpecFloat.fexp Binary32.prec Binary32.emax.

Definition pow2 (e : Z) : R := powerRZ 2 e.

(** The real [m * 2^e]. *)
Definition F2R (m e : Z) : R := (IZR m * pow2 e)%R.

(** Where [z] lies in [[m, m+1)]: what a [location] records. *)
Definition located (m : Z) (l : location) (z : R) : Prop :=
  match l with
  | loc_Exact => z = IZR m
  | loc_Inexact Lt => (IZR m < z < IZR m + / 2)%R
  | loc_Inexact Eq => z = (IZR m + / 2)%R
  | loc_Inexact Gt => (IZR m + / 2 < z < IZR m + 1)%R
  end.

(** [c] is the exponent binary32 gives to the real [y]: 24 digits above
    it, or the least exponent. *)
Definition canonic (c : Z) (y : R) : Prop :=
  emin <= c /\ (y < pow2 (c + 24))%R
  /\ (c = emin \/ (pow2 (c + 23) <= y)%R).

(** [n] is the integer nearest to [z], the even one at a tie. *)
Definition nearest_even (z : R) (n : Z) : Prop :=
  (IZR n - / 2 <= z <= IZR n + / 2)%R
  /\ (z = (IZR n - / 2)%R \/ z = (IZR n + / 2)%R -> Z.even n = true).

(** The real [y] rounds to [n * 2^c]. *)
Definition rounds (y : R) (n c : Z) : Prop :=
  canonic c y /\ nearest_even (y * pow2 (- c)) n.

(** The float for [n * 2^c], [n] being at most [2^24]. *)
Definition encode (sx : bool) (n c : Z) : Binary32.float32 :=
  let '(m, e) := if decide (n = 2 ^ 24) then (2 ^ 23, c + 1) else (n, c) in
  match m with
  | Z0 => S754_zero sx
  | Zpos p =>
      if e <=? Binary32.emax - Binary32.prec then S754_finite sx p e
      else S754_infinity sx
  | Zneg _ => S754_nan
  end.

(** A real that binary32 holds, overflow apart. *)
Definition representable (x : R) : Prop :=
  exists m e, x = F2R m e /\ 0 <= m <= 2 ^ 24 /\ emin <= e.

(** [y2] is at least as near to [d] as [y1] is, and not beyond [y1]. *)
Definition within (d y1 y2 : R) : Prop :=
  ((d <= y1 -> y2 <= y1 /\ 2 * d - y1 <= y2)
   /\ (y1 <= d -> y1 <= y2 /\ y2 <= 2 * d - y1))%R.

(** What a running sum of values of [[0, 1]] is: [+0], or a positive value
    that binary32 holds, at most [2^25]. *)
Definition sum_value (x : Binary32.float32) : Prop :=
  x = S754_zero false
  \/ exists m e,
       x = S754_finite false m e /\ Z.pos m < 2 ^ 24 /\ emin <= e
       /\ (F2R (Z.pos m) e <= pow2 25)%R.

End Nearest.

(** [0.0f <= x && x <= 1.0f], for a value that is a binary32 one. *)
Definition unit_interval (x : Binary32.float32) : bool :=
  valid_binary Binary32.prec Binary32.emax x
  && SFleb (S754_zero false) x && SFleb x (Binary32.of_int 1).


Import Nearest.

(** The arithmetic the two averaging loops use. *)
Class FloatArith (F : Type) := {
  f_zero : F;
  f_add : F -> F -> F;
  f_mul : F -> F -> F;
  f_div : F -> F -> F;
  f_of_int : Z -> F
}.

#[global] Instance binary32_arith : FloatArith Binary32.float32 := {
  f_zero := Binary32.zero;
  f_add := Binary32.add;
  f_mul := Binary32.mul;
  f_div := Binary32.div;
  f_of_int := Binary32.of_int
}.

(** The same operations without rounding. *)
#[global] Instance exact_arith : FloatArith Qc := {
  f_zero := 0%Qc;
  f_add := Qcplus;
  f_mul := Qcmult;
  f_div := Qcdiv;
  f_of_int := Qc_of_Z
}.

(** ** The two averaging loops *)

Section Averages.
Context {F : Type} `{FloatArith F}.

Definition compute_avg (array : list F) (num_elements : Z) : option F :=
  sum ← for_loop num_elements
          (fun i sum => x ← load array i; Some (f_add sum x))
          f_zero;
  Some (f_div sum (f_of_int num_elements)).

Definition weighted_body (array : list F) (weights_array : list Z) (i : Z)
    (st : F * F) : option (F * F) :=
  let '(sum, sum_weights) := st in
  w ← load weights_array i;
  x ← load array i;
  Some (f_add sum (f_mul (f_of_int w) x), f_add sum_weights (f_of_int w)).

Definition compute_weighted_avg (array : list F) (weights_array : list Z)
    (num_elements : Z) : option F :=
  st ← for_loop num_elements (weighted_body array weights_array)
         (f_zero, f_zero);
  Some (f_div (fst st) (snd st)).

End Averages.

(** ** The two collectives, as the data they move

    The ranks run the same program; a rank's view of a collective is
    computed from what the root holds. *)

Section Collectives.
Context {A : Type}.

(** What [MPI_Scatterv] delivers to [rank]: [sendcounts[rank]] elements of
    the root's [sendbuf], from index [displs[rank]] on. *)
Definition MPI_Scatterv (sendbuf : list A) (sendcounts displs : list Z)
    (rank : Z) : option (list A) :=
  count ← load sendcounts rank;
  displ ← load displs rank;
  if decide (0 <= count /\ 0 <= displ
             /\ displ + count <= Z.of_nat (length sendbuf))
  then Some (take (Z.to_nat count) (drop (Z.to_nat displ) sendbuf))
  else None.

(** What [MPI_Gather] of one element per rank leaves at the root: the
    contributions in rank order. *)
Definition MPI_Gather (contribution : Z -> option A) (size : Z)
  : option (list A) :=
  mapM contribution (seqZ 0 size).

End Collectives.

(** The local slices of all ranks, in rank order. *)
Definition local_slices {A : Type} (sendbuf : list A)
    (sendcounts displs : list Z) (size : Z) : option (list (list A)) :=
  mapM (MPI_Scatterv sendbuf sendcounts displs) (seqZ 0 size).

Section Pipeline.
Context {F : Type} `{FloatArith F}.

(** The partial average of [rank]: [compute_avg] over its slice. *)
Definition sub_avg_of_rank (sendbuf : list F) (sendcounts displs : list Z)
    (rank : Z) : option F :=
  sub_rand_nums ← MPI_Scatterv sendbuf sendcounts displs rank;
  count ← load sendcounts rank;
  compute_avg sub_rand_nums count.

(** What the root holds in [sub_avgs] after [MPI_Gather]: the partial
    average of each rank. *)
Definition partial_averages (g : list F) (counts displs : list Z) (size : Z)
  : option (list F) :=
  MPI_Gather (sub_avg_of_rank g counts displs) size.

(** The first printed value: the weighted average of the partial
    averages. *)
Definition global_average (g : list F) (counts displs : list Z) (size : Z)
  : option F :=
  sub_avgs ← partial_averages g counts displs size;
  compute_weighted_avg sub_avgs counts size.

End Pipeline.

(** ** Processes: what a rank does, as a trace of events *)

Inductive event (F : Type) : Type :=
| Fprintf_stderr (text : string)
| Printf (format : string) (arg : F)
| Exit (status : Z)
| Abort
| Srand (seed : Z)
| Mpi_Init
| Mpi_Scatterv (received : list F)
| Mpi_Gather (sent : F)
| Mpi_Barrier
| Mpi_Finalize
| Blocked.

Arguments Fprintf_stderr {F} text.
Arguments Printf {F} format arg.
Arguments Exit {F} status.
Arguments Abort {F}.
Arguments Srand {F} seed.
Arguments Mpi_Init {F}.
Arguments Mpi_Scatterv {F} received.
Arguments Mpi_Gather {F} sent.
Arguments Mpi_Barrier {F}.
Arguments Mpi_Finalize {F}.
Arguments Blocked {F}.

(** A process so far: still running with a value in hand, ended (by [exit],
    by a failed [assert], or blocked for ever in a collective), or gone
    into undefined behaviour. *)
Inductive proc (F A : Type) : Type :=
| Running (trace : list (event F)) (a : A)
| Ended (trace : list (event F))
| Undefined.

Arguments Running {F A} trace a.
Arguments Ended {F A} trace.
Arguments Undefined {F A}.

Section Proc.
Context {F : Type}.

#[global] Instance proc_ret : MRet (proc F) := fun A a => Running [] a.

#[global] Instance proc_bind : MBind (proc F) := fun A B f m =>
  match m with
  | Running trace a =>
      match f a with
      | Running trace' b => Running (trace ++ trace') b
      | Ended trace' => Ended (trace ++ trace')
      | Undefined => Undefined
      end
  | Ended trace => Ended trace
  | Undefined => Undefined
  end.

Definition emit (e : event F) : proc F unit := Running [e] tt.

(** [exit(status)] *)
Definition exit {A : Type} (status : Z) : proc F A := Ended [Exit status].

(** A step of plain C whose result may be undefined. *)
Definition defined {A : Type} (o : option A) : proc F A :=
  match o with Some a => Running [] a | None => Undefined end.

(** Whether a process has come through, to its next statement. *)
Definition enters {A : Type} (p : proc F A) : bool :=
  match p with Running _ _ => true | _ => false end.

(** [p = malloc(size * n); assert(p != NULL);] with [n] an [int] and [size]
    the [sizeof] of an element.  A negative [n] converts to a request of at
    least [2^64 - 2^33] bytes (LP64), which no allocation satisfies: the
    assertion fails.  For any other request, of zero bytes too, whether
    [malloc] returns a block is up to the surroundings, [succeeds]; when it
    does not, the assertion fails.  A block holds whatever the memory held,
    [junk]. *)
Definition malloc_assert {A : Type} (junk : nat -> A) (succeeds : Z -> bool)
    (size n : Z) : proc F (list A) :=
  if decide (0 <= n) then
    if succeeds (size * n) then Running [] (junk <$> seq 0 (Z.to_nat n))
    else Ended [Abort]
  else Ended [Abort].

End Proc.

(** The calls of [malloc] in the program; each rank makes each of its calls
    once. *)
Inductive allocation : Type :=
| Alloc_rand_nums
| Alloc_num_elements_by_process (rank : Z)
| Alloc_displacements (rank : Z)
| Alloc_sub_rand_nums (rank : Z)
| Alloc_sub_avgs.

(** What the program takes from its surroundings. *)
Record environment (F : Type) : Type := Environment {
  atoi : string -> Z;
  (** [time(NULL)] as each rank reads it *)
  time : Z -> Z;
  (** [rand seed k]: the result of call [k] (from 0) to [rand()] after
      [srand(seed)] *)
  rand : Z -> Z -> Z;
  RAND_MAX : Z;
  (** [MPI_Comm_size]; the ranks are [0 .. world_size - 1] *)
  world_size : Z;
  (** whether the given call of [malloc], asking for that many bytes,
      returns a block *)
  malloc_succeeds : allocation -> Z -> bool;
  junk_int : nat -> Z;
  junk_float : nat -> F
}.

Arguments atoi {F} e _.
Arguments time {F} e _.
Arguments rand {F} e _ _.
Arguments RAND_MAX {F} e.
Arguments world_size {F} e.
Arguments malloc_succeeds {F} e _ _.
Arguments junk_int {F} e _.
Arguments junk_float {F} e _.

(** Every allocation the program asks for is granted. *)
Definition allocations_succeed {F : Type} (env : environment F) : Prop :=
  forall (a : allocation) (bytes : Z), malloc_succeeds env a bytes = true.

(** [sizeof(float)] and [sizeof(int)] *)
Definition sizeof_float : Z := 4.
Definition sizeof_int : Z := 4.

Definition newline : string := String (ascii_of_nat 10) EmptyString.

Definition usage : string := "Usage: avg total_num_elements" ++ newline.

Section Program.
Context {F : Type} `{FloatArith F}.
Variable env : environment F.

(** [srand] takes an [unsigned]. *)
Definition seed_of (rank : Z) : Z := time env rank mod 4294967296.

(** [create_rand_nums], run after [srand(seed)] with no call to [rand()]
    in between: round [i] of the loop makes call [i]. *)
Definition create_rand_nums (seed : Z) (num_elements : Z)
  : proc F (list F) :=
  rand_nums ←
    malloc_assert (junk_float env) (malloc_succeeds env Alloc_rand_nums)
      sizeof_float num_elements;
  defined
    (for_loop num_elements
       (fun i rand_nums =>
          store rand_nums i
            (f_div (f_of_int (rand env seed i)) (f_of_int (RAND_MAX env))))
       rand_nums).

(** The array [create_rand_nums] fills, in closed form. *)
Definition generated (seed : Z) (num_elements : Z) : list F :=
  (fun i : nat =>
     f_div (f_of_int (rand env seed (Z.of_nat i))) (f_of_int (RAND_MAX env)))
    <$> seq 0 (Z.to_nat num_elements).

(** What the root holds in [rand_nums] when it reaches [MPI_Scatterv], if
    it gets there. *)
Definition root_rand_nums (total_num_elements : Z) : option (list F) :=
  match create_rand_nums (seed_of 0) total_num_elements with
  | Running _ rand_nums => Some rand_nums
  | _ => None
  end.

(** [main] from its second statement up to the call of [MPI_Scatterv]:
    what the rank holds then in [rand_nums], [num_elements_by_process],
    [displacements] and [num_elements_by_process[world_rank]]. *)
Definition before_scatterv (total_num_elements world_rank : Z)
  : proc F (list F * list Z * list Z * Z) :=
  emit (Srand (seed_of world_rank));;
  emit Mpi_Init;;
  rand_nums ←
    (if decide (world_rank = 0)
     then create_rand_nums (seed_of world_rank) total_num_elements
     else mret []);
  num_elements_by_process ←
    malloc_assert (junk_int env)
      (malloc_succeeds env (Alloc_num_elements_by_process world_rank))
      sizeof_int (world_size env);
  displacements ←
    malloc_assert (junk_int env)
      (malloc_succeeds env (Alloc_displacements world_rank))
      sizeof_int (world_size env);
  plan ←
    defined (split_num_between_processes total_num_elements
               (world_size env) num_elements_by_process displacements);
  let '(num_elements_by_process, displacements) := plan in
  my_count ← defined (load num_elements_by_process world_rank);
  _ ← malloc_assert (junk_float env)
        (malloc_succeeds env (Alloc_sub_rand_nums world_rank))
        sizeof_float my_count;
  mret (rand_nums, num_elements_by_process, displacements, my_count).

(** The collectives are taken as the specification describes them: a call
    returns once every rank has entered it, and never otherwise.  The ranks
    are started with the same command line. *)
Definition all_enter_scatterv (total_num_elements : Z) : bool :=
  forallb (fun rank => enters (before_scatterv total_num_elements rank))
    (seqZ 0 (world_size env)).

Definition scatterv_at (world_rank : Z) (rand_nums : list F)
    (total_num_elements : Z) (sendcounts displs : list Z)
  : proc F (list F) :=
  if all_enter_scatterv total_num_elements then
    match (if decide (world_rank = 0) then Some rand_nums
           else root_rand_nums total_num_elements) with
    | None => Ended [Blocked]
    | Some sendbuf =>
        sub_rand_nums ←
          defined (MPI_Scatterv sendbuf sendcounts displs world_rank);
        emit (Mpi_Scatterv sub_rand_nums);;
        mret sub_rand_nums
    end
  else Ended [Blocked].

(** Past the scatter only the root can still fail, in the allocation of
    [sub_avgs]; the other ranks then wait in [MPI_Gather] for ever. *)
Definition gather_at (world_rank : Z) (sub_avg : F) : proc F unit :=
  if decide (world_rank = 0) then
    _ ← malloc_assert (junk_float env) (malloc_succeeds env Alloc_sub_avgs)
          sizeof_float (world_size env);
    emit (Mpi_Gather sub_avg)
  else if malloc_succeeds env Alloc_sub_avgs (sizeof_float * world_size env)
  then emit (Mpi_Gather sub_avg)
  else Ended [Blocked].

Definition main (argc : Z) (argv : list string) (world_rank : Z)
  : proc F Z :=
  if decide (argc <> 2) then
    emit (Fprintf_stderr usage);;
    exit 1
  else
    arg ← defined (argv !! 1%nat);
    let total_num_elements := atoi env arg in
    held ← before_scatterv total_num_elements world_rank;
    let '(rand_nums, num_elements_by_process, displacements, my_count) :=
      held in
    sub_rand_nums ←
      scatterv_at world_rank rand_nums total_num_elements
        num_elements_by_process displacements;
    sub_avg ← defined (compute_avg sub_rand_nums my_count);
    gather_at world_rank sub_avg;;
    (if decide (world_rank = 0) then
       sub_avgs ←
         defined (partial_averages rand_nums num_elements_by_process
                    displacements (world_size env));
       avg ←
         defined (compute_weighted_avg sub_avgs num_elements_by_process
                    (world_size env));
       emit (Printf ("Avg of all elements is %f" ++ newline) avg);;
       original_data_avg ←
         defined (compute_avg rand_nums total_num_elements);
       emit (Printf ("Avg computed across original data is %f" ++ newline)
               original_data_avg)
     else mret tt);;
    emit Mpi_Barrier;;
    emit Mpi_Finalize;;
    mret 0.

End Program.

(** ** The partition in closed form

    What the specification describes: [total / n] (rounded down) for each
    worker but the last, the rest for the last, and offsets that are the
    running totals. *)

Definition plan_counts (total n : Z) : list Z :=
  replicate (Z.to_nat (n - 1)) (total / n) ++ [total - (n - 1) * (total / n)].

Definition plan_displs (total n : Z) : list Z :=
  (fun i : nat => Z.of_nat i * (total / n)) <$> seq 0 (Z.to_nat n).

Definition sum_Z (l : list Z) : Z := foldr Z.add 0 l.

(** [element_position] after [k] rounds of the partitioner's loop, each
    adding [q]. *)
Definition position_after (q : Z) (k : nat) : Z :=
  Nat.iter k (fun element_position => CInt.add element_position q) 0.

(** The state of the partitioner's loop after [k] rounds. *)
Definition split_state_after (q : Z) (counts0 displs0 : list Z) (k : nat)
  : split_state :=
  SplitState (replicate k q ++ drop k counts0)
    ((position_after q <$> seq 0 k) ++ drop k displs0)
    (position_after q k).

(** The two arrays on return, for [n >= 1] bins. *)
Definition split_result (total n : Z) : list Z * list Z :=
  let q := Z.quot total n in
  let m := Z.to_nat (n - 1) in
  (replicate m q ++ [CInt.sub total (position_after q m)],
   position_after q <$> seq 0 (S m)).

(** The invariant of a partition plan for [total] elements. *)
Definition valid_plan (total : Z) (counts displs : list Z) : Prop :=
  length displs = length counts
  /\ sum_Z counts = total
  /\ (forall i : nat, (i < length counts)%nat ->
        displs !! i = Some (sum_Z (take i counts)))
  /\ Forall (fun c => 0 <= c) counts.

(** An array cut into consecutive pieces of the given lengths. *)
Fixpoint chunks {A : Type} (counts : list Z) (g : list A) : list (list A) :=
  match counts with
  | [] => []
  | c :: counts' =>
      take (Z.to_nat c) g :: chunks counts' (drop (Z.to_nat c) g)
  end.

(** ** The averages as formulas

    Sums run from the left, starting from zero, as the loops do. *)

Section Formulas.
Context {F : Type} `{FloatArith F}.

Definition fsum (l : list F) : F := foldl f_add f_zero l.

Definition mean_formula (values : list F) : F :=
  f_div (fsum values) (f_of_int (Z.of_nat (length values))).

(** One round of the weighted loop, on the pair of running sums. *)
Definition weighted_step (st : F * F) (wx : Z * F) : F * F :=
  (f_add (fst st) (f_mul (f_of_int (fst wx)) (snd wx)),
   f_add (snd st) (f_of_int (fst wx))).

Definition weighted_mean_formula (values : list F) (weights : list Z) : F :=
  f_div (fsum (zip_with (fun w v => f_mul (f_of_int w) v) weights values))
        (fsum (f_of_int <$> weights)).

(** The mean of each piece of [g], divided by the count it was cut with. *)
Definition chunk_means (counts : list Z) (g : list F) : list F :=
  zip_with (fun c chunk => f_div (fsum chunk) (f_of_int c)) counts
    (chunks counts g).

End Formulas.

(** ** A concrete environment, for running the model *)

(** The value of the leading decimal digits of a string. *)
Fixpoint leading_digits (s : string) (acc : Z) : Z :=
  match s with
  | EmptyString => acc
  | String c s' =>
      let d := Z.of_nat (nat_of_ascii c) - 48 in
      if decide (0 <= d <= 9) then leading_digits s' (10 * acc + d) else acc
  end.

(** [isspace] in the C locale: space, and tab to carriage return. *)
Definition is_space (c : ascii) : bool :=
  let n := nat_of_ascii c in
  (n =? 32)%nat || ((9 <=? n)%nat && (n <=? 13)%nat).

Fixpoint skip_spaces (s : string) : string :=
  match s with
  | EmptyString => s
  | String c s' => if is_space c then skip_spaces s' else s
  end.

(** [atoi]: leading white space, an optional sign, then decimal digits; 0
    when there is no digit.  A value outside of [int], which C leaves
    undefined, is wrapped. *)
Definition c_atoi (s : string) : Z :=
  match skip_spaces s with
  | EmptyString => 0
  | String c s' =>
      if (nat_of_ascii c =? 45)%nat then CInt.wrap (- leading_digits s' 0)
      else if (nat_of_ascii c =? 43)%nat then CInt.wrap (leading_digits s' 0)
      else CInt.wrap (leading_digits (String c s') 0)
  end.

(** An environment with memory to spare: every allocation is granted. *)
Definition sample_env (size : Z) : environment Binary32.float32 := {|
  atoi := c_atoi;
  time := fun rank => 1541203200 + rank;
  rand := fun seed k => (seed + 1103515245 * (k + 1)) mod 2147483648;
  RAND_MAX := 2147483647;
  world_size := size;
  malloc_succeeds := fun _ _ => true;
  junk_int := fun i => Z.of_nat i - 7;
  junk_float := fun _ => Binary32.nan
|}.

(** The same with a bound on memory: requests above [limit] bytes fail. *)
Definition tight_env (size limit : Z) : environment Binary32.float32 := {|
  atoi := c_atoi;
  time := fun rank => 1541203200 + rank;
  rand := fun seed k => (seed + 1103515245 * (k + 1)) mod 2147483648;
  RAND_MAX := 2147483647;
  world_size := size;
  malloc_succeeds := fun _ bytes => bytes <=? limit;
  junk_int := fun i => Z.of_nat i - 7;
  junk_float := fun _ => Binary32.nan
|}.

(** Inputs on which binary32 rounding shows. *)
Definition half_then_tiny : list Binary32.float32 :=
  Binary32.of_scaled 1 (-1) :: replicate 1000 (Binary32.of_scaled 1 (-25)).

Definition max_then_zeros : list Binary32.float32 :=
  Binary32.FLT_MAX :: replicate 24 Binary32.zero.

(** * Properties *)

Ltac solve_length :=
  rewrite ?length_app, ?length_fmap, ?length_seq, ?length_replicate,
    ?length_drop, ?length_take;
  lia.

(** ** C [int] arithmetic inside its range *)

Lemma wrap_in_range z : CInt.in_range z -> CInt.wrap z = z.
Proof.
  unfold CInt.in_range, CInt.wrap, CInt.INT_MIN, CInt.INT_MAX. intros Hz.
  rewrite Z.mod_small; lia.
Qed.

Lemma div_nonneg total n :
  0 <= total <= CInt.INT_MAX -> 1 <= n -> CInt.div total n = Some (total / n).
Proof.
  intros Ht Hn. unfold CInt.div.
  destruct (decide (n = 0)) as [->|_]; [lia|].
  destruct (decide (total = CInt.INT_MIN /\ n = -1)) as [[_ ->]|_]; [lia|].
  by rewrite Z.quot_div_nonneg by lia.
Qed.

Lemma quotient_bounds total n :
  0 <= total -> 1 <= n -> 0 <= total / n /\ n * (total / n) <= total.
Proof.
  intros Ht Hn. split; [apply Z.div_pos; lia|].
  apply Z.mul_div_le; lia.
Qed.

(** ** Arrays *)

Lemma store_prefix {A : Type} (pre l0 : list A) (k : nat) (x : A) :
  length pre = k -> (k < length l0)%nat ->
  store (pre ++ drop k l0) (Z.of_nat k) x
  = Some ((pre ++ [x]) ++ drop (S k) l0).
Proof.
  intros Hpre Hk. unfold store.
  rewrite length_app, length_drop, Hpre.
  destruct (decide _) as [_|Hn]; [|lia].
  f_equal. rewrite Nat2Z.id.
  destruct (lookup_lt_is_Some_2 l0 k Hk) as [y Hy].
  rewrite (drop_S l0 y k Hy).
  rewrite insert_app_r_alt by lia.
  rewrite Hpre, Nat.sub_diag. simpl. by rewrite <- app_assoc.
Qed.

Lemma load_nat {A : Type} (l : list A) (i : nat) :
  load l (Z.of_nat i) = l !! i.
Proof.
  unfold load. destruct (decide _) as [_|Hn]; [by rewrite Nat2Z.id|lia].
Qed.

(** ** The partitioner's loop *)

Section Partitioner.
Variables total n : Z.
Hypothesis Hn : 1 <= n <= CInt.INT_MAX.
Variables counts0 displs0 : list Z.
Hypothesis Hcounts0 : length counts0 = Z.to_nat n.
Hypothesis Hdispls0 : length displs0 = Z.to_nat n.

Local Abbreviation q := (Z.quot total n).

Lemma split_state_after_S (k : nat) :
  split_state_after q counts0 displs0 (S k)
  = SplitState ((replicate k q ++ [q]) ++ drop (S k) counts0)
      (((position_after q <$> seq 0 k) ++ [position_after q k])
         ++ drop (S k) displs0)
      (CInt.add (position_after q k) q).
Proof.
  unfold split_state_after.
  by rewrite replicate_S_end, seq_S, fmap_app.
Qed.

Lemma split_div : 2 <= n -> CInt.div total n = Some q.
Proof.
  intros H2. unfold CInt.div.
  destruct (decide (n = 0)) as [->|_]; [lia|].
  destruct (decide (total = CInt.INT_MIN /\ n = -1)) as [[_ ->]|_]; [lia|].
  done.
Qed.

Lemma split_round (k : nat) :
  (S k < Z.to_nat n)%nat ->
  split_body total n (Z.of_nat k) (split_state_after q counts0 displs0 k)
  = Some (split_state_after q counts0 displs0 (S k)).
Proof.
  intros Hk. rewrite split_state_after_S.
  unfold split_body, split_state_after.
  cbn [st_displacements st_num_elements_by_process st_element_position].
  rewrite store_prefix by solve_length.
  rewrite split_div by lia.
  cbn [mbind option_bind].
  rewrite store_prefix by solve_length.
  done.
Qed.

Lemma split_rounds (m k : nat) :
  (k + m < Z.to_nat n)%nat ->
  for_from (Z.of_nat k) m (split_body total n)
    (split_state_after q counts0 displs0 k)
  = Some (split_state_after q counts0 displs0 (k + m)).
Proof.
  revert k. induction m as [|m IH]; intros k Hk.
  - by rewrite Nat.add_0_r.
  - simpl. rewrite split_round by lia. simpl.
    replace (CInt.add (Z.of_nat k) 1) with (Z.of_nat (S k)).
    + rewrite IH by lia. do 2 f_equal. lia.
    + unfold CInt.add. rewrite wrap_in_range; [lia|].
      unfold CInt.in_range, CInt.INT_MIN, CInt.INT_MAX in *. lia.
Qed.

(** The partitioner returns, whatever the output arrays held on entry, and
    nothing of what they held is left in them. *)
Lemma split_returns :
  split_num_between_processes total n counts0 displs0
  = Some (split_result total n).
Proof.
  unfold split_num_between_processes, for_loop.
  assert (Hsub : CInt.sub n 1 = n - 1).
  { unfold CInt.sub. apply wrap_in_range.
    unfold CInt.in_range, CInt.INT_MIN, CInt.INT_MAX in *. lia. }
  rewrite Hsub.
  assert (Hlen : Z.to_nat n = S (Z.to_nat (n - 1))) by lia.
  unfold split_result.
  pose proof (split_rounds (Z.to_nat (n - 1)) 0) as Hloop.
  change (Z.of_nat 0) with 0 in Hloop. rewrite Nat.add_0_l in Hloop.
  change (split_state_after q counts0 displs0 0)
    with (SplitState counts0 displs0 0) in Hloop.
  rewrite Hloop by lia. clear Hloop. unfold split_state_after.
  cbn [mbind option_bind st_displacements st_num_elements_by_process
       st_element_position].
  remember (Z.to_nat (n - 1)) as m eqn:Em.
  assert (Hm : n - 1 = Z.of_nat m) by lia. rewrite Hm.
  rewrite store_prefix by solve_length.
  cbn [mbind option_bind].
  rewrite store_prefix by solve_length.
  cbn [mbind option_bind].
  rewrite !drop_ge by lia. rewrite !app_nil_r.
  by rewrite seq_S, fmap_app.
Qed.

End Partitioner.

(** Without overflow the running position is a product. *)
Lemma position_after_mul q k :
  0 <= q -> Z.of_nat k * q <= CInt.INT_MAX ->
  position_after q k = Z.of_nat k * q.
Proof.
  intros Hq. induction k as [|k IH]; intros Hk; [done|].
  unfold position_after in *. rewrite Nat.iter_succ, IH by nia.
  unfold CInt.add. rewrite wrap_in_range; [lia|].
  unfold CInt.in_range, CInt.INT_MIN, CInt.INT_MAX in *. nia.
Qed.

Lemma positions_mul q k :
  0 <= q -> Z.of_nat k * q <= CInt.INT_MAX ->
  position_after q <$> seq 0 k
  = (fun i : nat => Z.of_nat i * q) <$> seq 0 k.
Proof.
  intros Hq. induction k as [|k IH]; intros Hk; [done|].
  rewrite seq_S, !fmap_app, IH by nia. simpl.
  by rewrite position_after_mul by nia.
Qed.

Lemma split_result_closed_form total n :
  0 <= total <= CInt.INT_MAX -> 1 <= n ->
  split_result total n = (plan_counts total n, plan_displs total n).
Proof.
  intros Ht Hn. unfold split_result, plan_counts, plan_displs.
  destruct (quotient_bounds total n) as [Hq0 Hq]; [lia..|].
  rewrite Z.quot_div_nonneg by lia.
  replace (S (Z.to_nat (n - 1))) with (Z.to_nat n) by lia.
  assert (Hmax : CInt.INT_MAX = 2147483647) by done.
  assert (Hmin : CInt.INT_MIN = -2147483648) by done.
  assert (Hn' : Z.of_nat (Z.to_nat n) = n) by lia.
  assert (Hm' : Z.of_nat (Z.to_nat (n - 1)) = n - 1) by lia.
  rewrite positions_mul by (rewrite ?Hn'; lia).
  rewrite position_after_mul by (rewrite ?Hm'; nia).
  rewrite Hm'.
  unfold CInt.sub. rewrite wrap_in_range; [done|].
  unfold CInt.in_range. nia.
Qed.

Lemma split_closed_form total n counts0 displs0 :
  0 <= total <= CInt.INT_MAX -> 1 <= n <= CInt.INT_MAX ->
  length counts0 = Z.to_nat n -> length displs0 = Z.to_nat n ->
  split_num_between_processes total n counts0 displs0
  = Some (plan_counts total n, plan_displs total n).
Proof.
  intros Ht Hn Hc Hd.
  rewrite split_returns by done. by rewrite split_result_closed_form by lia.
Qed.

(** ** Sums and the closed form *)

Lemma sum_Z_app l k : sum_Z (l ++ k) = sum_Z l + sum_Z k.
Proof. induction l as [|x l IH]; simpl; lia. Qed.

Lemma sum_Z_replicate k q : sum_Z (replicate k q) = Z.of_nat k * q.
Proof. induction k as [|k IH]; [done|]. simpl replicate. simpl sum_Z. lia. Qed.

Lemma sum_Z_nonneg l : Forall (fun c => 0 <= c) l -> 0 <= sum_Z l.
Proof. induction 1; simpl; lia. Qed.

Lemma plan_counts_length total n :
  1 <= n -> length (plan_counts total n) = Z.to_nat n.
Proof. intros Hn. unfold plan_counts. rewrite length_app, length_replicate. simpl. lia. Qed.

Lemma plan_displs_length total n : length (plan_displs total n) = Z.to_nat n.
Proof. unfold plan_displs. by rewrite length_fmap, length_seq. Qed.

Lemma plan_counts_lookup_lt total n (i : nat) :
  (i < Z.to_nat (n - 1))%nat -> plan_counts total n !! i = Some (total / n).
Proof.
  intros Hi. unfold plan_counts.
  rewrite lookup_app_l by (rewrite length_replicate; lia).
  by apply lookup_replicate_2.
Qed.

Lemma plan_counts_lookup_last total n :
  plan_counts total n !! Z.to_nat (n - 1)
  = Some (total - (n - 1) * (total / n)).
Proof.
  unfold plan_counts.
  rewrite lookup_app_r by (rewrite length_replicate; lia).
  by rewrite length_replicate, Nat.sub_diag.
Qed.

Lemma plan_displs_lookup total n (i : nat) :
  (i < Z.to_nat n)%nat ->
  plan_displs total n !! i = Some (Z.of_nat i * (total / n)).
Proof.
  intros Hi. unfold plan_displs.
  by rewrite list_lookup_fmap, lookup_seq_lt by lia.
Qed.

Lemma plan_counts_take total n (i : nat) :
  (i <= Z.to_nat (n - 1))%nat ->
  take i (plan_counts total n) = replicate i (total / n).
Proof.
  intros Hi. unfold plan_counts.
  rewrite take_app_le by (rewrite length_replicate; lia).
  rewrite take_replicate. f_equal. lia.
Qed.

Lemma plan_counts_sum total n : 1 <= n -> sum_Z (plan_counts total n) = total.
Proof.
  intros Hn. unfold plan_counts.
  rewrite sum_Z_app, sum_Z_replicate, Z2Nat.id by lia. simpl. lia.
Qed.

Lemma plan_counts_nonneg total n :
  0 <= total -> 1 <= n -> Forall (fun c => 0 <= c) (plan_counts total n).
Proof.
  intros Ht Hn. destruct (quotient_bounds total n) as [Hq0 Hq]; [lia..|].
  unfold plan_counts. apply Forall_app. split.
  - by apply Forall_replicate.
  - apply Forall_singleton. nia.
Qed.

Lemma plan_valid total n :
  0 <= total -> 1 <= n ->
  valid_plan total (plan_counts total n) (plan_displs total n).
Proof.
  intros Ht Hn. unfold valid_plan.
  rewrite plan_counts_length, plan_displs_length by lia.
  split; [done|]. split; [by apply plan_counts_sum|].
  split; [|by apply plan_counts_nonneg].
  intros i Hi. rewrite plan_displs_lookup by lia.
  rewrite plan_counts_take by lia. by rewrite sum_Z_replicate.
Qed.

(** ** The partition plan *)

(** C1. For every [total_elements >= 0] and [num_workers >= 1] (both C
    [int]s) the partitioner returns a plan whose counts sum exactly to
    [total_elements], whose offset [i] is the sum of the counts before [i],
    for every worker index [i], and whose counts are all [>= 0]. *)
Theorem partition_plan_invariant total n counts0 displs0 :
  0 <= total <= CInt.INT_MAX -> 1 <= n <= CInt.INT_MAX ->
  length counts0 = Z.to_nat n -> length displs0 = Z.to_nat n ->
  exists counts displs,
    split_num_between_processes total n counts0 displs0
    = Some (counts, displs)
    /\ length counts = Z.to_nat n /\ length displs = Z.to_nat n
    /\ sum_Z counts = total
    /\ (forall i, 0 <= i < n ->
          load displs i = Some (sum_Z (take (Z.to_nat i) counts)))
    /\ (forall i c, load counts i = Some c -> 0 <= c).
Proof.
  intros Ht Hn Hc Hd.
  exists (plan_counts total n), (plan_displs total n).
  destruct (plan_valid total n) as (Hlen & Hsum & Hoff & Hpos); [lia..|].
  rewrite split_closed_form by done.
  rewrite plan_counts_length in * by lia.
  split_and!.
  - done.
  - done.
  - apply plan_displs_length.
  - done.
  - intros i Hi. unfold load. destruct (decide _) as [_|?]; [|lia].
    apply Hoff. lia.
  - intros i c. unfold load. destruct (decide _) as [_|?]; [|done].
    intros Hic. by eapply (Forall_lookup_1 _ _ _ _ Hpos Hic).
Qed.

Lemma partition_plan_invariant_witness :
  exists counts displs,
    split_num_between_processes 10 3 [7; 7; 7] [9; 9; 9]
    = Some (counts, displs)
    /\ length counts = Z.to_nat 3 /\ length displs = Z.to_nat 3
    /\ sum_Z counts = 10
    /\ (forall i, 0 <= i < 3 ->
          load displs i = Some (sum_Z (take (Z.to_nat i) counts)))
    /\ (forall i c, load counts i = Some c -> 0 <= c).
Proof.
  apply (partition_plan_invariant 10 3 [7; 7; 7] [9; 9; 9]);
    [unfold CInt.INT_MAX; lia | unfold CInt.INT_MAX; lia
    | reflexivity | reflexivity].
Defined.

(** C4. For every [total_elements >= 0] and [num_workers >= 1] the
    partitioner gives [floor(total_elements / num_workers)] elements to each
    worker but the last, offsets that accumulate these counts in sequence,
    and all the remaining elements to the last worker; for 10 elements and 3
    workers the counts are {3,3,4} and the offsets {0,3,6}. *)
Theorem partition_floor_then_remainder total n counts0 displs0 :
  0 <= total <= CInt.INT_MAX -> 1 <= n <= CInt.INT_MAX ->
  length counts0 = Z.to_nat n -> length displs0 = Z.to_nat n ->
  exists counts displs,
    split_num_between_processes total n counts0 displs0
    = Some (counts, displs)
    /\ (forall i, 0 <= i < n - 1 ->
          load counts i = Some (total / n)
          /\ load displs i = Some (i * (total / n))
          /\ load displs (i + 1) = Some (i * (total / n) + total / n))
    /\ load displs 0 = Some 0
    /\ load displs (n - 1) = Some ((n - 1) * (total / n))
    /\ load counts (n - 1) = Some (total - (n - 1) * (total / n))
    /\ (total = 10 -> n = 3 -> counts = [3; 3; 4] /\ displs = [0; 3; 6]).
Proof.
  intros Ht Hn Hc Hd.
  exists (plan_counts total n), (plan_displs total n).
  rewrite split_closed_form by done.
  assert (Hload : forall i, 0 <= i < n ->
            load (plan_displs total n) i = Some (i * (total / n))).
  { intros i Hi. unfold load. destruct (decide _) as [_|?]; [|lia].
    rewrite plan_displs_lookup by lia. by rewrite Z2Nat.id by lia. }
  split_and!.
  - done.
  - intros i Hi. split_and!.
    + unfold load. destruct (decide _) as [_|?]; [|lia].
      apply plan_counts_lookup_lt. lia.
    + apply Hload. lia.
    + rewrite Hload by lia. f_equal. lia.
  - rewrite Hload by lia. f_equal.
  - apply Hload. lia.
  - unfold load. destruct (decide _) as [_|?]; [|lia].
    apply plan_counts_lookup_last.
  - by intros -> ->.
Qed.

Lemma partition_floor_then_remainder_witness :
  exists counts displs,
    split_num_between_processes 10 3 [0; 0; 0] [0; 0; 0]
    = Some (counts, displs)
    /\ (forall i, 0 <= i < 3 - 1 ->
          load counts i = Some (10 / 3)
          /\ load displs i = Some (i * (10 / 3))
          /\ load displs (i + 1) = Some (i * (10 / 3) + 10 / 3))
    /\ load displs 0 = Some 0
    /\ load displs (3 - 1) = Some ((3 - 1) * (10 / 3))
    /\ load counts (3 - 1) = Some (10 - (3 - 1) * (10 / 3))
    /\ (10 = 10 -> 3 = 3 -> counts = [3; 3; 4] /\ displs = [0; 3; 6]).
Proof.
  apply (partition_floor_then_remainder 10 3 [0; 0; 0] [0; 0; 0]);
    [unfold CInt.INT_MAX; lia | unfold CInt.INT_MAX; lia
    | reflexivity | reflexivity].
Defined.

(** C9. For every [total_elements >= 0] and [num_workers >= 1] the last
    worker's count is [floor(total_elements / num_workers)] plus
    [total_elements mod num_workers]; so the last worker receives at least
    as many elements as any other worker, and at most [num_workers - 1]
    more. *)
Theorem last_worker_share total n counts0 displs0 :
  0 <= total <= CInt.INT_MAX -> 1 <= n <= CInt.INT_MAX ->
  length counts0 = Z.to_nat n -> length displs0 = Z.to_nat n ->
  exists counts displs last,
    split_num_between_processes total n counts0 displs0
    = Some (counts, displs)
    /\ load counts (n - 1) = Some last
    /\ last = total / n + total mod n
    /\ (forall i c, 0 <= i < n -> load counts i = Some c ->
          c <= last <= c + (n - 1)).
Proof.
  intros Ht Hn Hc Hd.
  exists (plan_counts total n), (plan_displs total n),
    (total - (n - 1) * (total / n)).
  rewrite split_closed_form by done.
  assert (Hlast : load (plan_counts total n) (n - 1)
                  = Some (total - (n - 1) * (total / n))).
  { unfold load. destruct (decide _) as [_|?]; [|lia].
    apply plan_counts_lookup_last. }
  pose proof (Z.div_mod total n ltac:(lia)) as Hdm.
  pose proof (Z.mod_pos_bound total n ltac:(lia)) as Hmod.
  split_and!.
  - done.
  - done.
  - lia.
  - intros i c Hi Hic.
    destruct (decide (i = n - 1)) as [->|Hne].
    + rewrite Hlast in Hic. injection Hic as <-. lia.
    + unfold load in Hic. destruct (decide _) as [_|?]; [|lia].
      rewrite plan_counts_lookup_lt in Hic by lia. injection Hic as <-. lia.
Qed.

Lemma last_worker_share_witness :
  exists counts displs last,
    split_num_between_processes 11 4 [0; 0; 0; 0] [0; 0; 0; 0]
    = Some (counts, displs)
    /\ load counts (4 - 1) = Some last
    /\ last = 11 / 4 + 11 mod 4
    /\ (forall i c, 0 <= i < 4 -> load counts i = Some c ->
          c <= last <= c + (4 - 1)).
Proof.
  apply (last_worker_share 11 4 [0; 0; 0; 0] [0; 0; 0; 0]);
    [unfold CInt.INT_MAX; lia | unfold CInt.INT_MAX; lia
    | reflexivity | reflexivity].
Defined.

(** C10. The partitioner is deterministic: two calls with the same
    [total_elements] and [num_workers] leave identical count and
    displacement arrays, whatever the two pairs of output arrays held
    before; with [num_workers >= 1] both calls return.  The ranks of [main]
    each make this call on arrays of [world_size] elements, so they hold
    the same plan when they enter [MPI_Scatterv]. *)
Theorem partitioner_deterministic total n counts1 displs1 counts2 displs2 :
  n <= CInt.INT_MAX ->
  length counts1 = Z.to_nat n -> length displs1 = Z.to_nat n ->
  length counts2 = Z.to_nat n -> length displs2 = Z.to_nat n ->
  split_num_between_processes total n counts1 displs1
  = split_num_between_processes total n counts2 displs2
  /\ (1 <= n ->
      is_Some (split_num_between_processes total n counts1 displs1)).
Proof.
  intros Hn Hc1 Hd1 Hc2 Hd2.
  destruct (decide (1 <= n)) as [H1|H0].
  - rewrite !split_returns by (done || lia). split; [done|]. by eexists.
  - split; [|lia].
    replace (Z.to_nat n) with 0%nat in * by lia.
    apply nil_length_inv in Hc1, Hd1, Hc2, Hd2. by subst.
Qed.

Lemma partitioner_deterministic_witness :
  split_num_between_processes 10 3 [1; 2; 3] [4; 5; 6]
  = split_num_between_processes 10 3 [-7; 0; 99] [8; 8; 8]
  /\ (1 <= 3 ->
      is_Some (split_num_between_processes 10 3 [1; 2; 3] [4; 5; 6])).
Proof.
  apply (partitioner_deterministic 10 3 [1; 2; 3] [4; 5; 6] [-7; 0; 99]
           [8; 8; 8]);
    [unfold CInt.INT_MAX; lia | reflexivity..].
Defined.

(** ** Scattering a valid plan *)

Section Scatter.
Context {A : Type}.
Implicit Types (g : list A) (counts displs : list Z).

Lemma length_chunks counts g : length (chunks counts g) = length counts.
Proof. revert g. induction counts as [|c counts IH]; intros g; simpl; auto. Qed.

Lemma chunks_lookup counts g (i : nat) c :
  Forall (fun c => 0 <= c) counts -> counts !! i = Some c ->
  chunks counts g !! i
  = Some (take (Z.to_nat c) (drop (Z.to_nat (sum_Z (take i counts))) g)).
Proof.
  intros Hpos. revert g i.
  induction Hpos as [|c0 counts Hc0 Hpos IH]; intros g i Hi; [done|].
  destruct i as [|i]; simpl in *.
  - by injection Hi as ->.
  - rewrite (IH _ _ Hi), drop_drop. do 3 f_equal.
    pose proof (sum_Z_nonneg (take i counts) (Forall_take _ i _ Hpos)).
    lia.
Qed.

Lemma concat_chunks counts g :
  Forall (fun c => 0 <= c) counts ->
  concat (chunks counts g) = take (Z.to_nat (sum_Z counts)) g.
Proof.
  intros Hpos. revert g.
  induction Hpos as [|c0 counts Hc0 Hpos IH]; intros g; simpl.
  - by rewrite take_0.
  - rewrite IH, take_take_drop. f_equal.
    pose proof (sum_Z_nonneg counts Hpos). lia.
Qed.

Lemma sum_Z_take_le counts (i : nat) c :
  Forall (fun c => 0 <= c) counts -> counts !! i = Some c ->
  0 <= sum_Z (take i counts)
  /\ sum_Z (take i counts) + c <= sum_Z counts.
Proof.
  intros Hpos Hi.
  pose proof (sum_Z_nonneg _ (Forall_take _ i _ Hpos)) as H0.
  pose proof (sum_Z_nonneg _ (Forall_drop _ (S i) _ Hpos)) as H1.
  rewrite <- (take_drop (S i) counts) at 3.
  rewrite sum_Z_app, (take_S_r _ _ _ Hi), sum_Z_app. simpl. lia.
Qed.

(** Rank [i] receives piece [i] of the array. *)
Lemma scatterv_valid g counts displs (i : nat) :
  valid_plan (Z.of_nat (length g)) counts displs ->
  (i < length counts)%nat ->
  MPI_Scatterv g counts displs (Z.of_nat i) = chunks counts g !! i
  /\ is_Some (chunks counts g !! i).
Proof.
  intros (Hlen & Hsum & Hoff & Hpos) Hi.
  destruct (lookup_lt_is_Some_2 counts i Hi) as [c Hc].
  rewrite (chunks_lookup _ _ _ _ Hpos Hc). split; [|by eexists].
  unfold MPI_Scatterv. rewrite !load_nat, Hc, (Hoff i Hi). simpl.
  destruct (sum_Z_take_le _ _ _ Hpos Hc) as [H0 H1].
  pose proof (Forall_lookup_1 _ _ _ _ Hpos Hc) as Hc0. simpl in Hc0.
  destruct (decide _) as [_|Hn]; [done|]. lia.
Qed.

Lemma local_slices_valid g counts displs :
  valid_plan (Z.of_nat (length g)) counts displs ->
  local_slices g counts displs (Z.of_nat (length counts))
  = Some (chunks counts g).
Proof.
  intros Hvalid. unfold local_slices. apply mapM_Some_2.
  apply Forall2_same_length_lookup_2.
  - by rewrite length_seqZ, length_chunks, Nat2Z.id.
  - intros i r slice Hr Hslice. apply lookup_seqZ in Hr as [-> Hi].
    rewrite Z.add_0_l.
    destruct (scatterv_valid g counts displs i Hvalid) as [-> _]; [lia|].
    done.
Qed.

Lemma concat_chunks_valid g counts displs :
  valid_plan (Z.of_nat (length g)) counts displs ->
  concat (chunks counts g) = g.
Proof.
  intros (Hlen & Hsum & Hoff & Hpos).
  rewrite concat_chunks, Hsum by done. apply take_ge. lia.
Qed.

End Scatter.

(** C2. For every global array and the plan the partitioner makes for it,
    the local slices of the workers (for worker [i], the [count[i]]
    elements from [offset[i]] on), put end to end in rank order, are the
    global array again, element for element. *)
Theorem scatter_round_trip {A : Type} (g : list A) total n counts0 displs0 :
  0 <= total <= CInt.INT_MAX -> 1 <= n <= CInt.INT_MAX ->
  length counts0 = Z.to_nat n -> length displs0 = Z.to_nat n ->
  Z.of_nat (length g) = total ->
  exists counts displs slices,
    split_num_between_processes total n counts0 displs0
    = Some (counts, displs)
    /\ local_slices g counts displs n = Some slices
    /\ length slices = Z.to_nat n
    /\ concat slices = g.
Proof.
  intros Ht Hn Hc Hd Hg.
  exists (plan_counts total n), (plan_displs total n),
    (chunks (plan_counts total n) g).
  pose proof (plan_valid total n ltac:(lia) ltac:(lia)) as Hvalid.
  rewrite <- Hg in Hvalid at 1.
  split_and!.
  - by apply split_closed_form.
  - rewrite <- (local_slices_valid g _ _ Hvalid).
    rewrite plan_counts_length by lia. f_equal. lia.
  - rewrite length_chunks. apply plan_counts_length. lia.
  - by eapply concat_chunks_valid.
Qed.

Lemma scatter_round_trip_witness :
  exists counts displs slices,
    split_num_between_processes 5 2 [0; 0] [0; 0] = Some (counts, displs)
    /\ local_slices ["a"; "b"; "c"; "d"; "e"]%string counts displs 2
       = Some slices
    /\ length slices = Z.to_nat 2
    /\ concat slices = ["a"; "b"; "c"; "d"; "e"]%string.
Proof.
  apply (scatter_round_trip ["a"; "b"; "c"; "d"; "e"]%string 5 2 [0; 0]
           [0; 0]);
    [unfold CInt.INT_MAX; lia | unfold CInt.INT_MAX; lia | reflexivity..].
Defined.

(** ** Counted loops over an array *)

(** A loop whose round [i] reads element [i] of [l] and folds it into the
    state is a left fold over the elements it visits. *)
Lemma for_from_foldl {St A : Type} (l : list A) (body : Z -> St -> option St)
    (step : St -> A -> St) :
  (forall (i : nat) x s, l !! i = Some x ->
     body (Z.of_nat i) s = Some (step s x)) ->
  forall (m k : nat) s,
    (k + m <= length l)%nat -> Z.of_nat (k + m) <= CInt.INT_MAX ->
    for_from (Z.of_nat k) m body s
    = Some (foldl step s (take m (drop k l))).
Proof.
  intros Hbody. induction m as [|m IH]; intros k s Hlen Hmax; [done|].
  destruct (lookup_lt_is_Some_2 l k ltac:(lia)) as [x Hx].
  simpl. rewrite (Hbody _ _ _ Hx). simpl.
  replace (CInt.add (Z.of_nat k) 1) with (Z.of_nat (S k)).
  - rewrite IH by lia. by rewrite (drop_S _ _ _ Hx).
  - unfold CInt.add. rewrite wrap_in_range; [lia|].
    unfold CInt.in_range, CInt.INT_MIN, CInt.INT_MAX in *. lia.
Qed.

Lemma for_loop_foldl {St A : Type} (l : list A) (body : Z -> St -> option St)
    (step : St -> A -> St) (bound : Z) (s : St) :
  (forall (i : nat) x s, l !! i = Some x ->
     body (Z.of_nat i) s = Some (step s x)) ->
  (Z.to_nat bound <= length l)%nat -> bound <= CInt.INT_MAX ->
  for_loop bound body s = Some (foldl step s (take (Z.to_nat bound) l)).
Proof.
  intros Hbody Hlen Hmax. unfold for_loop.
  change 0 with (Z.of_nat 0).
  rewrite (for_from_foldl l body step Hbody)
    by (unfold CInt.INT_MAX in *; simpl; lia).
  by rewrite drop_0.
Qed.

(** ** The averaging loops are the formulas *)

Section AverageLoops.
Context {F : Type} `{FloatArith F}.

Lemma compute_avg_formula (array : list F) (num_elements : Z) :
  (Z.to_nat num_elements <= length array)%nat ->
  num_elements <= CInt.INT_MAX ->
  compute_avg array num_elements
  = Some (f_div (fsum (take (Z.to_nat num_elements) array))
            (f_of_int num_elements)).
Proof.
  intros Hlen Hmax. unfold compute_avg.
  rewrite (for_loop_foldl array _ f_add); [done| |done..].
  intros i x s Hx. by rewrite load_nat, Hx.
Qed.

Lemma foldl_weighted_step (weights : list Z) (values : list F)
    (st : F * F) :
  length weights = length values ->
  foldl weighted_step st (zip weights values)
  = (foldl f_add (fst st)
       (zip_with (fun w v => f_mul (f_of_int w) v) weights values),
     foldl f_add (snd st) (f_of_int <$> weights)).
Proof.
  revert values st.
  induction weights as [|w weights IH]; intros [|v values] st Hlen;
    try done.
  - by destruct st.
  - simpl in *. by rewrite IH by lia.
Qed.

Lemma compute_weighted_avg_formula (array : list F) (weights_array : list Z)
    (num_elements : Z) :
  (Z.to_nat num_elements <= length array)%nat ->
  (Z.to_nat num_elements <= length weights_array)%nat ->
  num_elements <= CInt.INT_MAX ->
  compute_weighted_avg array weights_array num_elements
  = Some (weighted_mean_formula (take (Z.to_nat num_elements) array)
            (take (Z.to_nat num_elements) weights_array)).
Proof.
  intros Ha Hw Hmax. unfold compute_weighted_avg.
  rewrite (for_loop_foldl (zip weights_array array) _ weighted_step).
  - rewrite zip_with_take.
    rewrite foldl_weighted_step by (rewrite !length_take; lia). done.
  - intros i [w x] [s sw] Hwx.
    apply lookup_zip_with_Some in Hwx as (w' & x' & [= <- <-] & Hw' & Hx').
    unfold weighted_body. by rewrite !load_nat, Hw', Hx'.
  - rewrite length_zip_with. lia.
  - done.
Qed.

End AverageLoops.

(** C5. For every values array, every weights array and every length
    [num_elements] (within the two arrays), [compute_weighted_avg] returns
    the sum over [i] of [weight[i] * value[i]], divided by the sum over [i]
    of [weight[i]]: both sums taken over the first [num_elements] entries,
    from the left, in the arithmetic of the values.  This holds in binary32
    and in exact arithmetic alike. *)
Theorem weighted_average_is_formula {F : Type} `{FloatArith F}
    (array : list F) (weights_array : list Z) (num_elements : Z) :
  (Z.to_nat num_elements <= length array)%nat ->
  (Z.to_nat num_elements <= length weights_array)%nat ->
  num_elements <= CInt.INT_MAX ->
  compute_weighted_avg array weights_array num_elements
  = Some (f_div
            (fsum (zip_with (fun w v => f_mul (f_of_int w) v)
                     (take (Z.to_nat num_elements) weights_array)
                     (take (Z.to_nat num_elements) array)))
            (fsum (f_of_int <$> take (Z.to_nat num_elements) weights_array))).
Proof. apply compute_weighted_avg_formula. Qed.

Lemma weighted_average_is_formula_witness :
  compute_weighted_avg (F := Binary32.float32)
    [Binary32.of_scaled 3 (-1); Binary32.of_int 4; Binary32.of_int 9]
    [2; 6; 5] 2
  = Some (f_div
            (fsum (zip_with (fun w v => f_mul (f_of_int w) v)
                     (take (Z.to_nat 2) [2; 6; 5])
                     (take (Z.to_nat 2)
                        [Binary32.of_scaled 3 (-1); Binary32.of_int 4;
                         Binary32.of_int 9])))
            (fsum (f_of_int <$> take (Z.to_nat 2) [2; 6; 5]))).
Proof.
  apply (weighted_average_is_formula (F := Binary32.float32)
           [Binary32.of_scaled 3 (-1); Binary32.of_int 4; Binary32.of_int 9]
           [2; 6; 5] 2);
    [simpl; lia | simpl; lia | unfold CInt.INT_MAX; lia].
Defined.

(** ** The command line *)

(** C8. Whenever the argument count is not that of exactly one positional
    argument ([argc <> 2]), the program writes the usage message to
    standard error and exits with status 1, and does nothing else that can
    be observed: these two events are its whole trace. *)
Theorem usage_error_exit {F : Type} `{FloatArith F} (env : environment F)
    (argc : Z) (argv : list string) (world_rank : Z) :
  argc <> 2 ->
  main env argc argv world_rank
  = Ended [Fprintf_stderr ("Usage: avg total_num_elements" ++ newline);
           Exit 1].
Proof.
  intros Hargc. unfold main. by destruct (decide (argc <> 2)).
Qed.

Lemma usage_error_exit_witness :
  main (sample_env 4) 3 ["avg"; "8"; "9"]%string 2
  = Ended [Fprintf_stderr ("Usage: avg total_num_elements" ++ newline);
           Exit 1].
Proof.
  apply (usage_error_exit (sample_env 4) 3 ["avg"; "8"; "9"]%string 2). lia.
Defined.

(** ** The partial averages of a valid plan *)

Section PartialAverages.
Context {F : Type} `{FloatArith F}.
Implicit Types (g : list F) (counts displs : list Z).

Lemma chunk_length g counts displs (i : nat) c chunk :
  valid_plan (Z.of_nat (length g)) counts displs ->
  counts !! i = Some c -> chunks counts g !! i = Some chunk ->
  length chunk = Z.to_nat c.
Proof.
  intros (Hlen & Hsum & Hoff & Hpos) Hc Hchunk.
  rewrite (chunks_lookup _ _ _ _ Hpos Hc) in Hchunk.
  injection Hchunk as <-.
  destruct (sum_Z_take_le _ _ _ Hpos Hc) as [H0 H1].
  rewrite length_take, length_drop. lia.
Qed.

Lemma sub_avg_valid g counts displs (i : nat) c chunk :
  valid_plan (Z.of_nat (length g)) counts displs ->
  Z.of_nat (length g) <= CInt.INT_MAX ->
  counts !! i = Some c -> chunks counts g !! i = Some chunk ->
  sub_avg_of_rank g counts displs (Z.of_nat i)
  = Some (f_div (fsum chunk) (f_of_int c)).
Proof.
  intros Hvalid Hmax Hc Hchunk.
  pose proof (chunk_length _ _ _ _ _ _ Hvalid Hc Hchunk) as Hlen.
  destruct Hvalid as (Hl & Hsum & Hoff & Hpos).
  destruct (sum_Z_take_le _ _ _ Hpos Hc) as [H0 H1].
  unfold sub_avg_of_rank.
  destruct (scatterv_valid g counts displs i) as [-> _];
    [done | by eapply lookup_lt_Some |].
  rewrite Hchunk, load_nat, Hc. simpl.
  rewrite compute_avg_formula by lia.
  by rewrite take_ge by lia.
Qed.

Lemma partial_averages_valid g counts displs :
  valid_plan (Z.of_nat (length g)) counts displs ->
  Z.of_nat (length g) <= CInt.INT_MAX ->
  partial_averages g counts displs (Z.of_nat (length counts))
  = Some (chunk_means counts g).
Proof.
  intros Hvalid Hmax. unfold partial_averages, MPI_Gather, chunk_means.
  apply mapM_Some_2. apply Forall2_same_length_lookup_2.
  - rewrite length_seqZ, length_zip_with, length_chunks. lia.
  - intros i r mean Hr Hmean. apply lookup_seqZ in Hr as [-> Hi].
    apply lookup_zip_with_Some in Hmean as (c & chunk & -> & Hc & Hchunk).
    rewrite Z.add_0_l. by eapply sub_avg_valid.
Qed.

Lemma global_average_valid g counts displs :
  valid_plan (Z.of_nat (length g)) counts displs ->
  Z.of_nat (length g) <= CInt.INT_MAX ->
  Z.of_nat (length counts) <= CInt.INT_MAX ->
  global_average g counts displs (Z.of_nat (length counts))
  = Some (weighted_mean_formula (chunk_means counts g) counts).
Proof.
  intros Hvalid Hmax Hn. unfold global_average.
  rewrite partial_averages_valid by done. simpl.
  assert (length (chunk_means counts g) = length counts) as Hlen.
  { unfold chunk_means. rewrite length_zip_with, length_chunks. lia. }
  rewrite compute_weighted_avg_formula by lia.
  by rewrite !take_ge by lia.
Qed.

End PartialAverages.

(** ** Exact arithmetic *)

Lemma foldl_add_exact (a : Qc) (l : list Qc) :
  foldl Qcplus a l = (a + foldl Qcplus 0 l)%Qc.
Proof.
  revert a. induction l as [|x l IH]; intros a; simpl.
  - ring.
  - rewrite (IH (a + x)%Qc), (IH (0 + x)%Qc). ring.
Qed.

Lemma fsum_cons_exact (x : Qc) (l : list Qc) :
  fsum (x :: l) = (x + fsum l)%Qc.
Proof.
  unfold fsum. simpl. rewrite foldl_add_exact.
  replace (0 + x)%Qc with x by ring. done.
Qed.

Lemma fsum_app_exact (l k : list Qc) : fsum (l ++ k) = (fsum l + fsum k)%Qc.
Proof.
  unfold fsum. simpl. by rewrite foldl_app, foldl_add_exact.
Qed.

Lemma exact_weights_sum (counts : list Z) :
  fsum (F := Qc) (f_of_int <$> counts) = Qc_of_Z (sum_Z counts).
Proof.
  induction counts as [|c counts IH].
  - symmetry. apply Z2Qc_inj_0.
  - rewrite fmap_cons, fsum_cons_exact, IH. simpl.
    by rewrite Z2Qc_inj_add.
Qed.

Lemma exact_weighted_sum (counts : list Z) (g : list Qc) :
  Forall (fun c => 0 <= c) counts -> Forall (fun c => c <> 0) counts ->
  fsum (zip_with (fun w v => f_mul (f_of_int w) v) counts
          (chunk_means counts g))
  = fsum (take (Z.to_nat (sum_Z counts)) g).
Proof.
  intros Hpos. revert g.
  induction Hpos as [|c counts Hc Hpos IH]; intros g Hnz.
  - by rewrite take_0.
  - inversion_clear Hnz as [|? ? Hc0 Hnz'].
    unfold chunk_means in *. simpl.
    rewrite fsum_cons_exact, IH by done.
    pose proof (sum_Z_nonneg counts Hpos) as Hs.
    replace (Z.to_nat (c + sum_Z counts))
      with (Z.to_nat c + Z.to_nat (sum_Z counts))%nat by lia.
    rewrite <- take_take_drop, fsum_app_exact. f_equal.
    assert (Qc_of_Z c <> 0%Qc) as Hq.
    { rewrite <- Z2Qc_inj_0. by intros ?%Z2Qc_inj. }
    field. done.
Qed.

(** Over the rationals the two averages of [main] agree, for every valid
    plan without an empty share. *)
Lemma exact_global_average (g : list Qc) (counts displs : list Z) :
  valid_plan (Z.of_nat (length g)) counts displs ->
  Forall (fun c => c <> 0) counts ->
  Z.of_nat (length g) <= CInt.INT_MAX ->
  Z.of_nat (length counts) <= CInt.INT_MAX ->
  global_average g counts displs (Z.of_nat (length counts))
  = compute_avg g (Z.of_nat (length g))
  /\ compute_avg g (Z.of_nat (length g)) = Some (mean_formula g).
Proof.
  intros Hvalid Hnz Hmax Hn.
  rewrite global_average_valid by done.
  rewrite compute_avg_formula by lia.
  destruct Hvalid as (Hl & Hsum & Hoff & Hpos).
  unfold weighted_mean_formula, mean_formula.
  rewrite exact_weighted_sum, exact_weights_sum, Hsum by done.
  by rewrite !Nat2Z.id, take_ge by lia.
Qed.

(** ** The weighted average against the direct average *)

(** In binary32 the two printed averages can differ by more than 1e-5
    relative, on values in [0,1) and with no empty share: 1001 elements,
    0.5 followed by a thousand 2^-25, on 2 workers.  The direct sum stays at
    0.5, each added 2^-25 being rounded away; the second worker's sum keeps
    its 501 of them. *)
Lemma rounding_breaks_tolerance :
  exists counts displs w d,
    split_num_between_processes 1001 2 [0; 0] [0; 0] = Some (counts, displs)
    /\ Forall (fun c => c <> 0) counts
    /\ global_average half_then_tiny counts displs 2 = Some w
    /\ compute_avg half_then_tiny 1001 = Some d
    /\ Binary32.rel_close (1 # 100000) w d = false.
Proof.
  exists [500; 501], [0; 500].
  exists (S754_finite false 8581609 (-34)), (S754_finite false 8581353 (-34)).
  split_and!.
  - reflexivity.
  - repeat constructor; lia.
  - vm_compute. reflexivity.
  - vm_compute. reflexivity.
  - vm_compute. reflexivity.
Qed.

(** C3, as the code has it.  With the rounding of binary32 removed, that is,
    with the same loops run over the rationals: for every input array and
    every valid partition plan for it in which no worker has a zero count,
    the weighted average of the per-worker means, weighted by the counts,
    is exactly the direct mean of the whole array. *)
Theorem exact_weighted_average_is_mean (g : list Qc)
    (counts displs : list Z) :
  valid_plan (Z.of_nat (length g)) counts displs ->
  Forall (fun c => c <> 0) counts ->
  (1 <= length counts)%nat ->
  Z.of_nat (length g) <= CInt.INT_MAX ->
  Z.of_nat (length counts) <= CInt.INT_MAX ->
  exists mean,
    compute_avg g (Z.of_nat (length g)) = Some mean
    /\ mean = mean_formula g
    /\ global_average g counts displs (Z.of_nat (length counts)) = Some mean.
Proof.
  intros Hvalid Hnz Hn Hmax Hnmax.
  destruct (exact_global_average g counts displs) as [Heq Hmean]; [done..|].
  exists (mean_formula g). by rewrite Heq, Hmean.
Qed.

Lemma exact_weighted_average_is_mean_witness :
  exists mean,
    compute_avg [Qc_of_Z 1; Qc_of_Z 2; Qc_of_Z 4; Qc_of_Z 8; Qc_of_Z 16]
      (Z.of_nat 5)
    = Some mean
    /\ mean
       = mean_formula
           [Qc_of_Z 1; Qc_of_Z 2; Qc_of_Z 4; Qc_of_Z 8; Qc_of_Z 16]
    /\ global_average
         [Qc_of_Z 1; Qc_of_Z 2; Qc_of_Z 4; Qc_of_Z 8; Qc_of_Z 16]
         [2; 3] [0; 2] (Z.of_nat 2)
       = Some mean.
Proof.
  apply (exact_weighted_average_is_mean
           [Qc_of_Z 1; Qc_of_Z 2; Qc_of_Z 4; Qc_of_Z 8; Qc_of_Z 16]
           [2; 3] [0; 2]).
  - split_and!; [reflexivity | reflexivity | | repeat constructor; lia].
    intros [|[|i]] Hi; [reflexivity | reflexivity | simpl in Hi; lia].
  - repeat constructor; lia.
  - simpl; lia.
  - unfold CInt.INT_MAX; simpl; lia.
  - unfold CInt.INT_MAX; simpl; lia.
Defined.

(** ** Rounding in binary32

    What [binary_round_aux], and with it the addition, the multiplication,
    the division and the conversion of an [int], compute, stated on the
    reals. *)

Section Pow2.
Local Open Scope R_scope.

Lemma pow2_pos e : 0 < pow2 e.
Proof. apply powerRZ_lt. lra. Qed.

Lemma pow2_add a b : pow2 (a + b) = pow2 a * pow2 b.
Proof. apply powerRZ_add. lra. Qed.

Lemma pow2_0 : pow2 0 = 1.
Proof. reflexivity. Qed.

Lemma pow2_cancel a : pow2 a * pow2 (- a) = 1.
Proof. rewrite <- pow2_add, Z.add_opp_diag_r. reflexivity. Qed.

Lemma pow2_1 : pow2 1 = 2.
Proof. unfold pow2. simpl. lra. Qed.

Lemma pow2_m1 : pow2 (-1) = / 2.
Proof. unfold pow2. simpl. rewrite Rmult_1_r. reflexivity. Qed.

Lemma pow2_succ a : pow2 (a + 1) = 2 * pow2 a.
Proof. rewrite pow2_add, pow2_1. lra. Qed.

Lemma pow2_IZR k : (0 <= k)%Z -> pow2 k = IZR (2 ^ k).
Proof.
  intros Hk. unfold pow2. rewrite <- (Z2Nat.id k) at 1 by done.
  rewrite <- pow_powerRZ. rewrite <- (Z2Nat.id k) at 2 by done.
  by rewrite pow_IZR.
Qed.

Lemma pow2_le a b : (a <= b)%Z -> pow2 a <= pow2 b.
Proof.
  intros Hab. replace b with (a + (b - a))%Z by lia.
  rewrite pow2_add, (pow2_IZR (b - a)) by lia.
  assert (1 <= IZR (2 ^ (b - a))).
  { apply IZR_le. pose proof (Z.pow_pos_nonneg 2 (b - a)). lia. }
  pose proof (pow2_pos a). nra.
Qed.

Lemma pow2_lt a b : (a < b)%Z -> pow2 a < pow2 b.
Proof.
  intros Hab. pose proof (pow2_le (a + 1) b ltac:(lia)) as Hle.
  rewrite pow2_succ in Hle. pose proof (pow2_pos a). lra.
Qed.

Lemma pow2_lt_inv a b : pow2 a < pow2 b -> (a < b)%Z.
Proof.
  intros Hlt. destruct (decide (a < b)%Z) as [|Hge]; [done|].
  pose proof (pow2_le b a ltac:(lia)). lra.
Qed.

End Pow2.

(** The operations of [SpecFloat] are written with the integers of the
    core library; these are those of [ZArith]. *)
Ltac std_Z :=
  change IntDef.Z.add with Z.add in *;
  change IntDef.Z.sub with Z.sub in *;
  change IntDef.Z.mul with Z.mul in *;
  change IntDef.Z.min with Z.min in *;
  change IntDef.Z.max with Z.max in *;
  change IntDef.Z.eqb with Z.eqb in *;
  change IntDef.Z.leb with Z.leb in *;
  change IntDef.Z.even with Z.even in *;
  change IntDef.Z.compare with Z.compare in *;
  change IntDef.Z.shiftl with Z.shiftl in *;
  change IntDef.Z.div_eucl with Z.div_eucl in *.

(** ** Shifting a mantissa to the right *)

Section Shift.
Local Open Scope R_scope.

Lemma IZR_xO p : IZR (Z.pos p~0) = 2 * IZR (Z.pos p).
Proof. by rewrite Pos2Z.inj_xO, mult_IZR. Qed.

Lemma IZR_xI p : IZR (Z.pos p~1) = 2 * IZR (Z.pos p) + 1.
Proof. by rewrite Pos2Z.inj_xI, plus_IZR, mult_IZR. Qed.

Lemma loc_of_shr_record_of_loc m l :
  loc_of_shr_record (shr_record_of_loc m l) = l
  /\ shr_m (shr_record_of_loc m l) = m.
Proof. by destruct l as [|[]]. Qed.

Lemma shr_1_located mrs z :
  (0 <= shr_m mrs)%Z ->
  located (shr_m mrs) (loc_of_shr_record mrs) z ->
  (0 <= shr_m (shr_1 mrs))%Z
  /\ located (shr_m (shr_1 mrs)) (loc_of_shr_record (shr_1 mrs)) (z * / 2).
Proof.
  destruct mrs as [m r s]. cbn [shr_m]. intros Hm Hz.
  destruct m as [|p|p]; [| |lia].
  - destruct r, s; cbn [shr_1 shr_m loc_of_shr_record located orb] in *;
      (split; [lia|lra]).
  - destruct p as [p|p|]; destruct r, s;
      cbn [shr_1 shr_m loc_of_shr_record located orb] in *;
      rewrite ?(IZR_xO p), ?(IZR_xI p) in Hz; (split; [lia|lra]).
Qed.

Lemma iter_shr_1_located p : forall mrs z,
  (0 <= shr_m mrs)%Z ->
  located (shr_m mrs) (loc_of_shr_record mrs) z ->
  (0 <= shr_m (SpecFloat.iter_pos shr_1 p mrs))%Z
  /\ located (shr_m (SpecFloat.iter_pos shr_1 p mrs))
       (loc_of_shr_record (SpecFloat.iter_pos shr_1 p mrs)) (z * pow2 (- Z.pos p)).
Proof.
  induction p as [p IH|p IH|]; intros mrs z Hm Hz;
    cbn [SpecFloat.iter_pos].
  - destruct (shr_1_located mrs z Hm Hz) as [Hm1 Hz1].
    destruct (IH _ _ Hm1 Hz1) as [Hm2 Hz2].
    destruct (IH _ _ Hm2 Hz2) as [Hm3 Hz3].
    split; [done|].
    replace (- Z.pos p~1)%Z with (-1 + (- Z.pos p + - Z.pos p))%Z by lia.
    rewrite !pow2_add, pow2_m1.
    by rewrite <- !Rmult_assoc.
  - destruct (IH _ _ Hm Hz) as [Hm2 Hz2].
    destruct (IH _ _ Hm2 Hz2) as [Hm3 Hz3].
    split; [done|].
    replace (- Z.pos p~0)%Z with (- Z.pos p + - Z.pos p)%Z by lia.
    rewrite !pow2_add. by rewrite <- !Rmult_assoc.
  - replace (pow2 (Z.opp (Z.pos 1))) with (/ 2)
      by (symmetry; exact pow2_m1).
    by apply shr_1_located.
Qed.

Lemma shr_located mrs e n z :
  (0 <= shr_m mrs)%Z -> (0 <= n)%Z ->
  located (shr_m mrs) (loc_of_shr_record mrs) z ->
  snd (shr mrs e n) = (e + n)%Z
  /\ (0 <= shr_m (fst (shr mrs e n)))%Z
  /\ located (shr_m (fst (shr mrs e n)))
       (loc_of_shr_record (fst (shr mrs e n))) (z * pow2 (- n)).
Proof.
  intros Hm Hn Hz. destruct n as [|p|p]; [| |lia]; cbn [shr fst snd].
  - change (- 0)%Z with 0%Z. rewrite Z.add_0_r, pow2_0, Rmult_1_r. done.
  - split; [done|]. by apply iter_shr_1_located.
Qed.

End Shift.

(** ** The number of digits of a mantissa *)

Lemma digits2_pos_bounds p :
  2 ^ (Z.pos (digits2_pos p) - 1) <= Z.pos p < 2 ^ Z.pos (digits2_pos p).
Proof.
  induction p as [p IH|p IH|]; simpl digits2_pos.
  - rewrite Pos2Z.inj_succ, Z.pow_succ_r by lia.
    replace (Z.succ (Z.pos (digits2_pos p)) - 1)
      with (Z.succ (Z.pos (digits2_pos p) - 1)) by lia.
    rewrite Z.pow_succ_r by lia. lia.
  - rewrite Pos2Z.inj_succ, Z.pow_succ_r by lia.
    replace (Z.succ (Z.pos (digits2_pos p)) - 1)
      with (Z.succ (Z.pos (digits2_pos p) - 1)) by lia.
    rewrite Z.pow_succ_r by lia. lia.
  - simpl. lia.
Qed.

Lemma Zdigits2_bounds m :
  0 < m -> 2 ^ (Zdigits2 m - 1) <= m < 2 ^ Zdigits2 m.
Proof.
  intros Hm. destruct m as [|p|p]; [lia| |lia]. apply digits2_pos_bounds.
Qed.

Lemma Zdigits2_pos m : 0 < m -> 0 < Zdigits2 m.
Proof. intros Hm. destruct m; simpl; lia. Qed.

(** A mantissa below [2^k] has at most [k] digits. *)
Lemma Zdigits2_le m k : 0 < m -> 0 <= k -> m < 2 ^ k -> Zdigits2 m <= k.
Proof.
  intros Hm Hk Hlt. pose proof (Zdigits2_bounds m Hm) as [Hlo _].
  pose proof (Zdigits2_pos m Hm).
  destruct (decide (Zdigits2 m <= k)) as [|Hgt]; [done|].
  pose proof (Z.pow_le_mono_r 2 k (Zdigits2 m - 1) ltac:(lia) ltac:(lia)).
  lia.
Qed.

Lemma compare_cont_spec p q :
  CompareSpec (p = q) (p < q)%positive (q < p)%positive
    (PosDef.Pos.compare_cont Eq p q).
Proof. exact (Pos.compare_spec p q). Qed.

Lemma fexp_eq k : fexp k = Z.max (k - 24) (-149).
Proof. reflexivity. Qed.

Lemma emin_eq : emin = -149.
Proof. reflexivity. Qed.

(** ** The rounding relation *)

Section Rounds.
Local Open Scope R_scope.

Lemma canonic_unique c1 c2 y : canonic c1 y -> canonic c2 y -> c1 = c2.
Proof.
  intros (H1 & Hlt1 & Hge1) (H2 & Hlt2 & Hge2).
  destruct (Z.lt_trichotomy c1 c2) as [Hlt|[->|Hgt]]; [|done|].
  - destruct Hge2 as [->|Hge2]; [lia|].
    assert (pow2 (c2 + 23) < pow2 (c1 + 24)) as Hp by lra.
    apply pow2_lt_inv in Hp. lia.
  - destruct Hge1 as [->|Hge1]; [lia|].
    assert (pow2 (c1 + 23) < pow2 (c2 + 24)) as Hp by lra.
    apply pow2_lt_inv in Hp. lia.
Qed.

Lemma even_succ_false n : Z.even n = true -> Z.even (n + 1) = true -> False.
Proof. intros He. rewrite Z.even_add, He. discriminate. Qed.

Lemma nearest_even_unique z n1 n2 :
  nearest_even z n1 -> nearest_even z n2 -> n1 = n2.
Proof.
  intros [[Hlo1 Hhi1] He1] [[Hlo2 Hhi2] He2].
  assert (IZR n1 <= IZR (n2 + 1)) as H12 by (rewrite plus_IZR; lra).
  assert (IZR n2 <= IZR (n1 + 1)) as H21 by (rewrite plus_IZR; lra).
  apply le_IZR in H12, H21.
  destruct (decide (n1 = n2)) as [|Hne]; [done|].
  assert (n2 = n1 + 1 \/ n1 = n2 + 1)%Z as [->| ->] by lia.
  - rewrite plus_IZR in *.
    destruct (even_succ_false n1); [apply He1|apply He2]; right + left; lra.
  - rewrite plus_IZR in *.
    destruct (even_succ_false n2); [apply He2|apply He1]; right + left; lra.
Qed.

Lemma nearest_even_IZR n : nearest_even (IZR n) n.
Proof. split; [lra|]. intros [?|?]; lra. Qed.

Lemma located_bounds m l z : located m l z -> IZR m <= z < IZR m + 1.
Proof. destruct l as [|[]]; simpl; lra. Qed.

Lemma round_nearest_even_spec m l z :
  located m l z -> nearest_even z (round_nearest_even m l).
Proof.
  destruct l as [|[]]; simpl; intros Hz.
  - subst z. apply nearest_even_IZR.
  - destruct (Z.even m) eqn:Em.
    + split; [lra|]. done.
    + rewrite Hz. split; [rewrite plus_IZR; lra|]. intros _.
      rewrite Z.even_add, Em. done.
  - split; [lra|]. intros [?|?]; lra.
  - split; [rewrite plus_IZR; lra|]. rewrite plus_IZR. intros [?|?]; lra.
Qed.

Lemma scaled_lt z k e : z < pow2 k -> z * pow2 e < pow2 (k + e).
Proof. intros Hz. rewrite pow2_add. pose proof (pow2_pos e). nra. Qed.

Lemma scaled_le z k e : pow2 k <= z -> pow2 (k + e) <= z * pow2 e.
Proof. intros Hz. rewrite pow2_add. pose proof (pow2_pos e). nra. Qed.

Lemma unscale y e : y * pow2 (- e) * pow2 e = y.
Proof.
  rewrite Rmult_assoc, (Rmult_comm (pow2 (- e))), pow2_cancel. lra.
Qed.

Lemma shr_nonpos mrs e k : (k <= 0)%Z -> shr mrs e k = (mrs, e).
Proof. intros Hk. destruct k; [done|lia|done]. Qed.

Lemma nearest_even_range z n :
  nearest_even z n -> 0 <= z < pow2 24 -> (0 <= n <= 2 ^ 24)%Z.
Proof.
  intros [[Hlo Hhi] _] [Hz0 Hz1].
  rewrite (pow2_IZR 24) in Hz1 by lia.
  split.
  - assert (IZR (-1) < IZR n) as Hn by lra. apply lt_IZR in Hn. lia.
  - assert (IZR n < IZR (2 ^ 24 + 1)) as Hn by (rewrite plus_IZR; lra).
    apply lt_IZR in Hn. lia.
Qed.

(** What [binary_round_aux] computes: the rounding of the real it is
    given by a mantissa, an exponent and a location. *)
Lemma binary_round_aux_rounds sx m e l y :
  (0 <= m)%Z -> located m l (y * pow2 (- e)) ->
  (e <= fexp (Zdigits2 m + e))%Z -> (0 < m \/ e <= emin)%Z ->
  exists n c,
    rounds y n c /\ (0 <= n <= 2 ^ 24)%Z
    /\ binary_round_aux Binary32.prec Binary32.emax sx m e l
       = encode sx n c.
Proof.
  intros Hm Hloc Hprec Hnz.
  remember (fexp (Zdigits2 m + e)) as c eqn:Ec.
  destruct (loc_of_shr_record_of_loc m l) as [Hl Hsm].
  pose proof (shr_located (shr_record_of_loc m l) e (c - e)
                (y * pow2 (- e))) as Hshr.
  rewrite Hl, Hsm in Hshr. specialize (Hshr Hm ltac:(lia) Hloc).
  unfold binary_round_aux, shr_fexp.
  change (SpecFloat.fexp Binary32.prec Binary32.emax) with fexp.
  rewrite <- Ec.
  destruct (shr (shr_record_of_loc m l) e (c - e)) as [mrs' e'] eqn:Eshr.
  cbn [fst snd] in Hshr. destruct Hshr as (-> & Hm' & Hloc').
  replace (e + (c - e))%Z with c by lia.
  rewrite Rmult_assoc, <- pow2_add in Hloc'.
  replace (- e + - (c - e))%Z with (- c)%Z in Hloc' by lia.
  remember (round_nearest_even (shr_m mrs') (loc_of_shr_record mrs'))
    as n eqn:En.
  pose proof (round_nearest_even_spec _ _ _ Hloc') as Hn.
  rewrite <- En in Hn.
  pose proof (located_bounds _ _ _ Hloc) as [Hlo Hhi].
  pose proof (unscale y e) as Hy.
  assert (Hc : (emin <= c)%Z) by (rewrite Ec, fexp_eq, emin_eq; lia).
  assert (Hcan : canonic c y).
  { split; [done|]. destruct (decide (m = 0%Z)) as [->|Hm0].
    - assert (e <= emin)%Z as He by lia.
      assert (c = emin) as Hce.
      { rewrite Ec, fexp_eq, emin_eq in *. simpl Zdigits2. lia. }
      split; [|by left].
      apply Rlt_le_trans with (pow2 e).
      + rewrite <- Hy. pose proof (pow2_pos e). nra.
      + apply pow2_le. lia.
    - pose proof (Zdigits2_bounds m ltac:(lia)) as [Hd1 Hd2].
      pose proof (Zdigits2_pos m ltac:(lia)) as Hd0.
      split.
      + apply Rlt_le_trans with (pow2 (Zdigits2 m + e)).
        * rewrite <- Hy. apply scaled_lt.
          rewrite (pow2_IZR (Zdigits2 m)) by lia.
          apply Rlt_le_trans with (IZR m + 1); [lra|].
          rewrite <- plus_IZR. apply IZR_le. lia.
        * apply pow2_le. rewrite Ec, fexp_eq. lia.
      + destruct (decide (c = emin)) as [|Hne]; [by left|]. right.
        assert (c + 23 = Zdigits2 m - 1 + e)%Z as ->.
        { rewrite Ec, fexp_eq, emin_eq in *. lia. }
        rewrite <- Hy. apply scaled_le.
        rewrite (pow2_IZR (Zdigits2 m - 1)) by lia.
        apply Rle_trans with (IZR m); [|lra]. by apply IZR_le. }
  assert (Hrange : (0 <= n <= 2 ^ 24)%Z).
  { apply (nearest_even_range _ _ Hn).
    pose proof (located_bounds _ _ _ Hloc') as [Hlo' _].
    split; [apply Rle_trans with (IZR (shr_m mrs')); [by apply IZR_le|lra]|].
    destruct Hcan as (_ & Hlt & _).
    replace 24%Z with (c + 24 + - c)%Z by lia. by apply scaled_lt. }
  exists n, c. split; [done|]. split; [done|].
  unfold encode. destruct (decide (n = 2 ^ 24)%Z) as [->|Hne].
  - change (Zdigits2 (2 ^ 24)) with 25%Z.
    replace (fexp (25 + c) - c)%Z with 1%Z by (rewrite fexp_eq, emin_eq in *; lia).
    reflexivity.
  - rewrite shr_nonpos.
    + reflexivity.
    + destruct (decide (n = 0%Z)) as [->|Hn0].
      * simpl Zdigits2. rewrite fexp_eq, emin_eq in *. lia.
      * pose proof (Zdigits2_le n 24%Z ltac:(lia) ltac:(lia) ltac:(lia)).
        rewrite fexp_eq, emin_eq in *. lia.
Qed.

End Rounds.

(** ** The operations round the exact result *)

Section Operations.
Local Open Scope R_scope.

Lemma pos_iter_xO m d : Z.pos (Pos.iter xO m d) = (Z.pos m * 2 ^ Z.pos d)%Z.
Proof.
  induction d as [|d IH] using Pos.peano_ind.
  - simpl. lia.
  - rewrite Pos.iter_succ, Pos2Z.inj_xO, IH, Pos2Z.inj_succ.
    rewrite Z.pow_succ_r by lia. lia.
Qed.

Lemma digits_iter_xO m d :
  Z.pos (digits2_pos (Pos.iter xO m d))
  = (Z.pos (digits2_pos m) + Z.pos d)%Z.
Proof.
  induction d as [|d IH] using Pos.peano_ind.
  - simpl. lia.
  - rewrite Pos.iter_succ. cbn [digits2_pos].
    rewrite Pos2Z.inj_succ, IH, Pos2Z.inj_succ. lia.
Qed.

Lemma shl_align_spec mx ex ex' :
  F2R (Z.pos (fst (shl_align mx ex ex'))) (snd (shl_align mx ex ex'))
  = F2R (Z.pos mx) ex
  /\ snd (shl_align mx ex ex') = Z.min ex ex'
  /\ (Z.pos (digits2_pos (fst (shl_align mx ex ex')))
      + snd (shl_align mx ex ex')
      = Z.pos (digits2_pos mx) + ex)%Z.
Proof.
  unfold shl_align. destruct (ex' - ex)%Z as [|d|d] eqn:Ed; cbn [fst snd].
  - split; [done|]. split; lia.
  - split; [done|]. split; lia.
  - split; [|split; [lia|]].
    + unfold F2R. rewrite pos_iter_xO, mult_IZR.
      rewrite <- (pow2_IZR (Z.pos d)) by lia.
      rewrite Rmult_assoc, <- pow2_add. do 2 f_equal. lia.
    + rewrite digits_iter_xO. lia.
Qed.

Lemma located_exact m e : located m loc_Exact (F2R m e * pow2 (- e)).
Proof.
  simpl. unfold F2R. rewrite Rmult_assoc, pow2_cancel. lra.
Qed.

Lemma binary_round_rounds sx mx ex :
  exists n c,
    rounds (F2R (Z.pos mx) ex) n c /\ (0 <= n <= 2 ^ 24)%Z
    /\ binary_round Binary32.prec Binary32.emax sx mx ex = encode sx n c.
Proof.
  unfold binary_round.
  change (SpecFloat.fexp Binary32.prec Binary32.emax) with fexp.
  pose proof (shl_align_spec mx ex (fexp (Z.pos (digits2_pos mx) + ex)))
    as (Hv & He & Hd).
  destruct (shl_align mx ex (fexp (Z.pos (digits2_pos mx) + ex)))
    as [mz ez]. cbn [fst snd] in *.
  rewrite <- Hv. apply binary_round_aux_rounds.
  - lia.
  - apply located_exact.
  - cbn [Zdigits2]. rewrite Hd. lia.
  - left. lia.
Qed.

(** Addition of two positive values. *)
Lemma add_rounds mx ex my ey :
  exists n c,
    rounds (F2R (Z.pos mx) ex + F2R (Z.pos my) ey) n c
    /\ (0 <= n <= 2 ^ 24)%Z
    /\ Binary32.add (S754_finite false mx ex) (S754_finite false my ey)
       = encode false n c.
Proof.
  unfold Binary32.add, SFadd. cbn [cond_Zopp].
  pose proof (shl_align_spec mx ex (Z.min ex ey)) as (Hvx & Hex & _).
  pose proof (shl_align_spec my ey (Z.min ex ey)) as (Hvy & Hey & _).
  destruct (shl_align mx ex (Z.min ex ey)) as [mx' ex'].
  destruct (shl_align my ey (Z.min ex ey)) as [my' ey'].
  cbn [fst snd] in *.
  assert (ex' = Z.min ex ey) as -> by lia.
  assert (ey' = Z.min ex ey) as -> by lia.
  rewrite <- Hvx, <- Hvy.
  change (Z.pos mx' + Z.pos my')%Z with (Z.pos (mx' + my')).
  cbn [binary_normalize].
  replace (F2R (Z.pos mx') (Z.min ex ey) + F2R (Z.pos my') (Z.min ex ey))
    with (F2R (Z.pos (mx' + my')) (Z.min ex ey)).
  - apply binary_round_rounds.
  - unfold F2R. rewrite Pos2Z.inj_add, plus_IZR. lra.
Qed.

(** Multiplication, the first mantissa having its 24 digits. *)
Lemma mul_rounds sx mx ex sy my ey :
  (2 ^ 23 <= Z.pos mx)%Z ->
  exists n c,
    rounds (F2R (Z.pos mx) ex * F2R (Z.pos my) ey) n c
    /\ (0 <= n <= 2 ^ 24)%Z
    /\ Binary32.mul (S754_finite sx mx ex) (S754_finite sy my ey)
       = encode (xorb sx sy) n c.
Proof.
  intros Hmx. unfold Binary32.mul, SFmul.
  replace (F2R (Z.pos mx) ex * F2R (Z.pos my) ey)
    with (F2R (Z.pos (mx * my)) (ex + ey)).
  - apply binary_round_aux_rounds.
    + lia.
    + apply located_exact.
    + pose proof (Zdigits2_bounds (Z.pos (mx * my)) ltac:(lia)) as [_ Hd].
      pose proof (Zdigits2_pos (Z.pos (mx * my)) ltac:(lia)) as Hd0.
      assert (2 ^ 23 < 2 ^ Zdigits2 (Z.pos (mx * my)))%Z as Hp by nia.
      apply Z.pow_lt_mono_r_iff in Hp; [|lia|lia].
      rewrite fexp_eq. lia.
    + left. lia.
  - unfold F2R. rewrite Pos2Z.inj_mul, mult_IZR, pow2_add. lra.
Qed.

Lemma new_location_located my r q :
  (0 <= r < my)%Z ->
  located q (new_location my r) (IZR q + IZR r / IZR my).
Proof.
  intros Hr.
  assert (0 < IZR my) as Hmy by (apply IZR_lt; lia).
  assert (IZR r / IZR my * IZR my = IZR r) as Ht by (field; lra).
  remember (IZR r / IZR my) as t eqn:Et. clear Et.
  assert (forall a b : Z, (a < b)%Z -> IZR a < IZR b) as Hlt
    by (intros; by apply IZR_lt).
  unfold new_location, new_location_even, new_location_odd. std_Z.
  destruct (decide (r = 0%Z)) as [->|Hr0].
  - assert (t = 0) as -> by nra.
    destruct (Z.even my); simpl; lra.
  - assert (0 < IZR r) as Hrp by (apply IZR_lt; lia).
    assert (IZR r < IZR my) by (apply IZR_lt; lia).
    destruct (Z.even my) eqn:Emy; cbv beta;
      rewrite (proj2 (Z.eqb_neq r 0) Hr0).
    + destruct (Z.compare_spec (2 * r) my) as [Hc|Hc|Hc]; simpl.
      * rewrite <- Hc, mult_IZR in Ht.
        assert (t = / 2) as ->
          by (apply (Rmult_eq_reg_r (IZR r)); lra).
        lra.
      * apply Hlt in Hc. rewrite mult_IZR in Hc. nra.
      * apply Hlt in Hc. rewrite mult_IZR in Hc. nra.
    + assert (2 * r <> my)%Z as Hodd.
      { intros <-. rewrite Z.even_mul in Emy. done. }
      destruct (Z.compare_spec (2 * r + 1) my) as [Hc|Hc|Hc]; simpl.
      * assert (2 * r < my)%Z as Hc' by lia.
        apply Hlt in Hc'. rewrite mult_IZR in Hc'. nra.
      * assert (2 * r < my)%Z as Hc' by lia.
        apply Hlt in Hc'. rewrite mult_IZR in Hc'. nra.
      * assert (my < 2 * r)%Z as Hc' by lia.
        apply Hlt in Hc'. rewrite mult_IZR in Hc'. nra.
Qed.

Lemma pow2_opp a : pow2 (- a) = / pow2 a.
Proof.
  pose proof (pow2_cancel a). pose proof (pow2_pos a).
  apply (Rmult_eq_reg_l (pow2 a)); [|lra]. rewrite Rinv_r by lra. done.
Qed.

(** Division of two finite values that are not zero. *)
Lemma div_rounds sx mx ex sy my ey :
  exists n c,
    rounds (F2R (Z.pos mx) ex / F2R (Z.pos my) ey) n c
    /\ (0 <= n <= 2 ^ 24)%Z
    /\ Binary32.div (S754_finite sx mx ex) (S754_finite sy my ey)
       = encode (xorb sx sy) n c.
Proof.
  unfold Binary32.div, SFdiv, SFdiv_core_binary. std_Z.
  change (SpecFloat.fexp Binary32.prec Binary32.emax) with fexp.
  remember (Zdigits2 (Z.pos mx)) as dx eqn:Edx.
  remember (Zdigits2 (Z.pos my)) as dy eqn:Edy.
  remember (Z.min (fexp (dx + ex - (dy + ey))) (ex - ey)) as e' eqn:Ee'.
  remember (ex - ey - e')%Z as s eqn:Es.
  assert (Hs : (0 <= s)%Z) by lia.
  assert (Hm' : match s with
                | 0%Z => Z.pos mx
                | Z.pos _ => Z.shiftl (Z.pos mx) s
                | Z.neg _ => 0%Z
                end = (Z.pos mx * 2 ^ s)%Z).
  { destruct s as [|p|p]; [lia| |lia]. by rewrite Z.shiftl_mul_pow2. }
  rewrite Hm'. clear Hm'.
  pose proof (Z_div_mod (Z.pos mx * 2 ^ s) (Z.pos my) ltac:(lia)) as Hdiv.
  destruct (Z.div_eucl (Z.pos mx * 2 ^ s) (Z.pos my)) as [q r].
  destruct Hdiv as [Hqr Hr].
  pose proof (Zdigits2_bounds (Z.pos mx) ltac:(lia)) as [Hx1 Hx2].
  pose proof (Zdigits2_bounds (Z.pos my) ltac:(lia)) as [Hy1 Hy2].
  pose proof (Zdigits2_pos (Z.pos mx) ltac:(lia)) as Hx0.
  pose proof (Zdigits2_pos (Z.pos my) ltac:(lia)) as Hy0.
  rewrite <- Edx in *. rewrite <- Edy in *.
  assert (Hq : (0 <= q)%Z) by nia.
  assert (H2s : (0 < 2 ^ s)%Z) by (apply Z.pow_pos_nonneg; lia).
  assert (Hlow : (2 ^ (dx - 1 + s) <= Z.pos mx * 2 ^ s)%Z).
  { rewrite Z.pow_add_r by lia. nia. }
  apply binary_round_aux_rounds.
  - done.
  - replace (F2R (Z.pos mx) ex / F2R (Z.pos my) ey * pow2 (- e'))
      with (IZR q + IZR r / IZR (Z.pos my)).
    + by apply new_location_located.
    + assert (IZR (Z.pos mx) * IZR (2 ^ s)
              = IZR (Z.pos my) * IZR q + IZR r) as Hreal.
      { rewrite <- !mult_IZR, <- plus_IZR. by f_equal. }
      assert (0 < IZR (Z.pos my)) as Hmy by (apply IZR_lt; lia).
      unfold F2R. replace ex with (s + (ey + e'))%Z by lia.
      rewrite !pow2_add, pow2_opp, (pow2_IZR s) by done.
      pose proof (pow2_pos ey). pose proof (pow2_pos e').
      apply (Rmult_eq_reg_l (IZR (Z.pos my))); [|lra].
      transitivity (IZR (Z.pos mx) * IZR (2 ^ s)); [rewrite Hreal|];
        field; lra.
  - destruct (decide (q = 0%Z)) as [->|Hq0].
    + cbn [Zdigits2].
      assert (2 ^ (dx - 1 + s) < 2 ^ dy)%Z as Hp by lia.
      apply Z.pow_lt_mono_r_iff in Hp; [|lia|lia].
      rewrite !fexp_eq in *. lia.
    + pose proof (Zdigits2_bounds q ltac:(lia)) as [_ Hq2].
      pose proof (Zdigits2_pos q ltac:(lia)) as Hq1.
      assert (2 ^ (dx - 1 + s) < 2 ^ (dy + Zdigits2 q))%Z as Hp.
      { rewrite (Z.pow_add_r 2 dy) by lia. nia. }
      apply Z.pow_lt_mono_r_iff in Hp; [|lia|lia].
      rewrite !fexp_eq in *. lia.
  - destruct (decide (q = 0%Z)) as [->|Hq0]; [right|left; lia].
    assert (2 ^ (dx - 1 + s) < 2 ^ dy)%Z as Hp by lia.
    apply Z.pow_lt_mono_r_iff in Hp; [|lia|lia].
    rewrite !fexp_eq, ?emin_eq in *. lia.
Qed.

End Operations.

(** ** The rounded value is a nearest one *)

Section NearestValue.
Local Open Scope R_scope.

Lemma within_scale d y1 y2 P :
  0 < P -> within d y1 y2 -> within (d * P) (y1 * P) (y2 * P).
Proof.
  intros HP [Hup Hdown]. split; intros Hle.
  - assert (d <= y1) as H by (apply (Rmult_le_reg_r P); lra).
    destruct (Hup H). nra.
  - assert (y1 <= d) as H by (apply (Rmult_le_reg_r P); lra).
    destruct (Hdown H). nra.
Qed.

Lemma F2R_scaled n c : F2R n c * pow2 (- c) = IZR n.
Proof. unfold F2R. rewrite Rmult_assoc, pow2_cancel. lra. Qed.

Lemma nearest_even_within z n k :
  nearest_even z n -> within z (IZR k) (IZR n).
Proof.
  intros [[Hlo Hhi] _]. split; intros Hle.
  - assert (IZR n < IZR (k + 1)) as Hn by (rewrite plus_IZR; lra).
    apply lt_IZR in Hn.
    destruct (decide (n = k)) as [->|Hne]; [lra|].
    assert (IZR (n + 1) <= IZR k) as Hk by (apply IZR_le; lia).
    rewrite plus_IZR in Hk. lra.
  - assert (IZR (k - 1) < IZR n) as Hn by (rewrite minus_IZR; lra).
    apply lt_IZR in Hn.
    destruct (decide (n = k)) as [->|Hne]; [lra|].
    assert (IZR (k + 1) <= IZR n) as Hk by (apply IZR_le; lia).
    rewrite plus_IZR in Hk. lra.
Qed.

Lemma rounds_within_multiple y n c k :
  rounds y n c -> within y (F2R k c) (F2R n c).
Proof.
  intros [_ Hn]. pose proof (nearest_even_within _ _ k Hn) as Hw.
  apply (within_scale _ _ _ (pow2 c) (pow2_pos c)) in Hw.
  by rewrite unscale in Hw.
Qed.

(** No value that binary32 holds is nearer to [y] than the one [y]
    rounds to. *)
Lemma rounds_within y n c f :
  rounds y n c -> representable f -> within y f (F2R n c).
Proof.
  intros Hr (m & e & -> & Hm & He).
  destruct (decide (c <= e)%Z) as [Hce|Hce].
  - replace (F2R m e) with (F2R (m * 2 ^ (e - c)) c).
    + by apply rounds_within_multiple.
    + unfold F2R. rewrite mult_IZR, <- (pow2_IZR (e - c)) by lia.
      rewrite Rmult_assoc, <- pow2_add. do 2 f_equal. lia.
  - pose proof (rounds_within_multiple y n c (2 ^ 23) Hr) as [Hup Hdown].
    destruct Hr as [(Hc & _ & [->|Hge]) _]; [lia|].
    assert (F2R (2 ^ 23) c = pow2 (c + 23)) as Hg.
    { unfold F2R. rewrite <- (pow2_IZR 23), <- pow2_add by lia.
      f_equal. lia. }
    rewrite Hg in *.
    assert (F2R m e <= pow2 (c + 23)) as Hf.
    { apply Rle_trans with (F2R (2 ^ 24) e).
      - unfold F2R. apply Rmult_le_compat_r; [left; apply pow2_pos|].
        apply IZR_le. lia.
      - unfold F2R. rewrite <- (pow2_IZR 24), <- pow2_add by lia.
        apply pow2_le. lia. }
    destruct (Hdown Hge) as [H1 H2].
    split; intros Hle; split; lra.
Qed.

Lemma rounds_exact y n c : rounds y n c -> representable y -> F2R n c = y.
Proof.
  intros Hr Hy. destruct (rounds_within y n c y Hr Hy) as [Hup _].
  destruct Hup; lra.
Qed.

Lemma rounds_range y n c : 0 <= y -> rounds y n c -> (0 <= n <= 2 ^ 24)%Z.
Proof.
  intros Hy [(_ & Hlt & _) Hn]. apply (nearest_even_range _ _ Hn).
  split.
  - pose proof (pow2_pos (- c)). nra.
  - replace 24%Z with (c + 24 + - c)%Z by lia. by apply scaled_lt.
Qed.

End NearestValue.

(** ** Multiplying back and dividing again *)

Section RoundTrip.
Local Open Scope R_scope.

Lemma pow2_scaled k c : pow2 (c + k) * pow2 (- c) = pow2 k.
Proof. rewrite <- pow2_add. f_equal. lia. Qed.

(** The quotient [s / a] rounds to [d]; the product [a * d] rounds to
    [p]; then [p / a] rounds to [d] again.  [a] has its 24 digits and is
    at least 1, and [s] is a value that binary32 holds. *)
Lemma round_trip ma ea s n1 c1 np cp n2 c2 :
  (2 ^ 23 <= ma < 2 ^ 24)%Z -> (-23 <= ea)%Z ->
  0 <= s -> representable s ->
  rounds (s / F2R ma ea) n1 c1 ->
  rounds (F2R ma ea * F2R n1 c1) np cp ->
  rounds (F2R np cp / F2R ma ea) n2 c2 ->
  (n2 = n1 /\ c2 = c1) \/ (n1 = 2 ^ 24 /\ n2 = 2 ^ 23 /\ c2 = c1 + 1)%Z.
Proof.
  intros Hma Hea Hs Hrep H1 Hp H2.
  remember (F2R ma ea) as a eqn:Ea.
  assert (Ha : 0 < a).
  { rewrite Ea. unfold F2R. apply Rmult_lt_0_compat; [|apply pow2_pos].
    apply IZR_lt. lia. }
  assert (Hy1 : 0 <= s / a).
  { unfold Rdiv. apply Rmult_le_pos; [done|]. left. by apply Rinv_0_lt_compat. }
  pose proof (rounds_range _ _ _ Hy1 H1) as Hn1.
  remember (F2R n1 c1) as d eqn:Ed.
  remember (F2R np cp) as p eqn:Ep.
  (* a power of two times [a] is a value binary32 holds *)
  assert (Hpow : forall k, (emin + 23 <= k)%Z ->
            d = pow2 k -> p / a = d).
  { intros k Hk Hd. rewrite Ep.
    rewrite (rounds_exact _ _ _ Hp); [field; lra|].
    exists ma, (ea + k)%Z. split; [|rewrite emin_eq in *; lia].
    rewrite Hd, Ea. unfold F2R. rewrite pow2_add. lra. }
  (* [p / a] is within [s / a] of [d] *)
  assert (Hw : within d (s / a) (p / a)).
  { pose proof (rounds_within _ _ _ s Hp Hrep) as Hw.
    rewrite <- Ep in Hw.
    apply (within_scale _ _ _ (/ a)) in Hw; [|by apply Rinv_0_lt_compat].
    replace (a * d * / a) with d in Hw by (field; lra). done. }
  pose proof (within_scale _ _ _ (pow2 (- c1)) (pow2_pos _) Hw) as Hz.
  rewrite Ed, F2R_scaled in Hz.
  pose proof (proj1 H2) as Hcan2.
  destruct H1 as [Hc1 Hne1]. destruct H2 as [Hc2 Hne2].
  destruct Hne1 as [[Hlo1 Hhi1] Heven1].
  destruct Hz as [Hup Hdown].
  destruct (Z.lt_trichotomy c2 c1) as [Hlt|[->|Hgt]].
  - (* the second quotient would lie in a lower binade *)
    exfalso.
    destruct Hc1 as (Hm1 & _ & [->|Hge1]); [destruct Hc2; lia|].
    destruct Hc2 as (_ & Hlt2 & _).
    assert (p / a < pow2 (c1 + 23)) as Hsmall.
    { apply Rlt_le_trans with (pow2 (c2 + 24)); [done|]. apply pow2_le. lia. }
    apply (scaled_lt _ _ (- c1)) in Hsmall.
    apply (scaled_le _ _ (- c1)) in Hge1.
    replace (c1 + 23 + - c1)%Z with 23%Z in * by lia.
    rewrite (pow2_IZR 23) in * by lia.
    assert (IZR (2 ^ 23 - 1) < IZR n1) as Hn by (rewrite minus_IZR; lra).
    apply lt_IZR in Hn.
    destruct (decide (n1 = 2 ^ 23)%Z) as [E|E].
    + assert (d = pow2 (c1 + 23)) as Hd.
      { rewrite Ed, E. unfold F2R.
        rewrite <- (pow2_IZR 23), <- pow2_add by lia. f_equal. lia. }
      rewrite (Hpow (c1 + 23)%Z ltac:(lia) Hd), Hd, pow2_scaled in Hsmall.
      rewrite (pow2_IZR 23) in Hsmall by lia. lra.
    + assert (IZR (2 ^ 23 + 1) <= IZR n1) as Hn' by (apply IZR_le; lia).
      rewrite plus_IZR in Hn'.
      destruct (Rle_or_lt (IZR n1) (s / a * pow2 (- c1))) as [Hc|Hc].
      * destruct (Hup Hc). lra.
      * destruct (Hdown ltac:(lra)). lra.
  - (* the same binade: the same nearest integer *)
    left. split; [|done]. symmetry.
    apply (nearest_even_unique (p / a * pow2 (- c1))); [|done].
    destruct (Rle_or_lt (IZR n1) (s / a * pow2 (- c1))) as [Hc|Hc].
    + destruct (Hup Hc). split; [lra|].
      intros [Ht|Ht]; apply Heven1; [right|right]; lra.
    + destruct (Hdown ltac:(lra)). split; [lra|].
      intros [Ht|Ht]; apply Heven1; [left|left]; lra.
  - (* a higher binade: [d] is the power of two between them *)
    right.
    destruct Hc2 as (Hm2 & Hlt2 & [->|Hge2]); [destruct Hc1; lia|].
    destruct Hc1 as (Hm1 & Hlt1 & _).
    assert (pow2 (c1 + 24) <= p / a) as Hbig.
    { apply Rle_trans with (pow2 (c2 + 23)); [|done]. apply pow2_le. lia. }
    pose proof Hbig as Hbig'.
    apply (scaled_le _ _ (- c1)) in Hbig'.
    apply (scaled_lt _ _ (- c1)) in Hlt1.
    replace (c1 + 24 + - c1)%Z with 24%Z in * by lia.
    rewrite (pow2_IZR 24) in * by lia.
    destruct (decide (n1 = 2 ^ 24)%Z) as [E|E].
    + assert (d = pow2 (c1 + 24)) as Hd.
      { rewrite Ed, E. unfold F2R.
        rewrite <- (pow2_IZR 24), <- pow2_add by lia. f_equal. lia. }
      pose proof (Hpow (c1 + 24)%Z ltac:(lia) Hd) as Hpa.
      assert (c2 = c1 + 1)%Z as ->.
      { apply (canonic_unique _ _ (p / a)); [exact Hcan2|].
        rewrite Hpa, Hd. split; [lia|]. split.
        - apply pow2_lt. lia.
        - right. apply pow2_le. lia. }
      split; [done|]. split; [|done].
      apply (nearest_even_unique (p / a * pow2 (- (c1 + 1)))); [done|].
      rewrite Hpa, Hd.
      replace (c1 + 24)%Z with (c1 + 1 + 23)%Z by lia.
      rewrite pow2_scaled, (pow2_IZR 23) by lia.
      apply nearest_even_IZR.
    + exfalso.
      assert (IZR n1 <= IZR (2 ^ 24 - 1)) as Hn' by (apply IZR_le; lia).
      rewrite minus_IZR in Hn'.
      destruct (Rle_or_lt (IZR n1) (s / a * pow2 (- c1))) as [Hc|Hc].
      * destruct (Hup Hc). lra.
      * destruct (Hdown ltac:(lra)). lra.
Qed.

Lemma encode_round_trip sx n1 c1 n2 c2 :
  (n2 = n1 /\ c2 = c1) \/ (n1 = 2 ^ 24 /\ n2 = 2 ^ 23 /\ c2 = c1 + 1)%Z ->
  encode sx n2 c2 = encode sx n1 c1.
Proof. intros [[-> ->]|(-> & -> & ->)]; reflexivity. Qed.

End RoundTrip.

(** ** The floats that come out of a rounding *)

Section Encode.
Local Open Scope R_scope.

Lemma F2R_carry c : F2R (2 ^ 23) (c + 1) = F2R (2 ^ 24) c.
Proof.
  unfold F2R. rewrite pow2_succ.
  change (2 ^ 24)%Z with (2 * 2 ^ 23)%Z. rewrite mult_IZR. lra.
Qed.

Lemma encode_cases sx n c :
  (0 <= n <= 2 ^ 24)%Z ->
  (n = 0%Z /\ encode sx n c = S754_zero sx)
  \/ ((0 < n)%Z /\ (104 < c + 1)%Z /\ encode sx n c = S754_infinity sx)
  \/ ((0 < n)%Z
      /\ exists m e,
           encode sx n c = S754_finite sx m e
           /\ F2R (Z.pos m) e = F2R n c
           /\ (Z.pos m < 2 ^ 24)%Z /\ (c <= e <= c + 1)%Z /\ (e <= 104)%Z
           /\ (2 ^ 23 <= n -> 2 ^ 23 <= Z.pos m)%Z).
Proof.
  intros Hn. unfold encode.
  destruct (decide (n = 2 ^ 24)%Z) as [->|Hne].
  - right. change (Binary32.emax - Binary32.prec)%Z with 104%Z.
    change (2 ^ 23)%Z with (Z.pos 8388608).
    destruct (Z.leb_spec (c + 1) 104) as [Hle|Hgt].
    + right. split; [done|]. exists 8388608%positive, (c + 1)%Z.
      split; [done|]. split; [apply F2R_carry|]. lia.
    + left. split; [done|]. split; [lia|done].
  - destruct n as [|p|p]; [by left| |lia]. right.
    change (Binary32.emax - Binary32.prec)%Z with 104%Z.
    destruct (Z.leb_spec c 104) as [Hle|Hgt].
    + right. split; [done|]. exists p, c. split; [done|]. split; [done|]. lia.
    + left. split; [done|]. split; [lia|done].
Qed.

Lemma canonic_upper c y k :
  canonic c y -> y < pow2 k -> (emin + 24 <= k)%Z -> (c <= k - 24)%Z.
Proof.
  intros (Hc & _ & [->|Hge]) Hy Hk; [lia|].
  assert (pow2 (c + 23) < pow2 k) as Hp by lra.
  apply pow2_lt_inv in Hp. lia.
Qed.

Lemma canonic_lower c y k :
  canonic c y -> pow2 k <= y -> (k - 23 <= c)%Z.
Proof.
  intros (Hc & Hlt & _) Hy.
  assert (pow2 k < pow2 (c + 24)) as Hp by lra.
  apply pow2_lt_inv in Hp. lia.
Qed.

Lemma representable_pow2 k : (emin + 24 <= k)%Z -> representable (pow2 k).
Proof.
  intros Hk. exists (2 ^ 24)%Z, (k - 24)%Z. split; [|lia].
  unfold F2R. rewrite <- (pow2_IZR 24), <- pow2_add by lia. f_equal. lia.
Qed.

(** A sum that is at most [2^25 + 1] rounds to at most [2^25]. *)
Lemma rounds_sum_bound y n c :
  rounds y n c -> 0 <= y <= pow2 25 + 1 -> F2R n c <= pow2 25 /\ (c <= 2)%Z.
Proof.
  intros Hr [Hy0 Hy].
  assert (pow2 25 + 1 < pow2 26) as H26.
  { rewrite (pow2_IZR 25), (pow2_IZR 26) by lia.
    change (2 ^ 25)%Z with 33554432%Z. change (2 ^ 26)%Z with 67108864%Z.
    lra. }
  pose proof (canonic_upper c y 26 (proj1 Hr) ltac:(lra)
                ltac:(rewrite emin_eq; lia)) as Hc.
  split; [|lia].
  destruct (Rle_or_lt y (pow2 25)) as [Hle|Hgt].
  - destruct (rounds_within y n c (pow2 25) Hr) as [Hup _].
    { apply representable_pow2. rewrite emin_eq. lia. }
    by destruct (Hup Hle).
  - pose proof (canonic_lower c y 25 (proj1 Hr) ltac:(lra)) as Hc'.
    assert (c = 2%Z) as -> by lia.
    destruct Hr as [_ [[Hlo _] _]].
    assert (pow2 (- (2)) = / 4) as H4.
    { unfold pow2. simpl. lra. }
    rewrite H4 in Hlo.
    rewrite (pow2_IZR 25) in * by lia.
    change (2 ^ 25)%Z with 33554432%Z in *.
    assert (IZR n < IZR (8388608 + 1)) as Hn by (rewrite plus_IZR; lra).
    apply lt_IZR in Hn.
    assert (IZR n <= IZR 8388608) as Hn' by (apply IZR_le; lia).
    unfold F2R. replace (pow2 2) with 4 by (unfold pow2; simpl; lra).
    lra.
Qed.

End Encode.

(** ** The element count as a float *)

Section Count.
Local Open Scope R_scope.

Lemma representable_IZR k : (0 <= k <= 2 ^ 24)%Z -> representable (IZR k).
Proof.
  intros Hk. exists k, 0%Z. split; [|split; [done|rewrite emin_eq; lia]].
  unfold F2R. rewrite pow2_0. lra.
Qed.

(** [(float) total] for a count of at least one: a normal value between 1
    and [2^31]. *)
Lemma of_int_count total :
  (1 <= total < 2 ^ 31)%Z ->
  exists ma ea,
    Binary32.of_int total = S754_finite false ma ea
    /\ (2 ^ 23 <= Z.pos ma < 2 ^ 24)%Z /\ (-23 <= ea)%Z
    /\ 1 <= F2R (Z.pos ma) ea <= pow2 31.
Proof.
  intros Ht. destruct total as [|p|p]; [lia| |lia].
  unfold Binary32.of_int. cbn [binary_normalize].
  destruct (binary_round_rounds false p 0) as (n & c & Hr & Hn & ->).
  assert (F2R (Z.pos p) 0 = IZR (Z.pos p)) as Hv
    by (unfold F2R; rewrite pow2_0; lra).
  rewrite Hv in Hr.
  assert (1 <= IZR (Z.pos p)) as H1 by (apply IZR_le; lia).
  assert (IZR (Z.pos p) < pow2 31) as H31.
  { rewrite (pow2_IZR 31) by lia. apply IZR_lt. lia. }
  pose proof (canonic_lower c _ 0 (proj1 Hr) ltac:(rewrite pow2_0; lra))
    as Hc0.
  pose proof (canonic_upper c _ 31 (proj1 Hr) H31
                ltac:(rewrite emin_eq; lia)) as Hc1.
  assert (2 ^ 23 <= n)%Z as Hn23.
  { destruct Hr as [(_ & _ & [->|Hge]) [[_ Hhi] _]];
      [rewrite emin_eq in Hc0; lia|].
    apply (scaled_le _ _ (- c)) in Hge.
    replace (c + 23 + - c)%Z with 23%Z in Hge by lia.
    rewrite (pow2_IZR 23) in Hge by lia.
    assert (IZR (2 ^ 23 - 1) < IZR n) as Hlt by (rewrite minus_IZR; lra).
    apply lt_IZR in Hlt. lia. }
  destruct (rounds_within _ _ _ 1 Hr) as [_ Hdown];
    [apply (representable_IZR 1); lia|].
  destruct (rounds_within _ _ _ (pow2 31) Hr) as [Hup _];
    [apply representable_pow2; rewrite emin_eq; lia|].
  destruct (Hdown H1) as [Hge1 _]. destruct (Hup ltac:(lra)) as [Hle31 _].
  destruct (encode_cases false n c Hn)
    as [[-> _]|[(_ & Hc & _)|(_ & m & e & He & Hv' & Hm & Hce & _ & Hm23)]];
    [lia|lia|].
  exists m, e. rewrite He, Hv'. split; [done|].
  split; [lia|]. split; [lia|]. lra.
Qed.

End Count.


(** ** Sums of values of the unit interval *)

Section Sums.
Local Open Scope R_scope.

Lemma unit_interval_cases x :
  unit_interval x = true ->
  (exists s, x = S754_zero s)
  \/ exists m e,
       x = S754_finite false m e /\ (Z.pos m < 2 ^ 24)%Z /\ (emin <= e)%Z
       /\ F2R (Z.pos m) e <= 1.
Proof.
  unfold unit_interval. intros Hx.
  apply andb_prop in Hx as [Hx Hle1]. apply andb_prop in Hx as [Hvalid Hle0].
  destruct x as [s|s| |s m e]; [by left; exists s|by destruct s|done|].
  right. destruct s; [done|]. exists m, e. split; [done|].
  unfold valid_binary, bounded, canonical_mantissa in Hvalid.
  apply andb_prop in Hvalid as [Hcan _]. std_Z.
  apply Z.eqb_eq in Hcan.
  change (SpecFloat.fexp Binary32.prec Binary32.emax) with fexp in Hcan.
  rewrite fexp_eq in Hcan.
  pose proof (digits2_pos_bounds m) as [_ Hm].
  assert (Z.pos (digits2_pos m) <= 24)%Z as Hd by lia.
  assert (Z.pos m < 2 ^ 24)%Z as Hm24.
  { apply Z.lt_le_trans with (2 ^ Z.pos (digits2_pos m))%Z; [done|].
    apply Z.pow_le_mono_r; lia. }
  split; [done|]. split; [rewrite emin_eq; lia|].
  assert (e < -23 \/ (e = -23 /\ Z.pos m <= 2 ^ 23))%Z as [He|[-> Hm23]].
  { unfold SFleb, SFcompare in Hle1.
    change (Binary32.of_int 1) with (S754_finite false 8388608 (-23)) in Hle1.
    cbv iota beta in Hle1. std_Z.
    destruct (Z.compare_spec e (-23)) as [->|He|He]; [right|by left|done].
    split; [done|].
    pose proof (compare_cont_spec m 8388608) as Hcmp.
    destruct Hcmp as [->|Hlt|Hgt]; [done| |done].
    apply Pos2Z.pos_lt_pos in Hlt. clear -Hlt. lia. }
  - apply Rle_trans with (F2R (2 ^ 24) e).
    + unfold F2R. apply Rmult_le_compat_r; [left; apply pow2_pos|].
      apply IZR_le. lia.
    + unfold F2R. rewrite <- (pow2_IZR 24), <- pow2_add, <- pow2_0 by lia.
      apply pow2_le. lia.
  - apply Rle_trans with (F2R (2 ^ 23) (-23)).
    + unfold F2R. apply Rmult_le_compat_r; [left; apply pow2_pos|].
      by apply IZR_le.
    + unfold F2R. rewrite <- (pow2_IZR 23), <- pow2_add by lia.
      change (23 + -23)%Z with 0%Z. rewrite pow2_0. lra.
Qed.

Lemma F2R_pos m e : 0 < F2R (Z.pos m) e.
Proof.
  unfold F2R. apply Rmult_lt_0_compat; [|apply pow2_pos]. by apply IZR_lt.
Qed.

Lemma sum_value_encode n c :
  (0 <= n <= 2 ^ 24)%Z -> (emin <= c <= 2)%Z -> F2R n c <= pow2 25 ->
  sum_value (encode false n c).
Proof.
  intros Hn Hc Hv.
  destruct (encode_cases false n c Hn)
    as [[_ ->]|[(_ & Hbig & _)|(_ & m & e & -> & Hv' & Hm & He & _)]].
  - by left.
  - lia.
  - right. exists m, e. rewrite Hv'. split; [done|]. split; [done|].
    split; [lia|done].
Qed.

(** One round of the summing loop keeps the sum in range. *)
Lemma sum_value_add s x :
  sum_value s -> unit_interval x = true -> sum_value (Binary32.add s x).
Proof.
  intros Hs Hx. apply unit_interval_cases in Hx.
  destruct Hs as [->|(ms & es & -> & Hms & Hes & Hvs)];
    destruct Hx as [[sx ->]|(mx & ex & -> & Hmx & Hex & Hvx)].
  - left. by destruct sx.
  - right. exists mx, ex. split; [done|]. split; [done|]. split; [done|].
    apply Rle_trans with 1; [done|]. rewrite <- pow2_0. apply pow2_le. lia.
  - right. exists ms, es. split; [done|]. done.
  - destruct (add_rounds ms es mx ex) as (n & c & Hr & Hn & ->).
    pose proof (F2R_pos ms es). pose proof (F2R_pos mx ex).
    destruct (rounds_sum_bound _ _ _ Hr ltac:(lra)) as [Hv Hc].
    apply sum_value_encode; [done| |done].
    split; [apply Hr|done].
Qed.

Lemma sum_value_foldl g : forall s,
  sum_value s -> Forall (fun x => unit_interval x = true) g ->
  sum_value (foldl Binary32.add s g).
Proof.
  induction g as [|x g IH]; intros s Hs Hg; [done|].
  inversion_clear Hg as [|? ? Hx Hg']. simpl.
  apply IH; [|done]. by apply sum_value_add.
Qed.

End Sums.

(** ** One worker: the weighted average of a single term *)

Section SingleTerm.
Local Open Scope R_scope.

(** For a count of at least one and a sum [s] of values of the unit
    interval, with [d = s / (float) total] the average, the single-term
    quotient [(0 + (float) total * d) / (0 + (float) total)] is [d]
    again, bit for bit. *)
Lemma weighted_single_term total s :
  (1 <= total < 2 ^ 31)%Z -> sum_value s ->
  Binary32.is_finite (Binary32.div s (Binary32.of_int total)) = true
  /\ Binary32.div
       (Binary32.add Binary32.zero
          (Binary32.mul (Binary32.of_int total)
             (Binary32.div s (Binary32.of_int total))))
       (Binary32.add Binary32.zero (Binary32.of_int total))
     = Binary32.div s (Binary32.of_int total).
Proof.
  intros Ht Hs.
  destruct (of_int_count total Ht) as (ma & ea & -> & Hma & Hea & Ha1 & Ha31).
  destruct Hs as [->|(ms & es & -> & Hms & Hes & Hvs)]; [by split|].
  destruct (div_rounds false ms es false ma ea)
    as (n1 & c1 & Hr1 & Hn1 & Ed).
  rewrite Ed. cbn [xorb] in *.
  pose proof (F2R_pos ms es) as Hs0. pose proof (F2R_pos ma ea) as Ha0.
  remember (F2R (Z.pos ms) es) as s eqn:Es.
  remember (F2R (Z.pos ma) ea) as a eqn:Ea.
  assert (Hq : 0 <= s / a <= s).
  { split.
    - apply Rmult_le_pos; [lra|]. left. by apply Rinv_0_lt_compat.
    - apply (Rmult_le_reg_r a); [done|].
      replace (s / a * a) with s by (field; lra). nra. }
  destruct (rounds_sum_bound _ _ _ Hr1 ltac:(lra)) as [Hd25 Hc1].
  assert (Hc1' : (emin <= c1)%Z) by apply Hr1.
  destruct (encode_cases false n1 c1 Hn1)
    as [[_ ->]|[(_ & Hbig & _)|(Hn1' & md & ed & Hd & Hvd & Hmd & Hed & _)]];
    [by split|lia|].
  rewrite Hd. split; [done|].
  destruct (mul_rounds false ma ea false md ed ltac:(lia))
    as (np & cp & Hrp & Hnp & Ep).
  rewrite Ep. cbn [xorb] in *. clear Ep.
  rewrite <- Ea, Hvd in Hrp.
  assert (Hd0 : 0 < F2R n1 c1) by (rewrite <- Hvd; apply F2R_pos).
  assert (Hrepd : representable (F2R n1 c1)) by (by exists n1, c1).
  assert (Hpd : F2R n1 c1 <= a * F2R n1 c1) by nra.
  destruct (rounds_within _ _ _ _ Hrp Hrepd) as [_ Hdown].
  destruct (Hdown Hpd) as [Hp0 _].
  assert (Hcp : (cp <= 33)%Z).
  { apply (canonic_upper cp (a * F2R n1 c1) 57); [apply Hrp| |].
    - apply Rle_lt_trans with (pow2 31 * pow2 25); [nra|].
      rewrite <- pow2_add. apply pow2_lt. lia.
    - rewrite emin_eq. lia. }
  destruct (encode_cases false np cp Hnp)
    as [[-> _]|[(_ & Hbig & _)|(_ & mp & ep & -> & Hvp & _)]].
  - unfold F2R in Hp0, Hd0. lra.
  - lia.
  - change (Binary32.add Binary32.zero (S754_finite false mp ep))
      with (S754_finite false mp ep).
    change (Binary32.add Binary32.zero (S754_finite false ma ea))
      with (S754_finite false ma ea).
    destruct (div_rounds false mp ep false ma ea)
      as (n2 & c2 & Hr2 & Hn2 & ->).
    cbn [xorb]. rewrite <- Hd. apply encode_round_trip.
    rewrite Hvp, <- Ea in Hr2. rewrite Ea in Hr1, Hrp, Hr2.
    apply (round_trip (Z.pos ma) ea s n1 c1 np cp n2 c2);
      [lia|done|lra| |done|done|done].
    exists (Z.pos ms), es. split; [done|]. split; [lia|done].
Qed.

End SingleTerm.

(** ** The values [create_rand_nums] stores *)

Section UnitInterval.
Local Open Scope R_scope.

Lemma rounds_unique y n1 c1 n2 c2 :
  rounds y n1 c1 -> rounds y n2 c2 -> n1 = n2 /\ c1 = c2.
Proof.
  intros [Hc1 Hn1] [Hc2 Hn2].
  pose proof (canonic_unique _ _ _ Hc1 Hc2) as ->.
  split; [|done]. by eapply nearest_even_unique.
Qed.

Lemma rounds_representable y n c :
  0 <= y -> rounds y n c -> representable (F2R n c).
Proof.
  intros Hy Hr. exists n, c. split; [done|].
  split; [by eapply rounds_range|apply Hr].
Qed.

(** Rounding keeps the order. *)
Lemma rounds_monotone y1 n1 c1 y2 n2 c2 :
  0 <= y1 <= y2 -> rounds y1 n1 c1 -> rounds y2 n2 c2 ->
  F2R n1 c1 <= F2R n2 c2.
Proof.
  intros [Hy1 Hy12] Hr1 Hr2.
  pose proof (rounds_representable _ _ _ Hy1 Hr1) as Hrep1.
  assert (Hy2 : 0 <= y2) by lra.
  pose proof (rounds_representable _ _ _ Hy2 Hr2) as Hrep2.
  destruct (rounds_within _ _ _ _ Hr1 Hrep2) as [Hup1 Hdown1].
  destruct (rounds_within _ _ _ _ Hr2 Hrep1) as [Hup2 Hdown2].
  destruct (Rle_or_lt y1 (F2R n2 c2)) as [Hle|Hgt]; [by destruct (Hup1 Hle)|].
  destruct (Rle_or_lt (F2R n1 c1) y2) as [Hle'|Hgt'];
    [by destruct (Hdown2 Hle')|].
  destruct (Hdown1 ltac:(lra)) as [_ H1].
  destruct (Hup2 ltac:(lra)) as [_ H2].
  assert (y1 = y2) as <- by lra.
  destruct (rounds_unique _ _ _ _ _ Hr1 Hr2) as [-> ->]. lra.
Qed.

Lemma Zdigits2_ge m k : (0 <= k)%Z -> (2 ^ k <= m)%Z -> (k < Zdigits2 m)%Z.
Proof.
  intros Hk Hm.
  assert (0 < m)%Z as Hm0 by (pose proof (Z.pow_pos_nonneg 2 k); lia).
  pose proof (Zdigits2_bounds m Hm0) as [_ Hhi].
  pose proof (Zdigits2_pos m Hm0).
  apply (Z.pow_lt_mono_r_iff 2); lia.
Qed.

(** What a rounding gives is a binary32 value. *)
Lemma encode_valid sx y n c :
  0 <= y -> rounds y n c ->
  valid_binary Binary32.prec Binary32.emax (encode sx n c) = true.
Proof.
  intros Hy Hr. pose proof (rounds_range _ _ _ Hy Hr) as Hn.
  assert (Hc : (emin <= c)%Z) by apply Hr.
  assert (Hbig : (c = emin \/ 2 ^ 23 <= n)%Z).
  { destruct Hr as [(_ & _ & [->|Hge]) [[_ Hhi] _]]; [by left|right].
    apply (scaled_le _ _ (- c)) in Hge.
    replace (c + 23 + - c)%Z with 23%Z in Hge by lia.
    rewrite (pow2_IZR 23) in Hge by lia.
    assert (IZR (2 ^ 23 - 1) < IZR n) as Hlt by (rewrite minus_IZR; lra).
    apply lt_IZR in Hlt. lia. }
  unfold encode. destruct (decide (n = 2 ^ 24)%Z) as [->|Hne].
  - change (2 ^ 23)%Z with (Z.pos 8388608).
    change (Binary32.emax - Binary32.prec)%Z with 104%Z.
    destruct (Z.leb_spec (c + 1) 104) as [Hle|Hgt]; [|done].
    unfold valid_binary, bounded, canonical_mantissa. std_Z.
    change (SpecFloat.fexp Binary32.prec Binary32.emax) with fexp.
    change (Z.pos (digits2_pos 8388608)) with 24%Z.
    apply andb_true_intro. split; [apply Z.eqb_eq|apply Z.leb_le].
    + rewrite fexp_eq, emin_eq in *. lia.
    + change (Binary32.emax - Binary32.prec)%Z with 104%Z. lia.
  - destruct n as [|p|p]; [done| |lia].
    change (Binary32.emax - Binary32.prec)%Z with 104%Z.
    destruct (Z.leb_spec c 104) as [Hle|Hgt]; [|done].
    unfold valid_binary, bounded, canonical_mantissa. std_Z.
    change (SpecFloat.fexp Binary32.prec Binary32.emax) with fexp.
    apply andb_true_intro. split; [apply Z.eqb_eq|apply Z.leb_le].
    + pose proof (Zdigits2_le (Z.pos p) 24%Z ltac:(lia) ltac:(lia)
                    ltac:(lia)) as Hd.
      cbn [Zdigits2] in Hd.
      destruct Hbig as [->|Hp].
      * rewrite fexp_eq, emin_eq. lia.
      * pose proof (Zdigits2_ge (Z.pos p) 23%Z ltac:(lia) Hp) as Hd'.
        cbn [Zdigits2] in Hd'. rewrite fexp_eq, emin_eq in *. lia.
    + change (Binary32.emax - Binary32.prec)%Z with 104%Z. lia.
Qed.

(** A positive binary32 value that is at most 1 passes the test
    [0.0f <= x && x <= 1.0f]. *)
Lemma unit_interval_intro m e :
  valid_binary Binary32.prec Binary32.emax (S754_finite false m e) = true ->
  F2R (Z.pos m) e <= 1 ->
  unit_interval (S754_finite false m e) = true.
Proof.
  intros Hvalid Hle. unfold unit_interval. rewrite Hvalid.
  change (SFleb (S754_zero false) (S754_finite false m e)) with true.
  cbn [andb].
  unfold valid_binary, bounded, canonical_mantissa in Hvalid.
  apply andb_prop in Hvalid as [Hcan _]. std_Z.
  apply Z.eqb_eq in Hcan.
  change (SpecFloat.fexp Binary32.prec Binary32.emax) with fexp in Hcan.
  rewrite fexp_eq in Hcan.
  change (Binary32.of_int 1) with (S754_finite false 8388608 (-23)).
  unfold SFleb, SFcompare. std_Z.
  destruct (Z.compare_spec e (-23)) as [->|He|He]; [|done|exfalso].
  - pose proof (compare_cont_spec m 8388608) as Hcmp.
    destruct Hcmp as [->|Hlt|Hgt]; [done|done|exfalso].
    apply Pos2Z.pos_lt_pos in Hgt.
    assert (IZR (8388608 + 1) <= IZR (Z.pos m)) as Hm by (apply IZR_le; lia).
    rewrite plus_IZR in Hm.
    unfold F2R in Hle.
    assert (pow2 (-23) = / 8388608) as Hp.
    { assert (pow2 23 * pow2 (-23) = 1) as Hc by exact (pow2_cancel 23).
      rewrite (pow2_IZR 23) in Hc by lia.
      change (2 ^ 23)%Z with 8388608%Z in Hc.
      apply (Rmult_eq_reg_l 8388608); [|lra]. rewrite Hc. field. }
    rewrite Hp in Hle.
    assert (IZR (Z.pos m) <= 8388608); [|lra].
    apply (Rmult_le_reg_r (/ 8388608)); [lra|]. lra.
  - assert (Z.pos (digits2_pos m) = 24)%Z as Hd by lia.
    pose proof (digits2_pos_bounds m) as [Hlo _]. rewrite Hd in Hlo.
    assert (2 <= F2R (Z.pos m) e); [|lra].
    apply Rle_trans with (F2R (2 ^ 23) (-22)).
    + unfold F2R. rewrite <- (pow2_IZR 23), <- pow2_add by lia.
      change (23 + -22)%Z with 1%Z. rewrite pow2_1. lra.
    + unfold F2R. apply Rmult_le_compat.
      * apply IZR_le. lia.
      * left. apply pow2_pos.
      * apply IZR_le. lia.
      * apply pow2_le. lia.
Qed.

(** [(float) r] for [r] of an [int] that is positive. *)
Lemma of_int_rounds r :
  (0 < r)%Z ->
  exists n c,
    rounds (IZR r) n c /\ (0 <= n <= 2 ^ 24)%Z
    /\ Binary32.of_int r = encode false n c.
Proof.
  intros Hr. destruct r as [|p|p]; [lia| |lia].
  unfold Binary32.of_int. cbn [binary_normalize].
  destruct (binary_round_rounds false p 0) as (n & c & Hrn & Hn & ->).
  exists n, c. split; [|done].
  replace (IZR (Z.pos p)) with (F2R (Z.pos p) 0); [done|].
  unfold F2R. rewrite pow2_0. lra.
Qed.

(** [r / (float) RAND_MAX] for a result [r] of [rand()]. *)
Lemma rand_quotient_unit r RAND_MAX :
  (0 <= r <= RAND_MAX)%Z -> (1 <= RAND_MAX < 2 ^ 31)%Z ->
  unit_interval
    (Binary32.div (Binary32.of_int r) (Binary32.of_int RAND_MAX)) = true.
Proof.
  intros Hr HR.
  destruct (of_int_count RAND_MAX HR) as (mR & eR & ER & _ & _ & HR1 & _).
  destruct (of_int_rounds RAND_MAX ltac:(lia)) as (nR & cR & HrR & HnR & ER').
  rewrite ER in ER'.
  destruct (decide (r = 0)%Z) as [->|Hr0]; [by rewrite ER|].
  destruct (of_int_count r ltac:(lia)) as (mr & er & Er & _ & _ & Hr1 & _).
  destruct (of_int_rounds r ltac:(lia)) as (nr & cr & Hrr & Hnr & Er').
  rewrite Er in Er'.
  assert (Hvals : F2R (Z.pos mr) er <= F2R (Z.pos mR) eR).
  { destruct (encode_cases false nr cr Hnr)
      as [[_ E]|[(_ & _ & E)|(_ & m & e & E & Hv & _)]];
      rewrite E in Er'; [done|done|]. injection Er' as -> ->.
    destruct (encode_cases false nR cR HnR)
      as [[_ E']|[(_ & _ & E')|(_ & m' & e' & E' & Hv' & _)]];
      rewrite E' in ER'; [done|done|]. injection ER' as -> ->.
    rewrite Hv, Hv'. apply (rounds_monotone (IZR r) _ _ (IZR RAND_MAX));
      [|done|done].
    split; [apply IZR_le; lia|apply IZR_le; lia]. }
  rewrite Er, ER.
  destruct (div_rounds false mr er false mR eR) as (n & c & Hq & Hn & ->).
  cbn [xorb].
  pose proof (F2R_pos mr er) as Hx. pose proof (F2R_pos mR eR) as Hy.
  assert (Hq01 : 0 <= F2R (Z.pos mr) er / F2R (Z.pos mR) eR <= 1).
  { split.
    - apply Rmult_le_pos; [lra|]. left. by apply Rinv_0_lt_compat.
    - apply (Rmult_le_reg_r (F2R (Z.pos mR) eR)); [done|].
      replace (F2R (Z.pos mr) er / F2R (Z.pos mR) eR * F2R (Z.pos mR) eR)
        with (F2R (Z.pos mr) er) by (field; lra).
      lra. }
  pose proof (encode_valid false _ _ _ (proj1 Hq01) Hq) as Hvalid.
  destruct (rounds_within _ _ _ 1 Hq) as [Hup _];
    [apply (representable_IZR 1); lia|].
  destruct (Hup (proj2 Hq01)) as [Hle1 _].
  destruct (encode_cases false n c Hn)
    as [[_ E]|[(_ & Hbig & _)|(_ & m & e & E & Hv & _)]].
  - by rewrite E.
  - pose proof (canonic_upper c _ 1 (proj1 Hq)
                  ltac:(rewrite pow2_1; lra)
                  ltac:(rewrite emin_eq; lia)). lia.
  - rewrite E in Hvalid |- *. apply unit_interval_intro; [done|].
    by rewrite Hv.
Qed.

End UnitInterval.

(** ** Any binary32 values: the single term, as long as nothing overflows *)

Section AnyValues.
Local Open Scope R_scope.

Lemma valid_representable s m e :
  valid_binary Binary32.prec Binary32.emax (S754_finite s m e) = true ->
  representable (F2R (Z.pos m) e).
Proof.
  intros Hvalid.
  unfold valid_binary, bounded, canonical_mantissa in Hvalid.
  apply andb_prop in Hvalid as [Hcan _]. std_Z.
  apply Z.eqb_eq in Hcan.
  change (SpecFloat.fexp Binary32.prec Binary32.emax) with fexp in Hcan.
  rewrite fexp_eq in Hcan.
  pose proof (digits2_pos_bounds m) as [_ Hm].
  assert (Z.pos m < 2 ^ 24)%Z as Hm24.
  { apply Z.lt_le_trans with (2 ^ Z.pos (digits2_pos m))%Z; [done|].
    apply Z.pow_le_mono_r; lia. }
  exists (Z.pos m), e. split; [done|]. rewrite emin_eq. lia.
Qed.

Lemma binary_round_valid sx m e :
  valid_binary Binary32.prec Binary32.emax
    (binary_round Binary32.prec Binary32.emax sx m e) = true.
Proof.
  destruct (binary_round_rounds sx m e) as (n & c & Hr & _ & ->).
  apply (encode_valid sx _ _ _ (Rlt_le _ _ (F2R_pos m e)) Hr).
Qed.

(** Addition keeps binary32 values binary32 values. *)
Lemma add_valid x y :
  valid_binary Binary32.prec Binary32.emax x = true ->
  valid_binary Binary32.prec Binary32.emax y = true ->
  valid_binary Binary32.prec Binary32.emax (Binary32.add x y) = true.
Proof.
  intros Hx Hy.
  destruct x as [sx|sx| |sx mx ex], y as [sy|sy| |sy my ey];
    try done; try (by destruct sx, sy).
  unfold Binary32.add, SFadd.
  destruct (cond_Zopp sx (Z.pos (fst (shl_align mx ex (Z.min ex ey))))
            + cond_Zopp sy (Z.pos (fst (shl_align my ey (Z.min ex ey)))))%Z
    as [|m|m]; [done|apply binary_round_valid..].
Qed.

Lemma fsum_valid g : forall s,
  valid_binary Binary32.prec Binary32.emax s = true ->
  Forall (fun x => valid_binary Binary32.prec Binary32.emax x = true) g ->
  valid_binary Binary32.prec Binary32.emax (foldl Binary32.add s g) = true.
Proof.
  induction g as [|x g IH]; intros s Hs Hg; [done|].
  inversion_clear Hg as [|? ? Hx Hg']. simpl.
  apply IH; [|done]. by apply add_valid.
Qed.

Lemma eqb_refl_finite s m e :
  SFeqb (S754_finite s m e) (S754_finite s m e) = true.
Proof.
  unfold SFeqb, SFcompare. std_Z. rewrite Z.compare_refl.
  destruct (compare_cont_spec m m) as [_|Hlt|Hlt]; [by destruct s|lia|lia].
Qed.

(** For a count of at least one and any binary32 value [s] as the sum,
    with [d = s / (float) total]: if [(float) total * d] is finite, the
    single-term quotient compares equal to [d], and is [d] itself unless
    [d] is the negative zero. *)
Lemma single_term_any_sum total s :
  (1 <= total < 2 ^ 31)%Z ->
  valid_binary Binary32.prec Binary32.emax s = true ->
  Binary32.is_finite
    (Binary32.mul (Binary32.of_int total)
       (Binary32.div s (Binary32.of_int total))) = true ->
  Binary32.eqb
    (Binary32.div
       (Binary32.add Binary32.zero
          (Binary32.mul (Binary32.of_int total)
             (Binary32.div s (Binary32.of_int total))))
       (Binary32.add Binary32.zero (Binary32.of_int total)))
    (Binary32.div s (Binary32.of_int total)) = true
  /\ (Binary32.div s (Binary32.of_int total) <> S754_zero true ->
      Binary32.div
        (Binary32.add Binary32.zero
           (Binary32.mul (Binary32.of_int total)
              (Binary32.div s (Binary32.of_int total))))
        (Binary32.add Binary32.zero (Binary32.of_int total))
      = Binary32.div s (Binary32.of_int total)).
Proof.
  intros Ht Hvalid.
  destruct (of_int_count total Ht) as (ma & ea & -> & Hma & Hea & Ha1 & Ha31).
  destruct s as [ss|ss| |ss ms es]; [by destruct ss|done|done|].
  apply valid_representable in Hvalid.
  destruct (div_rounds ss ms es false ma ea) as (n1 & c1 & Hr1 & Hn1 & ->).
  replace (xorb ss false) with ss by (by destruct ss).
  pose proof (F2R_pos ms es) as Hs0. pose proof (F2R_pos ma ea) as Ha0.
  remember (F2R (Z.pos ms) es) as s eqn:Es.
  remember (F2R (Z.pos ma) ea) as a eqn:Ea.
  assert (Hq : 0 <= s / a).
  { apply Rmult_le_pos; [lra|]. left. by apply Rinv_0_lt_compat. }
  assert (Hc1' : (emin <= c1)%Z) by apply Hr1.
  destruct (encode_cases ss n1 c1 Hn1)
    as [[_ ->]|[(_ & _ & ->)|(Hn1' & md & ed & Hd & Hvd & Hmd & Hed & _)]];
    [by destruct ss|done|].
  rewrite Hd.
  destruct (mul_rounds false ma ea ss md ed ltac:(lia))
    as (np & cp & Hrp & Hnp & ->).
  cbn [xorb]. rewrite <- Ea, Hvd in Hrp.
  assert (Hd0 : 0 < F2R n1 c1) by (rewrite <- Hvd; apply F2R_pos).
  assert (Hrepd : representable (F2R n1 c1)) by (by exists n1, c1).
  assert (Hpd : F2R n1 c1 <= a * F2R n1 c1) by nra.
  destruct (rounds_within _ _ _ _ Hrp Hrepd) as [_ Hdown].
  destruct (Hdown Hpd) as [Hp0 _].
  destruct (encode_cases ss np cp Hnp)
    as [[-> _]|[(_ & _ & ->)|(_ & mp & ep & -> & Hvp & _)]].
  - unfold F2R in Hp0, Hd0. lra.
  - done.
  - intros _.
    change (Binary32.add Binary32.zero (S754_finite ss mp ep))
      with (S754_finite ss mp ep).
    change (Binary32.add Binary32.zero (S754_finite false ma ea))
      with (S754_finite false ma ea).
    destruct (div_rounds ss mp ep false ma ea)
      as (n2 & c2 & Hr2 & Hn2 & ->).
    replace (xorb ss false) with ss by (by destruct ss).
    assert (encode ss n2 c2 = S754_finite ss md ed) as ->.
    { rewrite <- Hd. apply encode_round_trip.
      rewrite Hvp, <- Ea in Hr2. rewrite Ea in Hr1, Hrp, Hr2.
      apply (round_trip (Z.pos ma) ea s n1 c1 np cp n2 c2);
        [lia|done|lra|done|done|done|done]. }
    split; [apply eqb_refl_finite|done].
Qed.

End AnyValues.

(** ** One worker *)

(** With one worker the plan is count [total], offset 0; the worker's slice
    is the whole array, its partial average is the direct average, and the
    weighted average is the single-term quotient
    [(0 + total * d) / (0 + total)], in whatever arithmetic. *)
Lemma single_worker_formula {F : Type} `{FloatArith F} (g : list F) total :
  0 <= total <= CInt.INT_MAX -> Z.of_nat (length g) = total ->
  MPI_Scatterv g [total] [0] 0 = Some g
  /\ compute_avg g total = Some (f_div (fsum g) (f_of_int total))
  /\ partial_averages g [total] [0] 1
     = Some [f_div (fsum g) (f_of_int total)]
  /\ compute_weighted_avg [f_div (fsum g) (f_of_int total)] [total] 1
     = Some (f_div
               (f_add f_zero
                  (f_mul (f_of_int total) (f_div (fsum g) (f_of_int total))))
               (f_add f_zero (f_of_int total))).
Proof.
  intros Ht Hg.
  assert (Hslice : MPI_Scatterv g [total] [0] 0 = Some g).
  { unfold MPI_Scatterv. simpl.
    destruct (decide _) as [_|Hbad]; [|lia].
    rewrite drop_0, take_ge by lia. done. }
  assert (Havg : compute_avg g total
                 = Some (f_div (fsum g) (f_of_int total))).
  { rewrite compute_avg_formula by lia. by rewrite take_ge by lia. }
  split_and!; [done|done| |done].
  unfold partial_averages, MPI_Gather.
  change (seqZ 0 1) with [0]. simpl.
  unfold sub_avg_of_rank. rewrite Hslice. simpl. by rewrite Havg.
Qed.

(** Outside of the values the program holds the single term is not always
    given back: for 25 elements, the largest finite float followed by
    zeros, the direct average is finite and the weighted one is +infinity,
    25 times the average having overflowed.  And for no element at all
    both averages are NaN, which equals nothing, itself included. *)
Lemma one_worker_overflow :
  (exists counts displs slice d w,
     split_num_between_processes 25 1 [0] [0] = Some (counts, displs)
     /\ MPI_Scatterv max_then_zeros counts displs 0 = Some slice
     /\ slice = max_then_zeros
     /\ compute_avg max_then_zeros 25 = Some d
     /\ global_average max_then_zeros counts displs 1 = Some w
     /\ Binary32.is_finite d = true
     /\ w = S754_infinity false
     /\ w <> d)
  /\ (exists counts displs d w,
        split_num_between_processes 0 1 [0] [0] = Some (counts, displs)
        /\ compute_avg (F := Binary32.float32) [] 0 = Some d
        /\ global_average (F := Binary32.float32) [] counts displs 1 = Some w
        /\ Binary32.is_nan d = true /\ Binary32.is_nan w = true
        /\ Binary32.eqb w d = false).
Proof.
  split.
  - exists [25], [0], max_then_zeros.
    exists (S754_finite false 10737418 100), (S754_infinity false).
    split_and!; try (vm_compute; reflexivity). discriminate.
  - exists [0], [0], Binary32.nan, Binary32.nan.
    split_and!; vm_compute; reflexivity.
Qed.

(** With at least one element, each a binary32 value of the unit interval,
    the weighted average of the one partial average is the float that
    [compute_avg] returns on the whole array. *)
Lemma single_worker_same_float (g : list Binary32.float32) total :
  1 <= total <= CInt.INT_MAX -> Z.of_nat (length g) = total ->
  Forall (fun x => unit_interval x = true) g ->
  exists d,
    compute_avg g total = Some d
    /\ Binary32.is_finite d = true
    /\ partial_averages g [total] [0] 1 = Some [d]
    /\ compute_weighted_avg [d] [total] 1 = Some d
    /\ global_average g [total] [0] 1 = Some d.
Proof.
  intros Ht Hg Hunit.
  destruct (single_worker_formula g total ltac:(lia) Hg)
    as (Hslice & Havg & Hpart & Hweighted).
  assert (Hsum : sum_value (fsum g)).
  { apply sum_value_foldl; [by left|done]. }
  destruct (weighted_single_term total (fsum g)
              ltac:(unfold CInt.INT_MAX in *; lia) Hsum) as [Hfin Hsame].
  exists (f_div (fsum g) (f_of_int total)).
  assert (Hw : compute_weighted_avg [f_div (fsum g) (f_of_int total)]
                 [total] 1
               = Some (f_div (fsum g) (f_of_int total))).
  { rewrite Hweighted. f_equal. exact Hsame. }
  split_and!; [done|exact Hfin|done|done|].
  unfold global_average. rewrite Hpart. exact Hw.
Qed.

Lemma plan_of_one total :
  plan_counts total 1 = [total] /\ plan_displs total 1 = [0].
Proof.
  unfold plan_counts, plan_displs. simpl. rewrite Z.div_1_r.
  split; [|done]. f_equal. lia.
Qed.

(** C7.  With one worker, at least one element, and every element a
    binary32 value of the unit interval (what [create_rand_nums] stores:
    [rand() / (float)RAND_MAX]), the plan is count [total], offset 0, the
    worker's slice is the whole array, and the weighted average that
    [compute_weighted_avg] returns on the one partial average, with the
    one count as weight, is the very float that [compute_avg] returns on
    the whole array: the same bits, not a value within a tolerance. *)
Theorem single_worker total counts0 displs0 (g : list Binary32.float32) :
  1 <= total <= CInt.INT_MAX ->
  length counts0 = 1%nat -> length displs0 = 1%nat ->
  Z.of_nat (length g) = total ->
  Forall (fun x => unit_interval x = true) g ->
  split_num_between_processes total 1 counts0 displs0 = Some ([total], [0])
  /\ MPI_Scatterv g [total] [0] 0 = Some g
  /\ exists d,
       compute_avg g total = Some d
       /\ Binary32.is_finite d = true
       /\ partial_averages g [total] [0] 1 = Some [d]
       /\ compute_weighted_avg [d] [total] 1 = Some d
       /\ global_average g [total] [0] 1 = Some d.
Proof.
  intros Ht Hc Hd Hg Hunit.
  split.
  { rewrite split_closed_form by (done || (unfold CInt.INT_MAX in *; lia)).
    by destruct (plan_of_one total) as [-> ->]. }
  split; [apply (single_worker_formula g total); (done || lia)|].
  by apply single_worker_same_float.
Qed.

Lemma single_worker_witness :
  split_num_between_processes 3 1 [0] [0] = Some ([3], [0])
  /\ MPI_Scatterv
       [Binary32.of_scaled 1 (-1); Binary32.of_scaled 3 (-2);
        Binary32.of_int 1]
       [3] [0] 0
     = Some [Binary32.of_scaled 1 (-1); Binary32.of_scaled 3 (-2);
             Binary32.of_int 1]
  /\ exists d,
       compute_avg
         [Binary32.of_scaled 1 (-1); Binary32.of_scaled 3 (-2);
          Binary32.of_int 1]
         3
       = Some d
       /\ Binary32.is_finite d = true
       /\ partial_averages
            [Binary32.of_scaled 1 (-1); Binary32.of_scaled 3 (-2);
             Binary32.of_int 1]
            [3] [0] 1
          = Some [d]
       /\ compute_weighted_avg [d] [3] 1 = Some d
       /\ global_average
            [Binary32.of_scaled 1 (-1); Binary32.of_scaled 3 (-2);
             Binary32.of_int 1]
            [3] [0] 1
          = Some d.
Proof.
  apply (single_worker 3 [0] [0]
           [Binary32.of_scaled 1 (-1); Binary32.of_scaled 3 (-2);
            Binary32.of_int 1]);
    [unfold CInt.INT_MAX; lia | reflexivity | reflexivity | reflexivity |].
  repeat (apply Forall_cons; [vm_compute; reflexivity|]). apply Forall_nil.
Defined.

(** ** The whole run of the root *)

Section Run.
Context {F : Type} `{FloatArith F}.
Variable env : environment F.

Lemma fill_rounds {A : Type} (v : Z -> A) (a0 : list A) (m k : nat) :
  (k + m <= length a0)%nat -> Z.of_nat (k + m) <= CInt.INT_MAX ->
  for_from (Z.of_nat k) m (fun i a => store a i (v i))
    (((fun i : nat => v (Z.of_nat i)) <$> seq 0 k) ++ drop k a0)
  = Some (((fun i : nat => v (Z.of_nat i)) <$> seq 0 (k + m))
            ++ drop (k + m) a0).
Proof.
  revert k. induction m as [|m IH]; intros k Hlen Hmax.
  - by rewrite Nat.add_0_r.
  - simpl. rewrite store_prefix by solve_length. simpl.
    replace (CInt.add (Z.of_nat k) 1) with (Z.of_nat (S k)).
    + replace (((fun i : nat => v (Z.of_nat i)) <$> seq 0 k)
                 ++ [v (Z.of_nat k)])
        with ((fun i : nat => v (Z.of_nat i)) <$> seq 0 (S k))
        by (by rewrite seq_S, fmap_app).
      rewrite IH by lia.
      by replace (S k + m)%nat with (k + S m)%nat by lia.
    + unfold CInt.add. rewrite wrap_in_range; [lia|].
      unfold CInt.in_range, CInt.INT_MIN, CInt.INT_MAX in *. lia.
Qed.

(** [create_rand_nums] succeeds for a count that is not negative when
    its allocation does, and leaves nothing of what the fresh block held. *)
Lemma create_rand_nums_runs (seed num_elements : Z) :
  0 <= num_elements <= CInt.INT_MAX ->
  malloc_succeeds env Alloc_rand_nums (sizeof_float * num_elements) = true ->
  create_rand_nums env seed num_elements
  = Running [] (generated env seed num_elements).
Proof.
  intros Hn Hok. unfold create_rand_nums, malloc_assert.
  destruct (decide (0 <= num_elements)) as [_|?]; [|lia].
  rewrite Hok.
  unfold for_loop. change 0 with (Z.of_nat 0).
  pose proof (fill_rounds
                (fun i => f_div (f_of_int (rand env seed i))
                            (f_of_int (RAND_MAX env)))
                (junk_float env <$> seq 0 (Z.to_nat num_elements))
                (Z.to_nat num_elements) 0) as Hfill.
  rewrite drop_0 in Hfill. simpl in Hfill. simpl.
  rewrite Hfill by solve_length.
  rewrite drop_ge by solve_length. by rewrite app_nil_r.
Qed.

(** With every allocation granted, a count that is not negative and at
    least one rank, each rank comes to [MPI_Scatterv] holding the
    partitioner's plan, and the root the generated array. *)
Lemma before_scatterv_runs (total rank : Z) :
  allocations_succeed env ->
  0 <= total <= CInt.INT_MAX ->
  1 <= world_size env <= CInt.INT_MAX ->
  0 <= rank < world_size env ->
  exists count,
    load (plan_counts total (world_size env)) rank = Some count
    /\ 0 <= count
    /\ before_scatterv env total rank
       = Running [Srand (seed_of env rank); Mpi_Init]
           (if decide (rank = 0) then generated env (seed_of env rank) total
            else [],
            plan_counts total (world_size env),
            plan_displs total (world_size env), count).
Proof.
  intros Hok Ht Hn Hr.
  remember (world_size env) as n eqn:En.
  pose proof (plan_valid total n ltac:(lia) ltac:(lia))
    as (_ & _ & _ & Hpos).
  destruct (lookup_lt_is_Some_2 (plan_counts total n) (Z.to_nat rank))
    as [c Hc]; [rewrite plan_counts_length; lia|].
  assert (Hload : load (plan_counts total n) rank = Some c).
  { rewrite <- (Z2Nat.id rank) by lia. by rewrite load_nat. }
  pose proof (Forall_lookup_1 _ _ _ _ Hpos Hc) as Hc0. simpl in Hc0.
  exists c. split_and!; [done..|].
  unfold before_scatterv, malloc_assert. rewrite <- En.
  destruct (decide (0 <= n)) as [_|?]; [|lia].
  destruct (decide (0 <= c)) as [_|?]; [|lia].
  rewrite !Hok.
  assert (Hsplit : split_num_between_processes total n
                     (junk_int env <$> seq 0 (Z.to_nat n))
                     (junk_int env <$> seq 0 (Z.to_nat n))
                   = Some (plan_counts total n, plan_displs total n)).
  { apply split_closed_form; rewrite ?length_fmap, ?length_seq; lia. }
  destruct (decide (rank = 0)) as [->|Hne].
  - rewrite create_rand_nums_runs by (done || apply Hok).
    simpl. rewrite Hsplit. simpl. rewrite Hload. simpl.
    destruct (decide (0 <= c)) as [_|?]; [|lia]. by rewrite Hok.
  - simpl. rewrite Hsplit. simpl. rewrite Hload. simpl.
    destruct (decide (0 <= c)) as [_|?]; [|lia]. by rewrite Hok.
Qed.

Lemma everyone_enters_scatterv (total : Z) :
  allocations_succeed env ->
  0 <= total <= CInt.INT_MAX ->
  1 <= world_size env <= CInt.INT_MAX ->
  all_enter_scatterv env total = true.
Proof.
  intros Hok Ht Hn. unfold all_enter_scatterv.
  apply forallb_forall. intros rank Hrank.
  apply list_elem_of_In, elem_of_seqZ in Hrank.
  destruct (before_scatterv_runs total rank) as (c & _ & _ & ->);
    [done | done | done | lia |]. done.
Qed.

(** The whole run of a rank when nothing fails: the scatter, the gather,
    at the root the two printed lines, the barrier. *)
Lemma rank_trace (argv : list string) (arg : string) (rank : Z) :
  argv !! 1%nat = Some arg ->
  allocations_succeed env ->
  0 <= atoi env arg <= CInt.INT_MAX ->
  1 <= world_size env <= CInt.INT_MAX ->
  0 <= rank < world_size env ->
  exists count slice sub_avg avg original_data_avg,
    load (plan_counts (atoi env arg) (world_size env)) rank = Some count
    /\ MPI_Scatterv (generated env (seed_of env 0) (atoi env arg))
         (plan_counts (atoi env arg) (world_size env))
         (plan_displs (atoi env arg) (world_size env)) rank
       = Some slice
    /\ length slice = Z.to_nat count
    /\ compute_avg slice count = Some sub_avg
    /\ global_average (generated env (seed_of env 0) (atoi env arg))
         (plan_counts (atoi env arg) (world_size env))
         (plan_displs (atoi env arg) (world_size env)) (world_size env)
       = Some avg
    /\ compute_avg (generated env (seed_of env 0) (atoi env arg))
         (atoi env arg)
       = Some original_data_avg
    /\ main env 2 argv rank
       = Running
           ([Srand (seed_of env rank); Mpi_Init; Mpi_Scatterv slice;
             Mpi_Gather sub_avg]
            ++ (if decide (rank = 0) then
                  [Printf ("Avg of all elements is %f" ++ newline) avg;
                   Printf
                     ("Avg computed across original data is %f" ++ newline)
                     original_data_avg]
                else [])
            ++ [Mpi_Barrier; Mpi_Finalize])
           0.
Proof.
  intros Harg Hok Ht Hn Hr.
  destruct (before_scatterv_runs (atoi env arg) rank Hok Ht Hn Hr)
    as (c & Hload & Hc0 & Hbefore).
  pose proof (everyone_enters_scatterv (atoi env arg) Hok Ht Hn) as Hall.
  remember (atoi env arg) as total eqn:Etotal.
  remember (world_size env) as n eqn:En.
  remember (generated env (seed_of env 0) total) as g eqn:Eg.
  assert (Hg : Z.of_nat (length g) = total).
  { rewrite Eg. unfold generated. rewrite length_fmap, length_seq. lia. }
  pose proof (plan_valid total n ltac:(lia) ltac:(lia)) as Hvalid.
  rewrite <- Hg in Hvalid at 1.
  assert (Hlen : length (plan_counts total n) = Z.to_nat n)
    by (apply plan_counts_length; lia).
  assert (Hc : plan_counts total n !! Z.to_nat rank = Some c).
  { rewrite <- (Z2Nat.id rank) in Hload by lia. by rewrite load_nat in Hload. }
  destruct (lookup_lt_is_Some_2 (chunks (plan_counts total n) g)
              (Z.to_nat rank)) as [slice Hslice];
    [rewrite length_chunks; lia|].
  pose proof (scatterv_valid g _ _ (Z.to_nat rank) Hvalid ltac:(lia))
    as [Hscatter _].
  pose proof (sub_avg_valid g _ _ (Z.to_nat rank) c slice Hvalid ltac:(lia)
                Hc Hslice) as Hsub.
  pose proof (chunk_length g _ _ _ _ _ Hvalid Hc Hslice) as Hslen.
  rewrite Z2Nat.id in Hscatter, Hsub by lia. rewrite Hslice in Hscatter.
  unfold sub_avg_of_rank in Hsub. rewrite Hscatter, Hload in Hsub.
  simpl in Hsub.
  pose proof (global_average_valid g _ _ Hvalid ltac:(lia) ltac:(lia))
    as Hglobal.
  rewrite Hlen, Z2Nat.id in Hglobal by lia.
  pose proof (compute_avg_formula g total ltac:(lia) ltac:(lia)) as Havg.
  eexists c, slice, _, _, _.
  split_and!; [done | done | done | exact Hsub | exact Hglobal
              | exact Havg |].
  unfold main. destruct (decide (2 <> 2)) as [?|_]; [done|].
  rewrite Harg. simpl. rewrite <- Etotal, Hbefore. simpl.
  unfold scatterv_at. rewrite Hall.
  unfold gather_at, malloc_assert. rewrite <- En.
  destruct (decide (0 <= n)) as [_|?]; [|lia]. rewrite !Hok.
  destruct (decide (rank = 0)) as [->|Hne].
  - rewrite <- Eg. rewrite Hscatter. simpl. rewrite Hsub. simpl.
    unfold global_average in Hglobal.
    destruct (partial_averages g (plan_counts total n) (plan_displs total n)
                n) as [sub_avgs|]; [|done].
    simpl in *. rewrite Hglobal. simpl. rewrite Havg. simpl. done.
  - unfold root_rand_nums.
    rewrite create_rand_nums_runs, <- Eg by (done || apply Hok).
    rewrite Hscatter. simpl. rewrite Hsub. simpl. done.
Qed.

End Run.

(** ** More workers than elements *)




(** * Further properties of the code *)

(** ** Loops that run off their array *)

(** A loop whose round [k + a] has no defined result has none itself, once
    it is asked for more than [a] rounds from [k]. *)
Lemma for_from_fail {St : Type} (body : Z -> St -> option St) (a : nat) :
  forall (k : nat) (s s' : St) (b : nat),
    for_from (Z.of_nat k) a body s = Some s' ->
    Z.of_nat (k + a) <= CInt.INT_MAX ->
    body (Z.of_nat (k + a)) s' = None ->
    for_from (Z.of_nat k) (a + S b) body s = None.
Proof.
  induction a as [|a IH]; intros k s s' b Hrun Hmax Hfail.
  - simpl in *. injection Hrun as ->.
    rewrite Nat.add_0_r in Hfail. by rewrite Hfail.
  - simpl in *. destruct (body (Z.of_nat k) s) as [s1|]; [|done].
    simpl in *.
    replace (CInt.add (Z.of_nat k) 1) with (Z.of_nat (S k)) in *.
    + apply (IH (S k) s1 s' b Hrun); [lia|].
      by replace (S k + a)%nat with (k + S a)%nat by lia.
    + unfold CInt.add. rewrite wrap_in_range; [lia|].
      unfold CInt.in_range, CInt.INT_MIN, CInt.INT_MAX in *. lia.
Qed.

Lemma for_loop_out_of_bounds {St A : Type} (l : list A)
    (body : Z -> St -> option St) (step : St -> A -> St) (bound : Z) (s : St) :
  (forall (i : nat) x s, l !! i = Some x ->
     body (Z.of_nat i) s = Some (step s x)) ->
  (forall s, body (Z.of_nat (length l)) s = None) ->
  (length l < Z.to_nat bound)%nat -> bound <= CInt.INT_MAX ->
  for_loop bound body s = None.
Proof.
  intros Hbody Hend Hlen Hmax. unfold for_loop.
  replace (Z.to_nat bound) with (length l + S (Z.to_nat bound - length l - 1))%nat
    by lia.
  change 0 with (Z.of_nat 0).
  eapply for_from_fail.
  - apply (for_from_foldl l body step Hbody);
      unfold CInt.INT_MAX in *; simpl; lia.
  - unfold CInt.INT_MAX in *. simpl. lia.
  - simpl. apply Hend.
Qed.

Lemma load_end {A : Type} (l : list A) : load l (Z.of_nat (length l)) = None.
Proof. rewrite load_nat. by apply lookup_ge_None_2. Qed.

(** ** [compute_avg] *)

(** X1. [compute_avg] returns the sum of the first [num_elements] entries
    of the array, taken from the left starting from zero, divided by
    [num_elements] converted to the type of the values; for a count that is
    not positive it reads nothing and divides zero by the count. *)
Theorem compute_avg_is_formula {F : Type} `{FloatArith F} (array : list F)
    (num_elements : Z) :
  (Z.to_nat num_elements <= length array)%nat ->
  num_elements <= CInt.INT_MAX ->
  compute_avg array num_elements
  = Some (f_div (foldl f_add f_zero (take (Z.to_nat num_elements) array))
            (f_of_int num_elements))
  /\ (num_elements <= 0 ->
      compute_avg array num_elements
      = Some (f_div f_zero (f_of_int num_elements))).
Proof.
  intros Hlen Hmax. rewrite compute_avg_formula by done. split; [done|].
  intros Hn. by replace (Z.to_nat num_elements) with 0%nat by lia.
Qed.

Lemma compute_avg_is_formula_witness :
  compute_avg [Qc_of_Z 3; Qc_of_Z 5; Qc_of_Z 100] 2
  = Some (f_div (foldl f_add f_zero
                   (take (Z.to_nat 2) [Qc_of_Z 3; Qc_of_Z 5; Qc_of_Z 100]))
            (f_of_int 2))
  /\ (2 <= 0 ->
      compute_avg [Qc_of_Z 3; Qc_of_Z 5; Qc_of_Z 100] 2
      = Some (f_div f_zero (f_of_int 2))).
Proof.
  apply (compute_avg_is_formula [Qc_of_Z 3; Qc_of_Z 5; Qc_of_Z 100] 2);
    [simpl; lia | unfold CInt.INT_MAX; lia].
Defined.

(** X2. [compute_avg] reads exactly the entries below [num_elements]: its
    result is defined if and only if the array has at least that many. *)
Theorem compute_avg_defined_iff {F : Type} `{FloatArith F} (array : list F)
    (num_elements : Z) :
  num_elements <= CInt.INT_MAX ->
  is_Some (compute_avg array num_elements)
  <-> (Z.to_nat num_elements <= length array)%nat.
Proof.
  intros Hmax. split.
  - intros [r Hr].
    destruct (decide (Z.to_nat num_elements <= length array)%nat)
      as [|Hshort]; [done|].
    unfold compute_avg in Hr.
    rewrite (for_loop_out_of_bounds array _ f_add) in Hr; [done| | |lia|done].
    + intros i x s Hx. by rewrite load_nat, Hx.
    + intros s. by rewrite load_end.
  - intros Hlen. rewrite compute_avg_formula by done. by eexists.
Qed.

Lemma compute_avg_defined_iff_witness :
  is_Some (compute_avg [Qc_of_Z 3; Qc_of_Z 5] 3)
  <-> (Z.to_nat 3 <= length [Qc_of_Z 3; Qc_of_Z 5])%nat.
Proof.
  apply (compute_avg_defined_iff [Qc_of_Z 3; Qc_of_Z 5] 3).
  unfold CInt.INT_MAX; lia.
Defined.

(** ** [compute_weighted_avg] *)

(** X3. [compute_weighted_avg] reads exactly the entries below
    [num_elements] of both arrays: its result is defined if and only if
    each of the two has at least that many. *)
Theorem compute_weighted_avg_defined_iff {F : Type} `{FloatArith F}
    (array : list F) (weights_array : list Z) (num_elements : Z) :
  num_elements <= CInt.INT_MAX ->
  is_Some (compute_weighted_avg array weights_array num_elements)
  <-> (Z.to_nat num_elements <= length array)%nat
      /\ (Z.to_nat num_elements <= length weights_array)%nat.
Proof.
  intros Hmax. split.
  - intros [r Hr].
    destruct (decide ((Z.to_nat num_elements <= length array)%nat
                      /\ (Z.to_nat num_elements <= length weights_array)%nat))
      as [|Hshort]; [done|].
    unfold compute_weighted_avg in Hr.
    rewrite (for_loop_out_of_bounds (zip weights_array array) _ weighted_step)
      in Hr; [done| | | |done].
    + intros i [w x] [s sw] Hwx.
      apply lookup_zip_with_Some in Hwx as (w' & x' & [= <- <-] & Hw' & Hx').
      unfold weighted_body. by rewrite !load_nat, Hw', Hx'.
    + intros [s sw]. unfold weighted_body. rewrite !load_nat.
      rewrite length_zip_with.
      destruct (decide (length weights_array <= length array)%nat).
      * rewrite Nat.min_l by lia.
        by rewrite (lookup_ge_None_2 weights_array) by lia.
      * rewrite Nat.min_r by lia.
        destruct (weights_array !! length array); [|done]. simpl.
        by rewrite (lookup_ge_None_2 array) by lia.
    + rewrite length_zip_with. lia.
  - intros [Ha Hw]. rewrite compute_weighted_avg_formula by done. by eexists.
Qed.

Lemma compute_weighted_avg_defined_iff_witness :
  is_Some (compute_weighted_avg [Qc_of_Z 3; Qc_of_Z 5] [1; 2; 3] 3)
  <-> (Z.to_nat 3 <= length [Qc_of_Z 3; Qc_of_Z 5])%nat
      /\ (Z.to_nat 3 <= length [1; 2; 3])%nat.
Proof.
  apply (compute_weighted_avg_defined_iff [Qc_of_Z 3; Qc_of_Z 5] [1; 2; 3] 3).
  unfold CInt.INT_MAX; lia.
Defined.

(** Sums of binary32 terms that are all zero or NaN. *)
Lemma binary32_zero_weight_sum (weights : list Z)
    (values : list Binary32.float32) (a : Binary32.float32) :
  Forall (fun w => w = 0) weights ->
  a = Binary32.zero \/ a = Binary32.nan ->
  foldl Binary32.add a
    (zip_with (fun w v => Binary32.mul (Binary32.of_int w) v) weights values)
  = Binary32.zero
  \/ foldl Binary32.add a
       (zip_with (fun w v => Binary32.mul (Binary32.of_int w) v) weights
          values)
     = Binary32.nan.
Proof.
  intros Hzero. revert values a.
  induction Hzero as [|w weights -> Hzero IH]; intros values a Ha.
  - done.
  - destruct values as [|v values]; [done|]. simpl. apply IH.
    destruct Ha as [-> | ->].
    + destruct v as [[|]|[|]| |[|] m e]; auto.
    + by right.
Qed.

Lemma binary32_zero_weights_total (weights : list Z) :
  Forall (fun w => w = 0) weights ->
  foldl Binary32.add Binary32.zero (Binary32.of_int <$> weights)
  = Binary32.zero.
Proof. induction 1 as [|w weights -> Hzero IH]; [done|]. simpl. exact IH. Qed.

(** X4. In binary32, when every weight that [compute_weighted_avg] reads is
    zero (in particular when it reads none), the result is NaN, whatever the
    values are: the division is 0/0 or NaN/0, and nothing reports it. *)
Theorem zero_weights_give_nan (array : list Binary32.float32)
    (weights_array : list Z) (num_elements : Z) :
  (Z.to_nat num_elements <= length array)%nat ->
  (Z.to_nat num_elements <= length weights_array)%nat ->
  num_elements <= CInt.INT_MAX ->
  Forall (fun w => w = 0) (take (Z.to_nat num_elements) weights_array) ->
  compute_weighted_avg array weights_array num_elements = Some Binary32.nan.
Proof.
  intros Ha Hw Hmax Hzero.
  rewrite compute_weighted_avg_formula by done. f_equal.
  unfold weighted_mean_formula, fsum. simpl.
  rewrite (binary32_zero_weights_total _ Hzero).
  destruct (binary32_zero_weight_sum _
              (take (Z.to_nat num_elements) array) Binary32.zero Hzero)
    as [-> | ->]; auto.
Qed.

Lemma zero_weights_give_nan_witness :
  compute_weighted_avg [Binary32.of_int 3; Binary32.of_int 5] [0; 0; 7] 2
  = Some Binary32.nan.
Proof.
  apply (zero_weights_give_nan [Binary32.of_int 3; Binary32.of_int 5]
           [0; 0; 7] 2);
    [simpl; lia | simpl; lia | unfold CInt.INT_MAX; lia
    | repeat constructor].
Defined.

Lemma exact_equal_weight_sum (c : Z) (values : list Qc) :
  fsum (zip_with (fun w v => f_mul (f_of_int w) v)
          (replicate (length values) c) values)
  = (Qc_of_Z c * fsum values)%Qc.
Proof.
  induction values as [|v values IH].
  - unfold fsum. simpl. ring.
  - cbn [length replicate zip_with].
    rewrite !fsum_cons_exact, IH. simpl. ring.
Qed.

(** X5. Without rounding (over the rationals), [compute_weighted_avg] with
    all weights equal and not zero returns the plain average that
    [compute_avg] returns on the same values: the weighted average is the
    average of the averages exactly when the shares are equal. *)
Theorem equal_weights_plain_average (values : list Qc) (c num_elements : Z) :
  c <> 0 -> 1 <= num_elements <= CInt.INT_MAX ->
  length values = Z.to_nat num_elements ->
  compute_weighted_avg values (replicate (Z.to_nat num_elements) c)
    num_elements
  = compute_avg values num_elements.
Proof.
  intros Hc Hn Hlen.
  rewrite compute_weighted_avg_formula
    by (rewrite ?length_replicate; lia).
  rewrite compute_avg_formula by lia.
  rewrite !take_ge by (rewrite ?length_replicate; lia).
  unfold weighted_mean_formula. rewrite <- Hlen.
  rewrite exact_equal_weight_sum, exact_weights_sum, sum_Z_replicate.
  rewrite Z2Qc_inj_mul, Hlen, Z2Nat.id by lia. f_equal. simpl.
  assert (Qc_of_Z c <> 0%Qc) as Hqc.
  { rewrite <- Z2Qc_inj_0. by intros ?%Z2Qc_inj. }
  assert (Qc_of_Z num_elements <> 0%Qc) as Hqn.
  { rewrite <- Z2Qc_inj_0. intros ?%Z2Qc_inj. lia. }
  field. done.
Qed.

Lemma equal_weights_plain_average_witness :
  compute_weighted_avg [Qc_of_Z 3; Qc_of_Z 5; Qc_of_Z 10]
    (replicate (Z.to_nat 3) 4) 3
  = compute_avg [Qc_of_Z 3; Qc_of_Z 5; Qc_of_Z 10] 3.
Proof.
  apply (equal_weights_plain_average [Qc_of_Z 3; Qc_of_Z 5; Qc_of_Z 10] 4 3);
    [lia | unfold CInt.INT_MAX; lia | reflexivity].
Defined.

(** ** The partitioner on arrays of any length, and on any count *)

Lemma store_fail {A : Type} (l : list A) (i : nat) (x : A) :
  (length l <= i)%nat -> store l (Z.of_nat i) x = None.
Proof.
  intros Hi. unfold store. destruct (decide _) as [Hin|_]; [lia|done].
Qed.

Lemma split_round_any total n counts0 displs0 (k : nat) :
  2 <= n -> (k < length counts0)%nat -> (k < length displs0)%nat ->
  split_body total n (Z.of_nat k)
    (split_state_after (Z.quot total n) counts0 displs0 k)
  = Some (split_state_after (Z.quot total n) counts0 displs0 (S k)).
Proof.
  intros Hn Hc Hd. rewrite split_state_after_S.
  unfold split_body, split_state_after.
  cbn [st_displacements st_num_elements_by_process st_element_position].
  rewrite store_prefix by solve_length.
  unfold CInt.div.
  destruct (decide (n = 0)) as [->|_]; [lia|].
  destruct (decide (total = CInt.INT_MIN /\ n = -1)) as [[_ ->]|_]; [lia|].
  cbn [mbind option_bind].
  rewrite store_prefix by solve_length.
  done.
Qed.

Lemma split_rounds_any total n counts0 displs0 (m k : nat) :
  n <= CInt.INT_MAX -> (k + m < Z.to_nat n)%nat ->
  (k + m <= length counts0)%nat -> (k + m <= length displs0)%nat ->
  for_from (Z.of_nat k) m (split_body total n)
    (split_state_after (Z.quot total n) counts0 displs0 k)
  = Some (split_state_after (Z.quot total n) counts0 displs0 (k + m)).
Proof.
  intros Hmax. revert k. induction m as [|m IH]; intros k Hk Hc Hd.
  - by rewrite Nat.add_0_r.
  - simpl. rewrite split_round_any by lia. simpl.
    replace (CInt.add (Z.of_nat k) 1) with (Z.of_nat (S k)).
    + rewrite IH by lia. do 2 f_equal. lia.
    + unfold CInt.add. rewrite wrap_in_range; [lia|].
      unfold CInt.in_range, CInt.INT_MIN, CInt.INT_MAX in *. lia.
Qed.

Lemma sub_one n : CInt.INT_MIN < n <= CInt.INT_MAX -> CInt.sub n 1 = n - 1.
Proof.
  intros Hn. unfold CInt.sub. apply wrap_in_range.
  unfold CInt.in_range, CInt.INT_MIN, CInt.INT_MAX in *. lia.
Qed.

(** On arrays of at least [n] entries the partitioner writes the first [n]
    of each and leaves the others as they were. *)
Lemma split_frame total n counts0 displs0 :
  1 <= n <= CInt.INT_MAX ->
  (Z.to_nat n <= length counts0)%nat -> (Z.to_nat n <= length displs0)%nat ->
  split_num_between_processes total n counts0 displs0
  = Some (fst (split_result total n) ++ drop (Z.to_nat n) counts0,
          snd (split_result total n) ++ drop (Z.to_nat n) displs0).
Proof.
  intros Hn Hc Hd. unfold split_num_between_processes, for_loop.
  rewrite sub_one by (unfold CInt.INT_MIN; lia).
  pose proof (split_rounds_any total n counts0 displs0 (Z.to_nat (n - 1)) 0)
    as Hloop.
  change (Z.of_nat 0) with 0 in Hloop. rewrite Nat.add_0_l in Hloop.
  change (split_state_after (Z.quot total n) counts0 displs0 0)
    with (SplitState counts0 displs0 0) in Hloop.
  rewrite Hloop by lia. clear Hloop. unfold split_state_after, split_result.
  cbn [mbind option_bind st_displacements st_num_elements_by_process
       st_element_position fst snd].
  assert (Hlen : Z.to_nat n = S (Z.to_nat (n - 1))) by lia.
  rewrite Hlen in *.
  remember (Z.to_nat (n - 1)) as m eqn:Em.
  assert (Hm : n - 1 = Z.of_nat m) by lia. rewrite Hm.
  rewrite store_prefix by solve_length.
  cbn [mbind option_bind].
  rewrite store_prefix by solve_length.
  cbn [mbind option_bind].
  by rewrite seq_S, fmap_app.
Qed.

Lemma length_split_result total n :
  length (fst (split_result total n)) = S (Z.to_nat (n - 1))
  /\ length (snd (split_result total n)) = S (Z.to_nat (n - 1)).
Proof.
  unfold split_result. cbn [fst snd]. split.
  - rewrite length_app, length_replicate. simpl. lia.
  - by rewrite length_fmap, length_seq.
Qed.

(** X6. Given output arrays longer than [num_bins], the partitioner writes
    the first [num_bins] entries of each, with what it writes into arrays
    of exactly that length, and leaves every later entry as it was. *)
Theorem partitioner_writes_first_bins total n counts0 displs0 :
  1 <= n <= CInt.INT_MAX ->
  (Z.to_nat n <= length counts0)%nat -> (Z.to_nat n <= length displs0)%nat ->
  exists counts displs,
    length counts = Z.to_nat n /\ length displs = Z.to_nat n
    /\ split_num_between_processes total n
         (take (Z.to_nat n) counts0) (take (Z.to_nat n) displs0)
       = Some (counts, displs)
    /\ split_num_between_processes total n counts0 displs0
       = Some (counts ++ drop (Z.to_nat n) counts0,
               displs ++ drop (Z.to_nat n) displs0).
Proof.
  intros Hn Hc Hd.
  exists (fst (split_result total n)), (snd (split_result total n)).
  destruct (length_split_result total n) as [Hl1 Hl2].
  split_and!.
  - lia.
  - lia.
  - rewrite split_returns by (rewrite ?length_take; lia).
    by destruct (split_result total n).
  - by apply split_frame.
Qed.

Lemma partitioner_writes_first_bins_witness :
  exists counts displs,
    length counts = Z.to_nat 2 /\ length displs = Z.to_nat 2
    /\ split_num_between_processes 7 2
         (take (Z.to_nat 2) [9; 9; 9; 9]) (take (Z.to_nat 2) [8; 8; 8])
       = Some (counts, displs)
    /\ split_num_between_processes 7 2 [9; 9; 9; 9] [8; 8; 8]
       = Some (counts ++ drop (Z.to_nat 2) [9; 9; 9; 9],
               displs ++ drop (Z.to_nat 2) [8; 8; 8]).
Proof.
  apply (partitioner_writes_first_bins 7 2 [9; 9; 9; 9] [8; 8; 8]);
    [unfold CInt.INT_MAX; lia | simpl; lia | simpl; lia].
Defined.

Lemma split_short total n counts0 displs0 :
  1 <= n <= CInt.INT_MAX ->
  (length counts0 < Z.to_nat n)%nat \/ (length displs0 < Z.to_nat n)%nat ->
  split_num_between_processes total n counts0 displs0 = None.
Proof.
  intros Hn Hshort. unfold split_num_between_processes, for_loop.
  rewrite sub_one by (unfold CInt.INT_MIN; lia).
  set (L := Nat.min (length counts0) (length displs0)).
  assert (HL : (L < Z.to_nat n)%nat) by (unfold L; lia).
  assert (Hfail : forall k, (k < Z.to_nat n)%nat -> k = L ->
            store ((position_after (Z.quot total n) <$> seq 0 k)
                     ++ drop k displs0) (Z.of_nat k)
              (position_after (Z.quot total n) k) = None
            \/ store (replicate k (Z.quot total n) ++ drop k counts0)
                 (Z.of_nat k) (Z.quot total n) = None
               /\ forall x, store (replicate k (Z.quot total n)
                                     ++ drop k counts0) (Z.of_nat k) x = None).
  { intros k Hk ->.
    destruct (decide (length displs0 <= L)%nat) as [Hd|Hd].
    - left. apply store_fail. solve_length.
    - right. split; [|intros x]; apply store_fail; unfold L in *;
        solve_length. }
  destruct (decide (L < Z.to_nat (n - 1))%nat) as [Hin|Hlast].
  - replace (Z.to_nat (n - 1))
      with (L + S (Z.to_nat (n - 1) - L - 1))%nat by lia.
    change 0 with (Z.of_nat 0).
    erewrite for_from_fail; [done| | |].
    + apply (split_rounds_any total n counts0 displs0 L 0);
        unfold L; lia.
    + unfold CInt.INT_MAX in *. simpl. lia.
    + simpl. unfold split_body, split_state_after.
      cbn [st_displacements st_num_elements_by_process st_element_position].
      destruct (Hfail L HL eq_refl) as [-> | [Hc _]]; [done|].
      match goal with
      | |- store ?a ?i ?x ≫= _ = None => destruct (store a i x); [|done]
      end.
      simpl.
      unfold CInt.div.
      destruct (decide (n = 0)) as [->|_]; [lia|].
      destruct (decide (total = CInt.INT_MIN /\ n = -1)) as [[_ ->]|_];
        [lia|].
      simpl. by rewrite Hc.
  - assert (HLm : L = Z.to_nat (n - 1)) by lia.
    pose proof (split_rounds_any total n counts0 displs0 L 0) as Hloop.
    change (Z.of_nat 0) with 0 in Hloop. rewrite Nat.add_0_l in Hloop.
    change (split_state_after (Z.quot total n) counts0 displs0 0)
      with (SplitState counts0 displs0 0) in Hloop.
    rewrite <- HLm. rewrite Hloop by (unfold L; lia).
    unfold split_state_after.
    cbn [mbind option_bind st_displacements st_num_elements_by_process
         st_element_position].
    replace (n - 1) with (Z.of_nat L) by lia.
    destruct (Hfail L HL eq_refl) as [-> | [_ Hc]]; [done|].
    match goal with
    | |- store ?a ?i ?x ≫= _ = None => destruct (store a i x); [|done]
    end.
    simpl. by rewrite Hc.
Qed.

(** X7. For [num_bins >= 1] the partitioner writes entries [0] to
    [num_bins - 1] of both arrays and no other: its result is defined if
    and only if each array has at least [num_bins] entries. *)
Theorem partitioner_defined_iff total n counts0 displs0 :
  1 <= n <= CInt.INT_MAX ->
  is_Some (split_num_between_processes total n counts0 displs0)
  <-> (Z.to_nat n <= length counts0)%nat
      /\ (Z.to_nat n <= length displs0)%nat.
Proof.
  intros Hn. split.
  - intros [r Hr].
    destruct (decide ((Z.to_nat n <= length counts0)%nat
                      /\ (Z.to_nat n <= length displs0)%nat))
      as [|Hshort]; [done|].
    rewrite split_short in Hr by (done || lia). done.
  - intros [Hc Hd]. rewrite split_frame by done. by eexists.
Qed.

Lemma partitioner_defined_iff_witness :
  is_Some (split_num_between_processes 7 3 [0; 0; 0] [0; 0])
  <-> (Z.to_nat 3 <= length [0; 0; 0])%nat
      /\ (Z.to_nat 3 <= length [0; 0])%nat.
Proof.
  apply (partitioner_defined_iff 7 3 [0; 0; 0] [0; 0]).
  unfold CInt.INT_MAX; lia.
Defined.

(** X8. With no bin, or a negative number of bins, the partitioner skips
    its loop and writes at index [num_bins - 1], which is before the start
    of the arrays: the call has no defined result, whatever the arrays. *)
Theorem partitioner_without_bins total n counts0 displs0 :
  CInt.INT_MIN < n <= 0 ->
  split_num_between_processes total n counts0 displs0 = None.
Proof.
  intros Hn. unfold split_num_between_processes, for_loop.
  rewrite sub_one by (unfold CInt.INT_MAX; lia).
  replace (Z.to_nat (n - 1)) with 0%nat by lia. simpl.
  assert (Hstore : forall (l : list Z) x, store l (n - 1) x = None).
  { intros l x. unfold store. destruct (decide _) as [?|_]; [lia|done]. }
  by rewrite !Hstore.
Qed.

Lemma partitioner_without_bins_witness :
  split_num_between_processes 10 0 [1; 2] [3; 4] = None.
Proof.
  apply (partitioner_without_bins 10 0 [1; 2] [3; 4]).
  unfold CInt.INT_MIN; lia.
Defined.

Lemma position_after_mul_any q k :
  CInt.in_range (Z.of_nat k * q) -> position_after q k = Z.of_nat k * q.
Proof.
  induction k as [|k IH]; intros Hk; [reflexivity|].
  assert (CInt.in_range (Z.of_nat k * q)) as Hk'.
  { unfold CInt.in_range, CInt.INT_MIN, CInt.INT_MAX in *. nia. }
  unfold position_after in *. rewrite Nat.iter_succ, IH by done.
  unfold CInt.add. rewrite wrap_in_range; [lia|].
  unfold CInt.in_range, CInt.INT_MIN, CInt.INT_MAX in *. nia.
Qed.

Lemma positions_mul_any q k :
  CInt.in_range (Z.of_nat k * q) ->
  position_after q <$> seq 0 (S k)
  = (fun i : nat => Z.of_nat i * q) <$> seq 0 (S k).
Proof.
  induction k as [|k IH]; intros Hk; [reflexivity|].
  assert (CInt.in_range (Z.of_nat k * q)) as Hk'.
  { unfold CInt.in_range, CInt.INT_MIN, CInt.INT_MAX in *. nia. }
  rewrite (seq_S (S k)), !fmap_app, IH by done.
  change (0 + S k)%nat with (S k). f_equal.
  cbn [fmap list_fmap]. by rewrite position_after_mul_any by done.
Qed.

Lemma quot_share_in_range total n k :
  CInt.in_range total -> 1 <= n -> 0 <= k <= n ->
  CInt.in_range (k * Z.quot total n)
  /\ CInt.in_range (total - k * Z.quot total n)
  /\ (total < 0 -> Z.quot total n <= 0
                   /\ total - (n - 1) * Z.quot total n <= 0).
Proof.
  intros Ht Hn Hk.
  pose proof (Z.quot_rem' total n) as Hqr.
  unfold CInt.in_range, CInt.INT_MIN, CInt.INT_MAX in *.
  destruct (decide (0 <= total)) as [Hpos|Hneg].
  - pose proof (Z.rem_bound_pos total n ltac:(lia) ltac:(lia)) as Hr.
    assert (0 <= Z.quot total n) by (apply Z.quot_pos; lia).
    split; [nia|]. split; [nia|]. lia.
  - clear Hqr.
    pose proof (Z.quot_rem' (- total) n) as Hqr.
    pose proof (Z.rem_bound_pos (- total) n ltac:(lia) ltac:(lia)) as Hr.
    assert (0 <= Z.quot (- total) n) by (apply Z.quot_pos; lia).
    assert (Z.quot total n = - Z.quot (- total) n) as ->.
    { rewrite <- (Z.opp_involutive total) at 1. apply Z.quot_opp_l. lia. }
    split; [nia|]. split; [nia|]. intros _. split; [lia|]. nia.
Qed.

(** X9. For every [int] count, negative ones included (the program takes
    what [atoi] returns), and every [num_bins >= 1], the partitioner's
    arithmetic never leaves the range of [int]: it returns shares that sum to
    the count, with offsets that are the running totals; for a negative
    count no share is positive. *)
Theorem partition_of_any_count total n counts0 displs0 :
  CInt.in_range total -> 1 <= n <= CInt.INT_MAX ->
  length counts0 = Z.to_nat n -> length displs0 = Z.to_nat n ->
  exists counts displs,
    split_num_between_processes total n counts0 displs0
    = Some (counts, displs)
    /\ sum_Z counts = total
    /\ (forall i, 0 <= i < n ->
          load displs i = Some (sum_Z (take (Z.to_nat i) counts)))
    /\ (total < 0 -> forall i c, load counts i = Some c -> c <= 0).
Proof.
  intros Ht Hn Hc Hd.
  rewrite split_returns by done. unfold split_result.
  set (q := Z.quot total n). set (m := Z.to_nat (n - 1)).
  assert (Hm : Z.of_nat m = n - 1) by (unfold m; lia).
  destruct (quot_share_in_range total n (n - 1)) as (Hr1 & Hr2 & Hneg);
    [done | lia | lia |]. fold q in Hr1, Hr2, Hneg.
  rewrite <- Hm in Hr1, Hr2.
  rewrite positions_mul_any, position_after_mul_any by done.
  unfold CInt.sub. rewrite wrap_in_range by done.
  eexists _, _. split_and!; [reflexivity | | |].
  - rewrite sum_Z_app, sum_Z_replicate. simpl. lia.
  - intros i Hi. rewrite <- (Z2Nat.id i) at 1 by lia.
    rewrite load_nat, list_lookup_fmap, lookup_seq_lt by lia. simpl.
    rewrite take_app_le by (rewrite length_replicate; lia).
    rewrite take_replicate, sum_Z_replicate. do 2 f_equal. lia.
  - intros Htneg i c Hic. destruct (Hneg Htneg) as [Hq Hlast].
    unfold load in Hic. destruct (decide (0 <= i)) as [_|?]; [|done].
    apply lookup_app_Some in Hic as [Hic | [_ Hic]].
    + apply lookup_replicate in Hic as [-> _]. done.
    + apply list_lookup_singleton_Some in Hic as [_ <-]. lia.
Qed.

Lemma partition_of_any_count_witness :
  exists counts displs,
    split_num_between_processes (-7) 3 [0; 0; 0] [0; 0; 0]
    = Some (counts, displs)
    /\ sum_Z counts = -7
    /\ (forall i, 0 <= i < 3 ->
          load displs i = Some (sum_Z (take (Z.to_nat i) counts)))
    /\ (-7 < 0 -> forall i c, load counts i = Some c -> c <= 0).
Proof.
  apply (partition_of_any_count (-7) 3 [0; 0; 0] [0; 0; 0]);
    [unfold CInt.in_range, CInt.INT_MIN, CInt.INT_MAX; lia
    | unfold CInt.INT_MAX; lia | reflexivity | reflexivity].
Defined.

(** ** [create_rand_nums] *)

(** X10. For a count that is not negative, and provided [malloc] grants
    the [sizeof(float) * num_elements] bytes asked for, [create_rand_nums]
    fails no assertion and does nothing observable; it returns an array of
    exactly [num_elements] entries, entry [i] being the result of call [i]
    to [rand()] divided by [(float)RAND_MAX]: nothing of what the fresh
    block held is left. *)
Theorem create_rand_nums_fills {F : Type} `{FloatArith F}
    (env : environment F) (seed num_elements : Z) :
  0 <= num_elements <= CInt.INT_MAX ->
  malloc_succeeds env Alloc_rand_nums (sizeof_float * num_elements) = true ->
  exists rand_nums,
    create_rand_nums env seed num_elements = Running [] rand_nums
    /\ length rand_nums = Z.to_nat num_elements
    /\ (forall i, 0 <= i < num_elements ->
          load rand_nums i
          = Some (f_div (f_of_int (rand env seed i))
                    (f_of_int (RAND_MAX env)))).
Proof.
  intros Hn Hok. exists (generated env seed num_elements).
  split_and!.
  - by apply create_rand_nums_runs.
  - unfold generated. by rewrite length_fmap, length_seq.
  - intros i Hi. rewrite <- (Z2Nat.id i) at 1 by lia.
    rewrite load_nat. unfold generated.
    rewrite list_lookup_fmap, lookup_seq_lt by lia. simpl.
    by rewrite Z2Nat.id by lia.
Qed.

Lemma create_rand_nums_fills_witness :
  exists rand_nums,
    create_rand_nums (sample_env 4) 77 3 = Running [] rand_nums
    /\ length rand_nums = Z.to_nat 3
    /\ (forall i, 0 <= i < 3 ->
          load rand_nums i
          = Some (f_div (f_of_int (rand (sample_env 4) 77 i))
                    (f_of_int (RAND_MAX (sample_env 4))))).
Proof.
  apply (create_rand_nums_fills (sample_env 4) 77 3);
    [unfold CInt.INT_MAX; lia | reflexivity].
Defined.

(** X16. When [malloc] turns the request down, [create_rand_nums] ends in
    its failed assertion before any call to [rand()], whatever the count:
    a billion floats under a limit of one GiB, for one. *)
Theorem create_rand_nums_out_of_memory {F : Type} `{FloatArith F}
    (env : environment F) (seed num_elements : Z) :
  malloc_succeeds env Alloc_rand_nums (sizeof_float * num_elements) = false ->
  create_rand_nums env seed num_elements = Ended [Abort].
Proof.
  intros Hfail. unfold create_rand_nums, malloc_assert. rewrite Hfail.
  by destruct (decide (0 <= num_elements)).
Qed.

Lemma create_rand_nums_out_of_memory_witness :
  create_rand_nums (tight_env 1 (2 ^ 30)) 77 1000000000 = Ended [Abort].
Proof.
  apply (create_rand_nums_out_of_memory (tight_env 1 (2 ^ 30)) 77 1000000000).
  reflexivity.
Defined.

(** ** Scatter, local average, gather *)

(** X11. For the partitioner's plan and an array of [total] elements, every
    rank's slice has exactly the length of its count (the size of the
    buffer [main] allocates for it), every rank's [compute_avg] is defined,
    and what [MPI_Gather] leaves at the root is, in rank order, the sum of
    each slice from the left divided by its count. *)
Theorem gathered_partial_averages {F : Type} `{FloatArith F} (g : list F)
    total n counts0 displs0 :
  0 <= total <= CInt.INT_MAX -> 1 <= n <= CInt.INT_MAX ->
  length counts0 = Z.to_nat n -> length displs0 = Z.to_nat n ->
  Z.of_nat (length g) = total ->
  exists counts displs sub_avgs,
    split_num_between_processes total n counts0 displs0
    = Some (counts, displs)
    /\ partial_averages g counts displs n = Some sub_avgs
    /\ length sub_avgs = Z.to_nat n
    /\ (forall r, 0 <= r < n ->
          exists count slice,
            load counts r = Some count
            /\ MPI_Scatterv g counts displs r = Some slice
            /\ length slice = Z.to_nat count
            /\ load sub_avgs r
               = Some (f_div (foldl f_add f_zero slice) (f_of_int count))).
Proof.
  intros Ht Hn Hc Hd Hg.
  exists (plan_counts total n), (plan_displs total n),
    (chunk_means (plan_counts total n) g).
  pose proof (plan_valid total n ltac:(lia) ltac:(lia)) as Hvalid.
  rewrite <- Hg in Hvalid at 1.
  assert (Hlen : length (plan_counts total n) = Z.to_nat n)
    by (apply plan_counts_length; lia).
  split_and!.
  - by apply split_closed_form.
  - rewrite <- (partial_averages_valid g _ _ Hvalid) by lia.
    rewrite Hlen. f_equal. lia.
  - unfold chunk_means. rewrite length_zip_with, length_chunks. lia.
  - intros r Hr.
    destruct (lookup_lt_is_Some_2 (plan_counts total n) (Z.to_nat r))
      as [count Hcount]; [lia|].
    destruct (lookup_lt_is_Some_2 (chunks (plan_counts total n) g)
                (Z.to_nat r)) as [slice Hslice];
      [rewrite length_chunks; lia|].
    exists count, slice.
    rewrite <- (Z2Nat.id r) at 1 2 3 by lia. rewrite !load_nat.
    destruct (scatterv_valid g _ _ (Z.to_nat r) Hvalid) as [-> _]; [lia|].
    split_and!; [done | done | by eapply chunk_length |].
    unfold chunk_means. rewrite lookup_zip_with, Hcount, Hslice. done.
Qed.

Lemma gathered_partial_averages_witness :
  exists counts displs sub_avgs,
    split_num_between_processes 5 2 [0; 0] [0; 0] = Some (counts, displs)
    /\ partial_averages
         [Qc_of_Z 1; Qc_of_Z 2; Qc_of_Z 4; Qc_of_Z 8; Qc_of_Z 16]
         counts displs 2
       = Some sub_avgs
    /\ length sub_avgs = Z.to_nat 2
    /\ (forall r, 0 <= r < 2 ->
          exists count slice,
            load counts r = Some count
            /\ MPI_Scatterv
                 [Qc_of_Z 1; Qc_of_Z 2; Qc_of_Z 4; Qc_of_Z 8; Qc_of_Z 16]
                 counts displs r
               = Some slice
            /\ length slice = Z.to_nat count
            /\ load sub_avgs r
               = Some (f_div (foldl f_add f_zero slice) (f_of_int count))).
Proof.
  apply (gathered_partial_averages
           [Qc_of_Z 1; Qc_of_Z 2; Qc_of_Z 4; Qc_of_Z 8; Qc_of_Z 16]
           5 2 [0; 0] [0; 0]);
    [unfold CInt.INT_MAX; lia | unfold CInt.INT_MAX; lia | reflexivity..].
Defined.

(** ** The runs of [main] *)

(** X12. Started with one argument whose value is a count that is not
    negative, on at least one rank, and provided every allocation of every
    rank succeeds, the root fails no assertion and meets no undefined
    behaviour; it prints exactly two lines, first the weighted average of
    the partial averages, then the direct average of the array it
    generated, between its scatter and gather and the final barrier, and
    returns 0. *)
Theorem root_prints_both_averages {F : Type} `{FloatArith F}
    (env : environment F) (argv : list string) (arg : string) :
  argv !! 1%nat = Some arg ->
  allocations_succeed env ->
  0 <= atoi env arg <= CInt.INT_MAX ->
  1 <= world_size env <= CInt.INT_MAX ->
  exists slice sub_avg avg original_data_avg,
    MPI_Scatterv (generated env (seed_of env 0) (atoi env arg))
      (plan_counts (atoi env arg) (world_size env))
      (plan_displs (atoi env arg) (world_size env)) 0
    = Some slice
    /\ sub_avg_of_rank (generated env (seed_of env 0) (atoi env arg))
         (plan_counts (atoi env arg) (world_size env))
         (plan_displs (atoi env arg) (world_size env)) 0
       = Some sub_avg
    /\ global_average (generated env (seed_of env 0) (atoi env arg))
         (plan_counts (atoi env arg) (world_size env))
         (plan_displs (atoi env arg) (world_size env)) (world_size env)
       = Some avg
    /\ compute_avg (generated env (seed_of env 0) (atoi env arg))
         (atoi env arg)
       = Some original_data_avg
    /\ main env 2 argv 0
       = Running
           [Srand (seed_of env 0); Mpi_Init; Mpi_Scatterv slice;
            Mpi_Gather sub_avg;
            Printf ("Avg of all elements is %f" ++ newline) avg;
            Printf ("Avg computed across original data is %f" ++ newline)
              original_data_avg;
            Mpi_Barrier; Mpi_Finalize]
           0.
Proof.
  intros Harg Hok Ht Hn.
  destruct (rank_trace env argv arg 0 Harg Hok Ht Hn ltac:(lia))
    as (c & slice & sub_avg & avg & original & Hload & Hslice & _ & Hsub
        & Havg & Horig & Hmain).
  exists slice, sub_avg, avg, original.
  split_and!; [done | | done | done | exact Hmain].
  unfold sub_avg_of_rank. rewrite Hslice. simpl. rewrite Hload. exact Hsub.
Qed.

Lemma root_prints_both_averages_witness :
  exists slice sub_avg avg original_data_avg,
    MPI_Scatterv
      (generated (sample_env 3) (seed_of (sample_env 3) 0)
         (atoi (sample_env 3) "10"))
      (plan_counts (atoi (sample_env 3) "10") (world_size (sample_env 3)))
      (plan_displs (atoi (sample_env 3) "10") (world_size (sample_env 3))) 0
    = Some slice
    /\ sub_avg_of_rank
         (generated (sample_env 3) (seed_of (sample_env 3) 0)
            (atoi (sample_env 3) "10"))
         (plan_counts (atoi (sample_env 3) "10") (world_size (sample_env 3)))
         (plan_displs (atoi (sample_env 3) "10") (world_size (sample_env 3)))
         0
       = Some sub_avg
    /\ global_average
         (generated (sample_env 3) (seed_of (sample_env 3) 0)
            (atoi (sample_env 3) "10"))
         (plan_counts (atoi (sample_env 3) "10") (world_size (sample_env 3)))
         (plan_displs (atoi (sample_env 3) "10") (world_size (sample_env 3)))
         (world_size (sample_env 3))
       = Some avg
    /\ compute_avg
         (generated (sample_env 3) (seed_of (sample_env 3) 0)
            (atoi (sample_env 3) "10"))
         (atoi (sample_env 3) "10")
       = Some original_data_avg
    /\ main (sample_env 3) 2 ["avg"; "10"]%string 0
       = Running
           [Srand (seed_of (sample_env 3) 0); Mpi_Init; Mpi_Scatterv slice;
            Mpi_Gather sub_avg;
            Printf ("Avg of all elements is %f" ++ newline) avg;
            Printf ("Avg computed across original data is %f" ++ newline)
              original_data_avg;
            Mpi_Barrier; Mpi_Finalize]
           0.
Proof.
  apply (root_prints_both_averages (sample_env 3) ["avg"; "10"]%string "10");
    [reflexivity | intros a bytes; reflexivity
    | vm_compute; split; discriminate | vm_compute; split; discriminate].
Defined.

(** X13. On the same conditions (every allocation of every rank succeeding
    among them) every rank other than the root receives its slice of the
    array the root generated (with the root's seed), sends the average of
    the slice, prints nothing, and returns 0 after the barrier: only the
    root writes to standard output. *)
Theorem worker_prints_nothing {F : Type} `{FloatArith F}
    (env : environment F) (argv : list string) (arg : string) (rank : Z) :
  argv !! 1%nat = Some arg ->
  allocations_succeed env ->
  0 <= atoi env arg <= CInt.INT_MAX ->
  0 < rank < world_size env -> world_size env <= CInt.INT_MAX ->
  exists count slice sub_avg,
    load (plan_counts (atoi env arg) (world_size env)) rank = Some count
    /\ MPI_Scatterv (generated env (seed_of env 0) (atoi env arg))
         (plan_counts (atoi env arg) (world_size env))
         (plan_displs (atoi env arg) (world_size env)) rank
       = Some slice
    /\ length slice = Z.to_nat count
    /\ compute_avg slice count = Some sub_avg
    /\ main env 2 argv rank
       = Running
           [Srand (seed_of env rank); Mpi_Init; Mpi_Scatterv slice;
            Mpi_Gather sub_avg; Mpi_Barrier; Mpi_Finalize]
           0.
Proof.
  intros Harg Hok Ht Hr Hmax.
  destruct (rank_trace env argv arg rank Harg Hok Ht ltac:(lia) ltac:(lia))
    as (c & slice & sub_avg & avg & original & Hload & Hslice & Hlen & Hsub
        & _ & _ & Hmain).
  exists c, slice, sub_avg. split_and!; [done..|].
  rewrite Hmain. destruct (decide (rank = 0)) as [?|_]; [lia|]. done.
Qed.

Lemma worker_prints_nothing_witness :
  exists count slice sub_avg,
    load (plan_counts (atoi (sample_env 3) "10") (world_size (sample_env 3)))
      2
    = Some count
    /\ MPI_Scatterv
         (generated (sample_env 3) (seed_of (sample_env 3) 0)
            (atoi (sample_env 3) "10"))
         (plan_counts (atoi (sample_env 3) "10") (world_size (sample_env 3)))
         (plan_displs (atoi (sample_env 3) "10") (world_size (sample_env 3)))
         2
       = Some slice
    /\ length slice = Z.to_nat count
    /\ compute_avg slice count = Some sub_avg
    /\ main (sample_env 3) 2 ["avg"; "10"]%string 2
       = Running
           [Srand (seed_of (sample_env 3) 2); Mpi_Init; Mpi_Scatterv slice;
            Mpi_Gather sub_avg; Mpi_Barrier; Mpi_Finalize]
           0.
Proof.
  apply (worker_prints_nothing (sample_env 3) ["avg"; "10"]%string "10" 2);
    [reflexivity | intros a bytes; reflexivity
    | vm_compute; split; discriminate
    | vm_compute; split; reflexivity | vm_compute; discriminate].
Defined.

(** ** More ranks than elements, in binary32 *)

Lemma foldl_add_nan (l : list Binary32.float32) :
  foldl Binary32.add Binary32.nan l = Binary32.nan.
Proof. induction l as [|x l IH]; [done|]. simpl. exact IH. Qed.

Lemma plan_counts_head total n :
  0 <= total < n -> exists rest, plan_counts total n = 0 :: rest.
Proof.
  intros Ht. unfold plan_counts. rewrite Z.div_small by lia.
  destruct (Z.to_nat (n - 1)) as [|m] eqn:Em.
  - exists []. simpl. f_equal. lia.
  - by eexists.
Qed.

(** The weighted average of the partial averages is NaN as soon as rank 0
    has no element: its partial average is 0/0, and NaN goes through the
    weighted sum. *)
Lemma surplus_global_average_nan (g : list Binary32.float32) total n :
  0 <= total < n -> n <= CInt.INT_MAX -> Z.of_nat (length g) = total ->
  global_average g (plan_counts total n) (plan_displs total n) n
  = Some Binary32.nan.
Proof.
  intros Ht Hn Hg.
  pose proof (plan_valid total n ltac:(lia) ltac:(lia)) as Hvalid.
  rewrite <- Hg in Hvalid at 1.
  assert (Hlen : Z.of_nat (length (plan_counts total n)) = n)
    by (rewrite plan_counts_length; lia).
  rewrite <- Hlen at 3.
  rewrite global_average_valid by (done || unfold CInt.INT_MAX in *; lia).
  destruct (plan_counts_head total n Ht) as [rest ->]. f_equal.
  unfold weighted_mean_formula, chunk_means, fsum. simpl.
  by rewrite foldl_add_nan.
Qed.

(** X14. In binary32, when there are more ranks than elements (and the
    count is not negative), and provided every allocation of every rank
    succeeds, the root receives no element, its partial average is NaN,
    and the first line it prints carries NaN, while it still runs to its
    end and returns 0: no error is reported. *)
Theorem surplus_ranks_print_nan (env : environment Binary32.float32)
    (argv : list string) (arg : string) :
  argv !! 1%nat = Some arg ->
  allocations_succeed env ->
  0 <= atoi env arg < world_size env -> world_size env <= CInt.INT_MAX ->
  exists original_data_avg,
    main env 2 argv 0
    = Running
        [Srand (seed_of env 0); Mpi_Init; Mpi_Scatterv [];
         Mpi_Gather Binary32.nan;
         Printf ("Avg of all elements is %f" ++ newline) Binary32.nan;
         Printf ("Avg computed across original data is %f" ++ newline)
           original_data_avg;
         Mpi_Barrier; Mpi_Finalize]
        0.
Proof.
  intros Harg Hok Ht Hmax.
  destruct (rank_trace env argv arg 0 Harg Hok)
    as (c & slice & sub_avg & avg & original & Hload & Hslice & _ & Hsub
        & Havg & _ & Hmain);
    [unfold CInt.INT_MAX in *; lia..|].
  exists original. rewrite Hmain.
  rewrite surplus_global_average_nan in Havg;
    [|done|done|unfold generated; rewrite length_fmap, length_seq; lia].
  injection Havg as <-.
  destruct (plan_counts_head _ _ Ht) as [rest Hrest].
  unfold MPI_Scatterv in Hslice. rewrite Hrest in Hslice, Hload.
  simpl in Hslice, Hload. injection Hload as <-.
  destruct (load _ 0) as [d|]; [|done]. simpl in Hslice.
  destruct (decide _) as [_|_]; [|done].
  injection Hslice as <-. simpl in Hsub. injection Hsub as <-.
  done.
Qed.

Lemma surplus_ranks_print_nan_witness :
  exists original_data_avg,
    main (sample_env 4) 2 ["avg"; "2"]%string 0
    = Running
        [Srand (seed_of (sample_env 4) 0); Mpi_Init; Mpi_Scatterv [];
         Mpi_Gather Binary32.nan;
         Printf ("Avg of all elements is %f" ++ newline) Binary32.nan;
         Printf ("Avg computed across original data is %f" ++ newline)
           original_data_avg;
         Mpi_Barrier; Mpi_Finalize]
        0.
Proof.
  apply (surplus_ranks_print_nan (sample_env 4) ["avg"; "2"]%string "2");
    [reflexivity | intros a bytes; reflexivity
    | vm_compute; split; [discriminate | reflexivity]
    | vm_compute; discriminate].
Defined.

(** X15. A negative count is not turned away at the command line: the root
    seeds the generator, starts MPI, and ends in the failed assertion of
    [create_rand_nums], the allocation of a negative number of floats (a
    size of at least [2^64 - 2^33] bytes) having returned NULL.  It prints
    nothing and takes part in no collective. *)
Theorem negative_count_aborts_root {F : Type} `{FloatArith F}
    (env : environment F) (argv : list string) (arg : string) :
  argv !! 1%nat = Some arg -> atoi env arg < 0 ->
  main env 2 argv 0 = Ended [Srand (seed_of env 0); Mpi_Init; Abort].
Proof.
  intros Harg Hneg. unfold main.
  destruct (decide (2 <> 2)) as [?|_]; [done|].
  rewrite Harg. simpl.
  unfold before_scatterv, create_rand_nums, malloc_assert.
  destruct (decide (0 = 0)) as [_|?]; [|done].
  destruct (decide (0 <= atoi env arg)) as [?|_]; [lia|]. done.
Qed.

Lemma negative_count_aborts_root_witness :
  main (Environment Binary32.float32 (fun _ => -5) (fun _ => 0)
          (fun _ k => k) 2147483647 2 (fun _ _ => true) (fun _ => 0)
          (fun _ => Binary32.zero))
    2 ["avg"; "-5"]%string 0
  = Ended
      [Srand
         (seed_of
            (Environment Binary32.float32 (fun _ => -5) (fun _ => 0)
               (fun _ k => k) 2147483647 2 (fun _ _ => true)
               (fun _ => 0) (fun _ => Binary32.zero)) 0);
       Mpi_Init; Abort].
Proof.
  apply (negative_count_aborts_root
           (Environment Binary32.float32 (fun _ => -5) (fun _ => 0)
              (fun _ k => k) 2147483647 2 (fun _ _ => true)
              (fun _ => 0) (fun _ => Binary32.zero))
           ["avg"; "-5"]%string "-5");
    [reflexivity | simpl; lia].
Defined.

(** ** The generated values, and the run on one rank *)

(** X17. In binary32, with [RAND_MAX] at least 1 and every result of
    [rand()] between 0 and [RAND_MAX], as C has it, and the allocation
    granted, every entry [create_rand_nums] stores is a binary32 value of
    the unit interval: it passes [0.0f <= x && x <= 1.0f], and is neither
    NaN nor infinite. *)
Theorem create_rand_nums_unit_interval (env : environment Binary32.float32)
    (seed num_elements : Z) :
  0 <= num_elements <= CInt.INT_MAX ->
  malloc_succeeds env Alloc_rand_nums (sizeof_float * num_elements) = true ->
  1 <= RAND_MAX env <= CInt.INT_MAX ->
  (forall s i, 0 <= rand env s i <= RAND_MAX env) ->
  exists rand_nums,
    create_rand_nums env seed num_elements = Running [] rand_nums
    /\ length rand_nums = Z.to_nat num_elements
    /\ Forall (fun x => unit_interval x = true) rand_nums.
Proof.
  intros Hn Hok Hmax Hrand. exists (generated env seed num_elements).
  split_and!.
  - by apply create_rand_nums_runs.
  - unfold generated. by rewrite length_fmap, length_seq.
  - unfold generated. apply Forall_fmap, Forall_forall. intros i _. simpl.
    apply rand_quotient_unit; [done|]. unfold CInt.INT_MAX in Hmax. lia.
Qed.

Lemma create_rand_nums_unit_interval_witness :
  exists rand_nums,
    create_rand_nums (sample_env 1) 77 5 = Running [] rand_nums
    /\ length rand_nums = Z.to_nat 5
    /\ Forall (fun x => unit_interval x = true) rand_nums.
Proof.
  apply (create_rand_nums_unit_interval (sample_env 1) 77 5);
    [unfold CInt.INT_MAX; lia | reflexivity
    | simpl; unfold CInt.INT_MAX; lia
    | intros s i; unfold sample_env, rand, RAND_MAX;
      pose proof (Z.mod_pos_bound (s + 1103515245 * (i + 1)) 2147483648);
      lia].
Defined.

(** X18. On one rank, for a count of at least one, with every allocation
    granted and [rand()] within 0 .. [RAND_MAX], the program prints the
    same float twice: the weighted average of the one partial average is
    the direct average of the generated array, bit for bit, and it is a
    finite value. *)
Theorem one_rank_prints_one_value (env : environment Binary32.float32)
    (argv : list string) (arg : string) :
  argv !! 1%nat = Some arg ->
  world_size env = 1 ->
  allocations_succeed env ->
  1 <= atoi env arg <= CInt.INT_MAX ->
  1 <= RAND_MAX env <= CInt.INT_MAX ->
  (forall s i, 0 <= rand env s i <= RAND_MAX env) ->
  exists avg,
    Binary32.is_finite avg = true
    /\ main env 2 argv 0
       = Running
           [Srand (seed_of env 0); Mpi_Init;
            Mpi_Scatterv (generated env (seed_of env 0) (atoi env arg));
            Mpi_Gather avg;
            Printf ("Avg of all elements is %f" ++ newline) avg;
            Printf ("Avg computed across original data is %f" ++ newline)
              avg;
            Mpi_Barrier; Mpi_Finalize]
           0.
Proof.
  intros Harg Hsize Hok Ht Hmax Hrand.
  destruct (rank_trace env argv arg 0 Harg Hok)
    as (c & slice & sub_avg & avg & original & Hload & Hslice & _ & Hsub
        & Havg & Horig & Hmain);
    [lia | rewrite Hsize; unfold CInt.INT_MAX; lia | rewrite Hsize; lia |].
  rewrite Hsize in *.
  destruct (plan_of_one (atoi env arg)) as [Hcounts Hdispls].
  rewrite Hcounts, Hdispls in *.
  remember (generated env (seed_of env 0) (atoi env arg)) as g eqn:Eg.
  assert (Hg : Z.of_nat (length g) = atoi env arg).
  { rewrite Eg. unfold generated. rewrite length_fmap, length_seq. lia. }
  assert (Hunit : Forall (fun x => unit_interval x = true) g).
  { rewrite Eg. unfold generated. apply Forall_fmap, Forall_forall.
    intros i _. simpl. apply rand_quotient_unit; [done|].
    unfold CInt.INT_MAX in Hmax. lia. }
  destruct (single_worker_same_float g (atoi env arg) Ht Hg Hunit)
    as (d & Hd & Hfin & _ & _ & Hglobal).
  destruct (single_worker_formula g (atoi env arg) ltac:(lia) Hg)
    as (Hscatter & _).
  rewrite Hscatter in Hslice. injection Hslice as <-.
  injection Hload as <-.
  rewrite Hd in Hsub, Horig. injection Hsub as <-. injection Horig as <-.
  rewrite Hglobal in Havg. injection Havg as <-.
  exists d. split; [done|]. rewrite Hmain. done.
Qed.

Lemma one_rank_prints_one_value_witness :
  exists avg,
    Binary32.is_finite avg = true
    /\ main (sample_env 1) 2 ["avg"; "5"]%string 0
       = Running
           [Srand (seed_of (sample_env 1) 0); Mpi_Init;
            Mpi_Scatterv
              (generated (sample_env 1) (seed_of (sample_env 1) 0)
                 (atoi (sample_env 1) "5"));
            Mpi_Gather avg;
            Printf ("Avg of all elements is %f" ++ newline) avg;
            Printf ("Avg computed across original data is %f" ++ newline)
              avg;
            Mpi_Barrier; Mpi_Finalize]
           0.
Proof.
  apply (one_rank_prints_one_value (sample_env 1) ["avg"; "5"]%string "5");
    [reflexivity | reflexivity | intros a bytes; reflexivity
    | vm_compute; split; discriminate
    | simpl; unfold CInt.INT_MAX; lia
    | intros s i; unfold sample_env, rand, RAND_MAX;
      pose proof (Z.mod_pos_bound (s + 1103515245 * (i + 1)) 2147483648);
      lia].
Defined.

(** X19. For any array of binary32 values and a count of at least one, on
    one worker: whenever [(float) total * d] is finite, [d] being the
    direct average, the weighted average compares equal to [d] ([==] of
    C), and is the same float unless [d] is the negative zero.  The
    product overflowing is the one way for the two to differ. *)
Theorem single_term_returns_average (g : list Binary32.float32) total :
  1 <= total <= CInt.INT_MAX -> Z.of_nat (length g) = total ->
  Forall (fun x => valid_binary Binary32.prec Binary32.emax x = true) g ->
  exists d w,
    compute_avg g total = Some d
    /\ global_average g [total] [0] 1 = Some w
    /\ (Binary32.is_finite (Binary32.mul (Binary32.of_int total) d) = true ->
        Binary32.eqb w d = true /\ (d <> S754_zero true -> w = d)).
Proof.
  intros Ht Hg Hvalid.
  destruct (single_worker_formula g total ltac:(lia) Hg)
    as (_ & Havg & Hpart & Hweighted).
  eexists _, _. split; [exact Havg|]. split.
  - unfold global_average. rewrite Hpart. exact Hweighted.
  - apply single_term_any_sum; [unfold CInt.INT_MAX in *; lia|].
    by apply fsum_valid.
Qed.

Lemma single_term_returns_average_witness :
  exists d w,
    compute_avg
      [Binary32.of_scaled (-3) (-1); Binary32.of_int 2;
       Binary32.of_scaled 1 (-2)] 3
    = Some d
    /\ global_average
         [Binary32.of_scaled (-3) (-1); Binary32.of_int 2;
          Binary32.of_scaled 1 (-2)] [3] [0] 1
       = Some w
    /\ (Binary32.is_finite (Binary32.mul (Binary32.of_int 3) d) = true ->
        Binary32.eqb w d = true /\ (d <> S754_zero true -> w = d)).
Proof.
  apply (single_term_returns_average
           [Binary32.of_scaled (-3) (-1); Binary32.of_int 2;
            Binary32.of_scaled 1 (-2)] 3);
    [unfold CInt.INT_MAX; lia | reflexivity |].
  repeat (apply Forall_cons; [vm_compute; reflexivity|]). apply Forall_nil.
Defined.
